(** * xrpc-server: the request/stream dispatch engine of [server.ts]

    A shallow embedding of [packages/xrpc-server/src/server.ts]: method
    registration ([addMethod], [addStreamMethod], [addRoute],
    [addSubscription], [setupRouteRateLimits]), the per-request pipeline
    ([catchall], [createHandler], [errorMiddleware]) and the frame
    generator of a subscription.

    The server object is a record that the registration functions
    transform; a request is run in a small trace-and-store monad [Pipe]
    that records, in order, every observable step (limiter debits, schema
    checks, handler calls), so that ordering properties are statements
    about lists of events.

    Collaborators that live outside [server.ts] (the error classes of
    [types.ts], [consumeMany] and the limiters of [rate-limiter.ts], the
    validators of [util.ts], the frames of [stream/], Express's router)
    are modelled from their interface, each with a note.

    [sharedRateLimiters] is a plain JavaScript object that the code
    reads and writes under names chosen by the configuration; it is
    modelled with the members it inherits and with its prototype.

    Left out: the expiry of rate-limit windows (one window is modelled);
    a body or response stream that fails during transfer, and with it the
    [headersSent] branch of [errorMiddleware]; lexicons added after the
    first registration; OPTIONS requests, which Express answers itself
    when the path has a route. *)

From Stdlib Require Import ZArith Lia Ascii String.
From stdpp Require Import gmap strings list fin_maps pretty.

Set Warnings "-register-all".
Open Scope string_scope.
Open Scope list_scope.

(** ** JavaScript values yielded by handlers *)

(** The values a stream handler may yield, as far as [addSubscription]
    inspects them: [check.is(item, schema.map)] holds exactly of plain
    objects, and [item?.['$type']] is a string only when the object has
    that field holding a string. *)
Inductive jsval :=
| VUndefined
| VNull
| VBool (b : bool)
| VNum (z : Z)
| VStr (s : string)
| VArr (l : list jsval)
| VObj (fields : gmap string jsval).

(** ** Errors ([types.ts]) *)

Module Errors.

(** Modelled from the spec: the status classification of a wire error
    ([ResponseType] of [types.ts]): the four client classes and the
    server class of section 4.5, and any other numeric status a handler
    may declare. *)
Inductive ResponseType :=
| InvalidRequest
| AuthRequired
| RateLimitExceeded
| MethodNotImplemented
| InternalServerError
| OtherStatus (code : Z).

#[global] Instance ResponseType_eq_dec : EqDecision ResponseType.
Proof. solve_decision. Defined.

(** A declared handler error: a value, not a fault. *)
Record HandlerError := {
  he_status : ResponseType;
  he_error : option string;
  he_message : option string;
}.

Record XRPCError := {
  xe_type : ResponseType;
  xe_message : option string;
  xe_name : option string;
}.

#[global] Instance HandlerError_eq_dec : EqDecision HandlerError.
Proof. solve_decision. Defined.
#[global] Instance XRPCError_eq_dec : EqDecision XRPCError.
Proof. solve_decision. Defined.

(** What JavaScript can throw or hand to [next]: a typed failure, a
    declared-error value, any other [Error], or a falsy value. *)
Inductive Thrown :=
| ThXrpc (e : XRPCError)
| ThHandlerError (h : HandlerError)
| ThError (msg : string)
| ThFalsy.

Definition InvalidRequestError (msg : string) : XRPCError :=
  {| xe_type := InvalidRequest; xe_message := Some msg; xe_name := None |}.
Definition InternalServerErrorOf (msg : option string) : XRPCError :=
  {| xe_type := InternalServerError; xe_message := msg; xe_name := None |}.
Definition MethodNotImplementedError : XRPCError :=
  {| xe_type := MethodNotImplemented; xe_message := None; xe_name := None |}.
Definition RateLimitExceededError : XRPCError :=
  {| xe_type := RateLimitExceeded; xe_message := None; xe_name := None |}.

(** Modelled from the spec: [XRPCError.fromHandlerError], which turns a
    declared error into the wire error of the same status, name and
    message. *)
Definition fromHandlerError (h : HandlerError) : XRPCError :=
  {| xe_type := he_status h; xe_message := he_message h; xe_name := he_error h |}.

(** Modelled from the spec: [XRPCError.fromError], the normalizer of
    section 4.5: a typed failure is kept, a declared handler error is
    converted, anything else (unknown or falsy) is coerced to
    InternalServerError. *)
Definition fromError (t : Thrown) : XRPCError :=
  match t with
  | ThXrpc e => e
  | ThHandlerError h => fromHandlerError h
  | ThError msg => InternalServerErrorOf (Some msg)
  | ThFalsy => InternalServerErrorOf None
  end.

Definition typeName (t : ResponseType) : option string :=
  match t with
  | InvalidRequest => Some "InvalidRequest"
  | AuthRequired => Some "AuthenticationRequired"
  | RateLimitExceeded => Some "RateLimitExceeded"
  | MethodNotImplemented => Some "MethodNotImplemented"
  | InternalServerError => Some "InternalServerError"
  | OtherStatus _ => None
  end.

Definition typeStr (t : ResponseType) : option string :=
  match t with
  | InvalidRequest => Some "Invalid Request"
  | AuthRequired => Some "Authentication Required"
  | RateLimitExceeded => Some "Rate Limit Exceeded"
  | MethodNotImplemented => Some "Method Not Implemented"
  | InternalServerError => Some "Internal Server Error"
  | OtherStatus _ => None
  end.

Record Payload := { p_error : option string; p_message : option string }.

#[global] Instance Payload_eq_dec : EqDecision Payload.
Proof. solve_decision. Defined.

(** Modelled from the spec: the [payload] getter, the JSON body
    [{error, message}] of section 6; a server-class error never carries
    more than its generic message (section 7). *)
Definition payload (e : XRPCError) : Payload :=
  {| p_error := match xe_name e with Some n => Some n | None => typeName (xe_type e) end;
     p_message :=
       if decide (xe_type e = InternalServerError) then typeStr (xe_type e)
       else match xe_message e with Some m => Some m | None => typeStr (xe_type e) end |}.

End Errors.
Export Errors.

(** ** Frames ([stream/frames.ts]) *)

(** Modelled from the spec: a frame is a message frame (payload and
    optional type tag) or an error frame (error code and message); both
    are instances of [Frame]. *)
Inductive Frame :=
| MessageFrame (body : jsval) (type : option string)
| ErrorFrame (error : string) (message : option string).

Definition isErrorFrame (f : Frame) : bool :=
  match f with ErrorFrame _ _ => true | MessageFrame _ _ => false end.

(** ** Requests and request contexts *)

Definition Params := list (string * string).

Record Request := {
  req_method : string;            (* the HTTP verb, upper case; not OPTIONS *)
  req_methodId : string;          (* the id after /xrpc/ *)
  req_ip : string;                (* network origin *)
  req_query : Params;             (* raw query string *)
  req_body : string;
  req_bodyError : option XRPCError;
    (* the error that express.json / express.text raise on this body, an
       error object, given by what XRPCError.fromError makes of it *)
}.

Record Input := { in_encoding : string; in_body : string }.

Definition Auth := string.

(** [XRPCReqContext]; the back-reference to the response is left out. *)
Record XRPCReqContext := {
  ctx_req : Request;
  ctx_params : Params;
  ctx_input : option Input;
  ctx_auth : option Auth;
}.

(** ** Rate limiters ([rate-limiter.ts]) *)

Module RateLimit.

Record RateLimiterOpts := {
  keyPrefix : string;
  durationMs : Z;
  points : Z;
  calcKey : option (XRPCReqContext -> string);
  calcPoints : option (XRPCReqContext -> Z);
}.

(** Modelled from the spec: a limiter ([RateLimiterI]) wraps the one
    external counter store and remembers the options it was created
    with; its rows in the store are named by its key prefix. *)
Record RateLimiterI := { rl_opts : RateLimiterOpts }.

(** The second argument of [consume]: per-call overrides. *)
Record ConsumeOpts := {
  co_calcKey : option (XRPCReqContext -> string);
  co_calcPoints : option (XRPCReqContext -> Z);
}.

Definition noOverride : ConsumeOpts := {| co_calcKey := None; co_calcPoints := None |}.

(** Modelled from the spec: the external counter store, points consumed
    so far per row, within one window (windows do not expire here). *)
Abbreviation Store := (gmap string Z).

Definition rowOf (rl : RateLimiterI) (key : string) : string :=
  keyPrefix (rl_opts rl) +:+ ":" +:+ key.

Definition consumedOf (st : Store) (row : string) : Z := default 0%Z (st !! row).

(** Remaining budget of [rl] for [key]. *)
Definition remaining (rl : RateLimiterI) (key : string) (st : Store) : Z :=
  (points (rl_opts rl) - consumedOf st (rowOf rl key))%Z.

Inductive ConsumeResult :=
| Allowed (remainingPoints : Z)
| Exceeded.

Definition keyFor (rl : RateLimiterI) (o : ConsumeOpts) (ctx : XRPCReqContext) : string :=
  match co_calcKey o with
  | Some f => f ctx
  | None =>
      match calcKey (rl_opts rl) with
      | Some f => f ctx
      | None => req_ip (ctx_req ctx)
      end
  end.

Definition pointsFor (rl : RateLimiterI) (o : ConsumeOpts) (ctx : XRPCReqContext) : Z :=
  match co_calcPoints o with
  | Some f => f ctx
  | None =>
      match calcPoints (rl_opts rl) with
      | Some f => f ctx
      | None => 1%Z
      end
  end.

(** Modelled from the spec: [RateLimiterI.consume]: compute the key
    (default: network origin) and the cost (default 1), then ask the
    store to debit that many points from the key's row; the answer is
    "allowed, N remaining" or "rejected". A rejected debit leaves the
    row as it was. *)
Definition consume (rl : RateLimiterI) (o : ConsumeOpts) (ctx : XRPCReqContext)
    (st : Store) : ConsumeResult * Store :=
  let row := rowOf rl (keyFor rl o ctx) in
  let used := (consumedOf st row + pointsFor rl o ctx)%Z in
  if (used <=? points (rl_opts rl))%Z
  then (Allowed (points (rl_opts rl) - used), <[row := used]> st)
  else (Exceeded, st).

(** The usual creator: a limiter over the shared store. *)
Definition storeBacked (o : RateLimiterOpts) : RateLimiterI := {| rl_opts := o |}.

End RateLimit.
Export RateLimit.

(** ** The table of shared limiters, a plain JavaScript object *)

(** The members that every plain object inherits from
    [Object.prototype], the accessor [__proto__] apart: all functions. *)
Definition objectPrototypeMembers : list string :=
  ["constructor"; "__defineGetter__"; "__defineSetter__"; "hasOwnProperty";
   "__lookupGetter__"; "__lookupSetter__"; "isPrototypeOf"; "propertyIsEnumerable";
   "toString"; "valueOf"; "toLocaleString"].

(** What [sharedRateLimiters[name]] gives when it is truthy: a limiter,
    or a value that is no limiter and has no member [consume] (a function
    that the object inherits, or [Object.prototype] itself). *)
Inductive TableValue :=
| ALimiter (rl : RateLimiterI)
| Inherited.

(** [this.sharedRateLimiters], created as [{}]: its own entries, and its
    prototype, which is [Object.prototype] ([None]) until an assignment
    to [__proto__] makes a limiter the prototype. *)
Record LimiterTable := {
  tbl_own : gmap string RateLimiterI;
  tbl_proto : option RateLimiterI;
}.

Definition emptyTable : LimiterTable := {| tbl_own := ∅; tbl_proto := None |}.

(** [table[name] = rateLimiter]: an own entry, but for [__proto__],
    whose setter replaces the prototype. *)
Definition tableSet (name : string) (rl : RateLimiterI) (t : LimiterTable) : LimiterTable :=
  if String.eqb name "__proto__"
  then {| tbl_own := tbl_own t; tbl_proto := Some rl |}
  else {| tbl_own := <[name := rl]> (tbl_own t); tbl_proto := tbl_proto t |}.

(** [table[name]], [None] being [undefined]: the own entry, or else what
    the prototype chain holds under the name. Modelled from the spec: a
    limiter has the one member [consume] of its interface, and inherits
    the rest from [Object.prototype]. *)
Definition tableGet (t : LimiterTable) (name : string) : option TableValue :=
  if String.eqb name "__proto__"
  then Some (match tbl_proto t with
             | Some rl => ALimiter rl
             | None => Inherited
             end)
  else match tbl_own t !! name with
       | Some rl => Some (ALimiter rl)
       | None =>
           if bool_decide (name ∈ objectPrototypeMembers)
              || match tbl_proto t with
                 | Some _ => String.eqb name "consume"
                 | None => false
                 end
           then Some Inherited
           else None
       end.

(** [table !! name] is the limiter that [table[name]] gives, when it
    gives one. *)
#[global] Instance table_lookup : Lookup string RateLimiterI LimiterTable :=
  fun name t =>
    match tableGet t name with
    | Some (ALimiter rl) => Some rl
    | _ => None
    end.

(** ** Traces *)

(** Where a consume function was built: for the [k]-th global limiter, or
    for the [i]-th rate-limit spec of the configuration registered under
    [nsid]. *)
Inductive Origin :=
| OfGlobal (k : nat)
| OfSpec (nsid : string) (i : nat).

#[global] Instance Origin_eq_dec : EqDecision Origin.
Proof. solve_decision. Defined.

Inductive Event :=
| EvAuth (nsid : string)
| EvBodyIntake (nsid : string)
| EvConsume (o : Origin) (row : string) (cost : Z) (allowed : bool)
| EvCustomCatchall
| EvGetDef (methodId : string)
| EvVerbCheck (methodId : string)
| EvDecodeParams (nsid : string)
| EvParamsValid (nsid : string)
| EvInputValid (nsid : string)
| EvHandler (nsid : string)
| EvValidateOutput (nsid : string).

#[global] Instance Event_eq_dec : EqDecision Event.
Proof. solve_decision. Defined.

(** A computation that debits the store and logs events as it goes. *)
Definition Pipe (A : Type) : Type := Store -> list Event * Store * A.

Definition ret {A} (a : A) : Pipe A := fun st => ([], st, a).

Definition bind {A B} (m : Pipe A) (k : A -> Pipe B) : Pipe B :=
  fun st =>
    let '(t1, st1, a) := m st in
    let '(t2, st2, b) := k a st1 in
    (t1 ++ t2, st2, b).

Definition emit (e : Event) : Pipe unit := fun st => ([e], st, tt).

Declare Scope pipe_scope.
Delimit Scope pipe_scope with pipe.
Notation "x <- m ;; k" := (bind m (fun x => k))
  (at level 100, m at next level, right associativity) : pipe_scope.
Notation "m ;;; k" := (bind m (fun _ => k))
  (at level 100, right associativity) : pipe_scope.

Definition traceOf {A} (r : list Event * Store * A) : list Event := r.1.1.
Definition storeOf {A} (r : list Event * Store * A) : Store := r.1.2.
Definition valueOf {A} (r : list Event * Store * A) : A := r.2.

(** A consume function ([RateLimiterConsume]): the closure
    [(ctx) => rateLimiter.consume(ctx, { calcKey, calcPoints })], tagged
    with where it was built; [cf_limiter] is the value that the closure
    captured as [rateLimiter]. *)
Record RateLimiterConsume := {
  cf_origin : Origin;
  cf_limiter : TableValue;
  cf_opts : ConsumeOpts;
}.

(** The TypeError of a call of [rateLimiter.consume] on a value that has
    no such member. *)
Definition notAFunction : Thrown := ThError "rateLimiter.consume is not a function".

(** A call of a consume function: the answer of the limiter, or the
    error raised by the call when the captured value is no limiter. *)
Definition runConsume (fn : RateLimiterConsume) (ctx : XRPCReqContext)
    : Pipe (Thrown + ConsumeResult) :=
  fun st =>
    match cf_limiter fn with
    | ALimiter rl =>
        let o := cf_opts fn in
        let '(r, st') := consume rl o ctx st in
        ([EvConsume (cf_origin fn) (rowOf rl (keyFor rl o ctx)) (pointsFor rl o ctx)
            (match r with Allowed _ => true | Exceeded => false end)],
         st', inr r)
    | Inherited => ([], st, inl notAFunction)
    end.

(** How a call of [consumeMany] ends: it returns (a RateLimitExceeded
    outcome, or nothing), or one of the functions raised. A returned
    result is read as a [Consumed] where one is expected. *)
Inductive Consumed :=
| Returned (result : option XRPCError)
| Raised (t : Thrown).

#[warning="-uniform-inheritance"] Coercion Returned : option >-> Consumed.

(** Modelled from the spec: [consumeMany] of [rate-limiter.ts] evaluates
    the functions of the pool one after the other and returns the first
    RateLimitExceeded outcome, or nothing when all pass; a function after
    a rejecting one is not run, nor is one after a function that
    raised. *)
Fixpoint consumeMany (ctx : XRPCReqContext) (fns : list RateLimiterConsume)
    : Pipe Consumed :=
  match fns with
  | [] => ret (Returned None)
  | fn :: rest =>
      (r <- runConsume fn ctx ;;
       match r with
       | inl t => ret (Raised t)
       | inr Exceeded => ret (Returned (Some RateLimitExceededError))
       | inr (Allowed _) => consumeMany ctx rest
       end)%pipe
  end.

(** ** Lexicons and handler configurations *)

Inductive LexDefType := query | procedure | subscription | otherDef.

#[global] Instance LexDefType_eq_dec : EqDecision LexDefType.
Proof. solve_decision. Defined.

(** A compiled definition: its kind, and the decoding of raw query
    parameters that its parameter schema prescribes. *)
Record LexDef := {
  def_type : LexDefType;
  def_decode : Params -> Params;
}.

Record HandlerSuccess := {
  hs_encoding : string;
  hs_body : string;
  hs_headers : list (string * option string);
}.

(** The schema collaborator ([Lexicons] of [@atproto/lexicon]): the
    definitions by id, and its verdicts on parameters, input and output
    (success, or the validator's message). *)
Record Lexicons := {
  lex_defs : gmap string LexDef;
  lex_params : string -> Params -> string + Params;
  lex_input : string -> Request -> option Z -> string + option Input;
  lex_output : string -> option HandlerSuccess -> option string;
}.

Definition getDef (lex : Lexicons) (nsid : string) : option LexDef := lex_defs lex !! nsid.

(** [HandlerOutput]: nothing, an ordinary success, a pipe-through stream
    or buffer, or a declared error. *)
Inductive HandlerOutput :=
| OutVoid
| OutSuccess (s : HandlerSuccess)
| OutPipeThroughStream (encoding : string) (stream : string) (headers : list (string * option string))
| OutPipeThroughBuffer (encoding : string) (buffer : string) (headers : list (string * option string))
| OutError (h : HandlerError).

(** A handler returns an output or raises. *)
Definition XRPCHandler := XRPCReqContext -> Thrown + HandlerOutput.

Inductive AuthOutput :=
| AuthCredentials (a : Auth)
| AuthError (h : HandlerError).

Definition AuthVerifier := Request -> Thrown + AuthOutput.

(** [HandlerRateLimitOpts]: [isShared] holds of the first shape, the one
    with a [name]. *)
Inductive HandlerRateLimitOpts :=
| SharedRateLimitOpts (name : string)
    (calcKey : option (XRPCReqContext -> string)) (calcPoints : option (XRPCReqContext -> Z))
| RouteRateLimitOpts (durationMs points : Z)
    (calcKey : option (XRPCReqContext -> string)) (calcPoints : option (XRPCReqContext -> Z)).

Definition specCalcKey (l : HandlerRateLimitOpts) : option (XRPCReqContext -> string) :=
  match l with SharedRateLimitOpts _ k _ => k | RouteRateLimitOpts _ _ k _ => k end.
Definition specCalcPoints (l : HandlerRateLimitOpts) : option (XRPCReqContext -> Z) :=
  match l with SharedRateLimitOpts _ _ p => p | RouteRateLimitOpts _ _ _ p => p end.

(** [calcKey === undefined && calcPoints === undefined] *)
Definition isBasicSpec (l : HandlerRateLimitOpts) : bool :=
  match specCalcKey l, specCalcPoints l with
  | None, None => true
  | _, _ => false
  end.

(** [XRPCHandlerConfig]; a single [rateLimit] is a one-element list and
    an absent one the empty list. *)
Record XRPCHandlerConfig := {
  cfg_handler : XRPCHandler;
  cfg_auth : option AuthVerifier;
  cfg_rateLimit : list HandlerRateLimitOpts;
  cfg_blobLimit : option Z;
}.

(** An item yielded by a stream handler: a [Frame] instance or any other
    value. *)
Inductive Item :=
| ItemFrame (f : Frame)
| ItemValue (v : jsval).

(** One run of a stream handler, as far as it was consumed: the items it
    yielded, then how it ended ([None]: the sequence ended; [Some t]: it
    raised [t]). *)
Definition HandlerRun : Type := list Item * option Thrown.

Record StreamContext := {
  sctx_req : Request;
  sctx_params : Params;
  sctx_auth : option Auth;
}.

Record XRPCStreamHandlerConfig := {
  scfg_handler : StreamContext -> HandlerRun;
  scfg_auth : option AuthVerifier;
}.

(** ** Responses and the outcome of a middleware *)

Inductive Response :=
| Ok200Empty
| Ok200Json (body : string) (headers : list (string * string))
| Ok200Raw (contentType : string) (body : string) (headers : list (string * string))
| ErrorResponse (status : ResponseType) (p : Payload)
| CustomResponse (tag : string)
| Unhandled.

(** A middleware ends by calling [next()], [next(err)], or by sending. *)
Inductive Outcome :=
| Next
| NextErr (t : Thrown)
| Sent (r : Response).

(** ** Server options and the server object *)

Record ServerRateLimitDescription := {
  srl_name : string;
  srl_durationMs : Z;
  srl_points : Z;
  srl_calcKey : option (XRPCReqContext -> string);
  srl_calcPoints : option (XRPCReqContext -> Z);
}.

Record RateLimitsOptions := {
  creator : RateLimiterOpts -> RateLimiterI;
  rlo_global : list ServerRateLimitDescription;
  rlo_shared : list ServerRateLimitDescription;
}.

Record Options := {
  validateResponse : option bool;
  opt_catchall : option (Request -> Outcome);
  opt_blobLimit : option Z;
  rateLimits : option RateLimitsOptions;
}.

Inductive Verb := get | post.

#[global] Instance Verb_eq_dec : EqDecision Verb.
Proof. solve_decision. Defined.

(** The closure that [createHandler] returns, by what it captured. *)
Record RouteHandler := {
  h_nsid : string;
  h_def : LexDef;
  h_cfg : XRPCHandlerConfig;
  h_blobLimit : option Z;
  h_validateResOutput : bool;       (* false: the validator is null *)
  h_basicRlFns : list RateLimiterConsume;
  h_paramRlFns : list RateLimiterConsume;
}.

(** A layer of [this.routes]: verb, path [/xrpc/nsid], and the stack
    locals, auth (if configured), body parsers (for post), handler. *)
Record Route := {
  rt_verb : Verb;
  rt_nsid : string;
  rt_auth : option AuthVerifier;
  rt_handler : RouteHandler;
}.

(** What [subscriptions] holds under an id: the generator's captures. *)
Record XrpcStreamServer := {
  ss_nsid : string;
  ss_def : LexDef;
  ss_cfg : XRPCStreamHandlerConfig;
}.

Record Server := {
  lex : Lexicons;
  options : Options;
  routes : list Route;
  subscriptions : gmap string XrpcStreamServer;
  globalRateLimiters : list RateLimiterI;
  sharedRateLimiters : LimiterTable;
  (* the two pools by id: an id is read only after [setupRouteRateLimits]
     has assigned it *)
  basicRouteRateLimiterFns : gmap string (list RateLimiterConsume);
  paramRouteRateLimiterFns : gmap string (list RateLimiterConsume);
}.

Definition setRoutes (r : list Route) (s : Server) : Server :=
  {| lex := lex s; options := options s; routes := r; subscriptions := subscriptions s;
     globalRateLimiters := globalRateLimiters s; sharedRateLimiters := sharedRateLimiters s;
     basicRouteRateLimiterFns := basicRouteRateLimiterFns s;
     paramRouteRateLimiterFns := paramRouteRateLimiterFns s |}.

Definition setSubscriptions (m : gmap string XrpcStreamServer) (s : Server) : Server :=
  {| lex := lex s; options := options s; routes := routes s; subscriptions := m;
     globalRateLimiters := globalRateLimiters s; sharedRateLimiters := sharedRateLimiters s;
     basicRouteRateLimiterFns := basicRouteRateLimiterFns s;
     paramRouteRateLimiterFns := paramRouteRateLimiterFns s |}.

Definition setShared (m : LimiterTable) (s : Server) : Server :=
  {| lex := lex s; options := options s; routes := routes s; subscriptions := subscriptions s;
     globalRateLimiters := globalRateLimiters s; sharedRateLimiters := m;
     basicRouteRateLimiterFns := basicRouteRateLimiterFns s;
     paramRouteRateLimiterFns := paramRouteRateLimiterFns s |}.

Definition setBasicFns (m : gmap string (list RateLimiterConsume)) (s : Server) : Server :=
  {| lex := lex s; options := options s; routes := routes s; subscriptions := subscriptions s;
     globalRateLimiters := globalRateLimiters s; sharedRateLimiters := sharedRateLimiters s;
     basicRouteRateLimiterFns := m;
     paramRouteRateLimiterFns := paramRouteRateLimiterFns s |}.

Definition setParamFns (m : gmap string (list RateLimiterConsume)) (s : Server) : Server :=
  {| lex := lex s; options := options s; routes := routes s; subscriptions := subscriptions s;
     globalRateLimiters := globalRateLimiters s; sharedRateLimiters := sharedRateLimiters s;
     basicRouteRateLimiterFns := basicRouteRateLimiterFns s;
     paramRouteRateLimiterFns := m |}.

(** The limiter that the constructor creates for a declared global or
    shared limit: [creator({ ...limit, keyPrefix: `rl-${limit.name}` })]. *)
Definition declaredLimiter (c : RateLimiterOpts -> RateLimiterI)
    (limit : ServerRateLimitDescription) : RateLimiterI :=
  c {| keyPrefix := "rl-" +:+ srl_name limit;
       durationMs := srl_durationMs limit;
       points := srl_points limit;
       calcKey := srl_calcKey limit;
       calcPoints := srl_calcPoints limit |}.

(** [new Server(lexicons, opts)] *)
Definition createServer (lexicons : Lexicons) (opts : Options) : Server :=
  {| lex := lexicons;
     options := opts;
     routes := [];
     subscriptions := ∅;
     globalRateLimiters :=
       match rateLimits opts with
       | Some rl => map (declaredLimiter (creator rl)) (rlo_global rl)
       | None => []
       end;
     sharedRateLimiters :=
       match rateLimits opts with
       | Some rl =>
           foldl (fun t limit => tableSet (srl_name limit) (declaredLimiter (creator rl) limit) t)
             emptyTable (rlo_shared rl)
       | None => emptyTable
       end;
     basicRouteRateLimiterFns := ∅;
     paramRouteRateLimiterFns := ∅ |}.

(** ** Registration *)

Definition pushFn (nsid : string) (fn : RateLimiterConsume)
    (m : gmap string (list RateLimiterConsume)) : gmap string (list RateLimiterConsume) :=
  alter (fun fns => fns ++ [fn]) nsid m.

(** [if (calcKey === undefined && calcPoints === undefined) basic.push(fn)
     else param.push(fn)] *)
Definition pushRouteFn (nsid : string) (limit : HandlerRateLimitOpts)
    (fn : RateLimiterConsume) (s : Server) : Server :=
  if isBasicSpec limit
  then setBasicFns (pushFn nsid fn (basicRouteRateLimiterFns s)) s
  else setParamFns (pushFn nsid fn (paramRouteRateLimiterFns s)) s.

Definition specConsumeFn (nsid : string) (i : nat) (limit : HandlerRateLimitOpts)
    (rateLimiter : TableValue) : RateLimiterConsume :=
  {| cf_origin := OfSpec nsid i;
     cf_limiter := rateLimiter;
     cf_opts := {| co_calcKey := specCalcKey limit; co_calcPoints := specCalcPoints limit |} |}.

(** [this.options.rateLimits?.creator({ keyPrefix: `nsid-${i}`, ... })]:
    the limiter of the [i]-th spec, when it is a per-method spec;
    [None] is [undefined]. *)
Definition createLimiter (s : Server) (i : nat) (durationMs points : Z)
    (calcKey : option (XRPCReqContext -> string)) (calcPoints : option (XRPCReqContext -> Z))
    : option RateLimiterI :=
  match rateLimits (options s) with
  | Some rl =>
      Some (creator rl {| keyPrefix := "nsid-" +:+ pretty i;
                          durationMs := durationMs;
                          points := points;
                          calcKey := calcKey;
                          calcPoints := calcPoints |})
  | None => None
  end.

(** The body of the loop over [limits], at index [i]. A shared spec
    reads [this.sharedRateLimiters[limit.name]] and goes on with whatever
    truthy value it finds there; a per-method spec creates its limiter
    and files it in the same table under [nsid]. *)
Definition setupLimit (nsid : string) (i : nat) (limit : HandlerRateLimitOpts)
    (s : Server) : Server :=
  match limit with
  | SharedRateLimitOpts name _ _ =>
      match tableGet (sharedRateLimiters s) name with
      | Some rateLimiter =>
          pushRouteFn nsid limit (specConsumeFn nsid i limit rateLimiter) s
      | None => s
      end
  | RouteRateLimitOpts durationMs points calcKey calcPoints =>
      match createLimiter s i durationMs points calcKey calcPoints with
      | Some rateLimiter =>
          pushRouteFn nsid limit (specConsumeFn nsid i limit (ALimiter rateLimiter))
            (setShared (tableSet nsid rateLimiter (sharedRateLimiters s)) s)
      | None => s
      end
  end.

Fixpoint setupLimitsFrom (nsid : string) (i : nat) (limits : list HandlerRateLimitOpts)
    (s : Server) : Server :=
  match limits with
  | [] => s
  | limit :: rest => setupLimitsFrom nsid (S i) rest (setupLimit nsid i limit s)
  end.

Definition globalConsumeFns (s : Server) : list RateLimiterConsume :=
  imap (fun k limit => {| cf_origin := OfGlobal k; cf_limiter := ALimiter limit;
                          cf_opts := noOverride |})
    (globalRateLimiters s).

(** [setupRouteRateLimits(nsid, config)] *)
Definition setupRouteRateLimits (nsid : string) (config : XRPCHandlerConfig) (s : Server)
    : Server :=
  let s1 := setBasicFns (<[nsid := globalConsumeFns s]> (basicRouteRateLimiterFns s)) s in
  let s2 := setParamFns (<[nsid := []]> (paramRouteRateLimiterFns s1)) s1 in
  setupLimitsFrom nsid 0 (cfg_rateLimit config) s2.

(** [createHandler(nsid, def, routeCfg)]: what the returned closure
    captures at creation time. *)
Definition createHandler (s : Server) (nsid : string) (def : LexDef)
    (routeCfg : XRPCHandlerConfig) : RouteHandler :=
  {| h_nsid := nsid;
     h_def := def;
     h_cfg := routeCfg;
     h_blobLimit :=
       match cfg_blobLimit routeCfg with
       | Some b => Some b
       | None => opt_blobLimit (options s)
       end;
     h_validateResOutput :=
       match validateResponse (options s) with
       | Some false => false
       | _ => true
       end;
     h_basicRlFns := default [] (basicRouteRateLimiterFns s !! nsid);
     h_paramRlFns := default [] (paramRouteRateLimiterFns s !! nsid) |}.

(** [addRoute(nsid, def, config)]: the new layer goes after the layers
    already in [this.routes]. *)
Definition addRoute (nsid : string) (def : LexDef) (config : XRPCHandlerConfig)
    (s : Server) : Server :=
  let verb := if decide (def_type def = procedure) then post else get in
  let s' := setupRouteRateLimits nsid config s in
  setRoutes
    (routes s' ++ [{| rt_verb := verb; rt_nsid := nsid; rt_auth := cfg_auth config;
                      rt_handler := createHandler s' nsid def config |}])
    s'.

(** [addMethod(nsid, config)]; [inl] is the thrown configuration error. *)
Definition addMethod (nsid : string) (config : XRPCHandlerConfig) (s : Server)
    : string + Server :=
  match getDef (lex s) nsid with
  | Some def =>
      match def_type def with
      | query | procedure => inr (addRoute nsid def config s)
      | _ => inl ("Lex def for " +:+ nsid +:+ " is not a query or a procedure")
      end
  | None => inl ("Lex def for " +:+ nsid +:+ " is not a query or a procedure")
  end.

(** [addSubscription(nsid, def, config)]: [this.subscriptions.set]. *)
Definition addSubscription (nsid : string) (def : LexDef) (config : XRPCStreamHandlerConfig)
    (s : Server) : Server :=
  setSubscriptions
    (<[nsid := {| ss_nsid := nsid; ss_def := def; ss_cfg := config |}]> (subscriptions s)) s.

Definition addStreamMethod (nsid : string) (config : XRPCStreamHandlerConfig) (s : Server)
    : string + Server :=
  match getDef (lex s) nsid with
  | Some def =>
      match def_type def with
      | subscription => inr (addSubscription nsid def config s)
      | _ => inl ("Lex def for " +:+ nsid +:+ " is not a subscription")
      end
  | None => inl ("Lex def for " +:+ nsid +:+ " is not a subscription")
  end.

(** ** The request pipeline *)

(** The context that basic and global limiters see:
    [{ req, res, auth: undefined, params: {}, input: undefined }]. *)
Definition basicCtx (req : Request) : XRPCReqContext :=
  {| ctx_req := req; ctx_params := []; ctx_input := None; ctx_auth := None |}.

Definition incorrectMethod (method expected : string) : XRPCError :=
  InvalidRequestError ("Incorrect HTTP method (" +:+ method +:+ ") expected " +:+ expected).

(** [catchall(req, res, next)] *)
Definition catchall (s : Server) (req : Request) : Pipe Outcome :=
  (rlRes <- consumeMany (basicCtx req) (globalConsumeFns s) ;;
   match rlRes with
   | Raised err => ret (NextErr err)
   | Returned (Some e) => ret (NextErr (ThXrpc e))
   | Returned None =>
       match opt_catchall (options s) with
       | Some custom => emit EvCustomCatchall ;;; ret (custom req)
       | None =>
           emit (EvGetDef (req_methodId req)) ;;;
           match getDef (lex s) (req_methodId req) with
           | None => ret (NextErr (ThXrpc MethodNotImplementedError))
           | Some def =>
               emit (EvVerbCheck (req_methodId req)) ;;;
               if bool_decide (def_type def = query) && negb (String.eqb (req_method req) "GET")
               then ret (NextErr (ThXrpc (incorrectMethod (req_method req) "GET")))
               else if bool_decide (def_type def = procedure)
                       && negb (String.eqb (req_method req) "POST")
               then ret (NextErr (ThXrpc (incorrectMethod (req_method req) "POST")))
               else ret Next
           end
       end
   end)%pipe.

(** [setHeaders]: the headers whose value is not null. *)
Definition setHeaders (headers : list (string * option string)) : list (string * string) :=
  omap (fun h => match snd h with Some v => Some (fst h, v) | None => None end) headers.

(** Modelled from the spec: [validateInput] of [util.ts]; a body that
    mismatches the input schema is an InvalidRequest-class failure. *)
Definition validateInput (lx : Lexicons) (nsid : string) (req : Request)
    (blobLimit : option Z) : Thrown + option Input :=
  match lex_input lx nsid req blobLimit with
  | inl msg => inl (ThXrpc (InvalidRequestError msg))
  | inr input => inr input
  end.

(** Modelled from the spec: [validateOutput] of [util.ts]; a body that
    mismatches the output schema is raised as InternalServerError. *)
Definition validateOutput (lx : Lexicons) (nsid : string) (output : option HandlerSuccess)
    : option Thrown :=
  match lex_output lx nsid output with
  | Some msg => Some (ThXrpc (InternalServerErrorOf (Some msg)))
  | None => None
  end.

(** [validateResOutput?.(output)] *)
Definition validateResOutput (lx : Lexicons) (h : RouteHandler)
    (output : option HandlerSuccess) : Pipe (option Thrown) :=
  if h_validateResOutput h
  then (emit (EvValidateOutput (h_nsid h)) ;;; ret (validateOutput lx (h_nsid h) output))%pipe
  else ret None.

(** The last branch of the response encoding: an ordinary success with
    a body, as JSON or raw under its content type. *)
Definition encodeSuccess (o : HandlerSuccess) : Response :=
  if String.eqb (hs_encoding o) "application/json" || String.eqb (hs_encoding o) "json"
  then Ok200Json (hs_body o) (setHeaders (hs_headers o))
  else Ok200Raw (hs_encoding o) (hs_body o) (setHeaders (hs_headers o)).

(** The response-encoding branches after the handler returned. *)
Definition respond (lx : Lexicons) (h : RouteHandler) (output : HandlerOutput)
    : Pipe (Thrown + Outcome) :=
  match output with
  | OutVoid =>
      (v <- validateResOutput lx h None ;;
       match v with
       | Some t => ret (inl t)
       | None => ret (inr (Sent Ok200Empty))
       end)%pipe
  | OutPipeThroughStream encoding stream headers =>
      ret (inr (Sent (Ok200Raw encoding stream (setHeaders headers))))
  | OutPipeThroughBuffer encoding buffer headers =>
      ret (inr (Sent (Ok200Raw encoding buffer (setHeaders headers))))
  | OutError he =>
      ret (inr (NextErr (ThXrpc (fromError (ThHandlerError he)))))
  | OutSuccess o =>
      (v <- validateResOutput lx h (Some o) ;;
       match v with
       | Some t => ret (inl t)
       | None => ret (inr (Sent (encodeSuccess o)))
       end)%pipe
  end.

Definition isEmpty {A} (l : list A) : bool := match l with [] => true | _ => false end.

(** The closure of [createHandler] is embedded in three parts: the stages
    up to the handler call ([beforeHandler]), the call and the encoding of
    its result ([invoke], [respond]), and the [try]/[catch] around both
    ([handlerTry], [runHandler]). In [handlerTry], [inl] is a value thrown
    inside the [try] block and [inr] the way the block ended otherwise. *)
Definition beforeHandler (lx : Lexicons) (h : RouteHandler) (req : Request)
    (localsAuth : option Auth) : Pipe (Thrown + (Outcome + XRPCReqContext)) :=
  (result <- (if isEmpty (h_basicRlFns h) then ret (Returned None)
              else consumeMany (basicCtx req) (h_basicRlFns h)) ;;
   match result with
   | Raised t => ret (inl t)
   | Returned (Some e) => ret (inr (inl (NextErr (ThXrpc e))))
   | Returned None =>
       emit (EvDecodeParams (h_nsid h)) ;;;
       match lex_params lx (h_nsid h) (def_decode (h_def h) (req_query req)) with
       | inl e => ret (inl (ThXrpc (InvalidRequestError e)))
       | inr params =>
           emit (EvParamsValid (h_nsid h)) ;;;
           match validateInput lx (h_nsid h) req (h_blobLimit h) with
           | inl t => ret (inl t)
           | inr input =>
               emit (EvInputValid (h_nsid h)) ;;;
               let reqCtx := {| ctx_req := req; ctx_params := params;
                                ctx_input := input; ctx_auth := localsAuth |} in
               result <- (if isEmpty (h_paramRlFns h) then ret (Returned None)
                          else consumeMany reqCtx (h_paramRlFns h)) ;;
               match result with
               | Raised t => ret (inl t)
               | Returned (Some e) => ret (inr (inl (NextErr (ThXrpc e))))
               | Returned None => ret (inr (inr reqCtx))
               end
           end
       end
   end)%pipe.

(** [const output = await routeCfg.handler(reqCtx)] and what follows. *)
Definition invoke (lx : Lexicons) (h : RouteHandler) (reqCtx : XRPCReqContext)
    : Pipe (Thrown + Outcome) :=
  (emit (EvHandler (h_nsid h)) ;;;
   match cfg_handler (h_cfg h) reqCtx with
   | inl t => ret (inl t)
   | inr output => respond lx h output
   end)%pipe.

Definition handlerTry (lx : Lexicons) (h : RouteHandler) (req : Request)
    (localsAuth : option Auth) : Pipe (Thrown + Outcome) :=
  (r <- beforeHandler lx h req localsAuth ;;
   match r with
   | inl t => ret (inl t)
   | inr (inl o) => ret (inr o)
   | inr (inr reqCtx) => invoke lx h reqCtx
   end)%pipe.

(** The [catch] of the closure of [createHandler]: a falsy thrown value
    is replaced by an InternalServerError. *)
Definition catchThrown (r : Thrown + Outcome) : Outcome :=
  match r with
  | inr o => o
  | inl ThFalsy => NextErr (ThXrpc (InternalServerErrorOf None))
  | inl err => NextErr err
  end.

Definition runHandler (lx : Lexicons) (h : RouteHandler) (req : Request)
    (localsAuth : option Auth) : Pipe Outcome :=
  (r <- handlerTry lx h req localsAuth ;; ret (catchThrown r))%pipe.

(** [createAuthMiddleware(verifier)]: [inr a] continues with
    [locals.auth = a]. A falsy thrown value reaches [next] as no error. *)
Definition authMiddleware (nsid : string) (verifier : AuthVerifier) (req : Request)
    : Pipe (Thrown + option Auth) :=
  (emit (EvAuth nsid) ;;;
   ret match verifier req with
       | inr (AuthCredentials a) => inr (Some a)
       | inr (AuthError he) => inl (ThXrpc (fromHandlerError he))
       | inl ThFalsy => inr None
       | inl err => inl err
       end)%pipe.

(** [express.json] and [express.text], on a post route. *)
Definition bodyMiddleware (nsid : string) (req : Request) : Pipe (option Thrown) :=
  (emit (EvBodyIntake nsid) ;;; ret (ThXrpc <$> req_bodyError req))%pipe.

(** The stack of one route: locals, auth, body parsers, handler. *)
Definition runRoute (s : Server) (rt : Route) (req : Request) : Pipe Outcome :=
  (a <- match rt_auth rt with
        | Some verifier => authMiddleware (rt_nsid rt) verifier req
        | None => ret (inr None)
        end ;;
   match a with
   | inl err => ret (NextErr err)
   | inr localsAuth =>
       b <- (if decide (rt_verb rt = post) then bodyMiddleware (rt_nsid rt) req
             else ret None) ;;
       match b with
       | Some err => ret (NextErr err)
       | None => runHandler (lex s) (rt_handler rt) req localsAuth
       end
   end)%pipe.

(** Express's matching of a layer of [this.routes]: the path, and the
    verb ([get] layers also answer HEAD). *)
Definition routeMatches (rt : Route) (req : Request) : bool :=
  String.eqb (rt_nsid rt) (req_methodId req)
  && match rt_verb rt with
     | get => String.eqb (req_method req) "GET" || String.eqb (req_method req) "HEAD"
     | post => String.eqb (req_method req) "POST"
     end.

(** Express goes on with the next layer after [next()], and after
    [next(err)] with a falsy [err], which it does not tell from
    [next()]. *)
Definition passes (o : Outcome) : bool :=
  match o with
  | Next | NextErr ThFalsy => true
  | _ => false
  end.

(** Express's walk through [this.routes]: layers in registration order;
    a layer that matches runs, and only [next()] moves on. *)
Fixpoint runRoutes (s : Server) (rts : list Route) (req : Request) : Pipe Outcome :=
  match rts with
  | [] => ret Next
  | rt :: rest =>
      if routeMatches rt req
      then (o <- runRoute s rt req ;;
            if passes o then runRoutes s rest req else ret o)%pipe
      else runRoutes s rest req
  end.

(** [errorMiddleware], before any header was sent. *)
Definition errorMiddleware (err : Thrown) : Response :=
  let xrpcError := fromError err in
  ErrorResponse (xe_type xrpcError) (payload xrpcError).

(** [this.router]: [use(this.routes)], then [use('/xrpc/:methodId',
    catchall)], then [use(errorMiddleware)]; [next(err)] skips to the
    error middleware, unless [err] is falsy: then the error middleware is
    skipped like after [next()], and nothing of this router answers. *)
Definition finish (o : Outcome) : Response :=
  match o with
  | Next | NextErr ThFalsy => Unhandled
  | NextErr err => errorMiddleware err
  | Sent r => r
  end.

Definition handleRequest (s : Server) (req : Request) : Pipe Response :=
  (o <- runRoutes s (routes s) req ;;
   o' <- (if passes o then catchall s req else ret o) ;;
   ret (finish o'))%pipe.

(** ** Subscriptions *)

(** [String.prototype.split] on one separator character. *)
Fixpoint split (sep : ascii) (s : string) : list string :=
  match s with
  | EmptyString => [""]
  | String c rest =>
      if Ascii.eqb c sep then "" :: split sep rest
      else match split sep rest with
           | hd :: tl => String c hd :: tl
           | [] => [String c ""]
           end
  end.

Definition hash : ascii := "#"%char.

(** The type tag of a typed map yielded under [nsid]. *)
Definition localType (nsid type : string) : string :=
  match split hash type with
  | [ns; name] =>
      if String.eqb ns "" || String.eqb ns nsid then "#" +:+ name else type
  | _ => type
  end.

(** The body of the [for await] loop: the frame yielded for one item. *)
Definition frameOfItem (nsid : string) (item : Item) : Frame :=
  match item with
  | ItemFrame f => f
  | ItemValue (VObj fields) =>
      match fields !! "$type" with
      | Some (VStr type) =>
          MessageFrame (VObj (delete "$type" fields)) (Some (localType nsid type))
      | _ => MessageFrame (VObj fields) None
      end
  | ItemValue v => MessageFrame v None
  end.

(** The [catch] of the generator. *)
Definition errorFrameOf (err : Thrown) : Frame :=
  let xrpcErrPayload := payload (fromError err) in
  ErrorFrame (default "Unknown" (p_error xrpcErrPayload)) (p_message xrpcErrPayload).

(** [const auth = await config.auth?.({ req })], with the [throw] on a
    declared error. *)
Definition streamAuth (ss : XrpcStreamServer) (req : Request) : Thrown + option Auth :=
  match scfg_auth (ss_cfg ss) with
  | None => inr None
  | Some verifier =>
      match verifier req with
      | inl t => inl t
      | inr (AuthError he) => inl (ThXrpc (fromHandlerError he))
      | inr (AuthCredentials a) => inr (Some a)
      end
  end.

(** The [try] block of the generator: the frames it yields, and the value
    thrown inside it, if any. *)
Definition streamTry (lx : Lexicons) (ss : XrpcStreamServer) (req : Request)
    : list Frame * option Thrown :=
  match streamAuth ss req with
  | inl t => ([], Some t)
  | inr auth =>
      match lex_params lx (ss_nsid ss) (def_decode (ss_def ss) (req_query req)) with
      | inl e => ([], Some (ThXrpc (InvalidRequestError e)))
      | inr params =>
          let run := scfg_handler (ss_cfg ss)
                       {| sctx_req := req; sctx_params := params; sctx_auth := auth |} in
          (map (frameOfItem (ss_nsid ss)) (fst run), snd run)
      end
  end.

(** The frames of one connection, as the generator of [addSubscription]
    yields them. *)
Definition streamFrames (lx : Lexicons) (ss : XrpcStreamServer) (req : Request) : list Frame :=
  let r := streamTry lx ss req in
  fst r ++ match snd r with
           | Some err => [errorFrameOf err]
           | None => []
           end.

(** The upgrade hook of [enableStreamingOnListen]: [None] is a destroyed
    socket. *)
Definition upgrade (s : Server) (req : Request) : option (list Frame) :=
  match subscriptions s !! req_methodId req with
  | Some ss => Some (streamFrames (lex s) ss req)
  | None => None
  end.

(** ** Vocabulary of the statements *)

(** The consume function behind a debit event. *)
Definition eventOrigin (e : Event) : option Origin :=
  match e with
  | EvConsume o _ _ _ => Some o
  | _ => None
  end.

(** How many times the consume function built at [o] ran in a trace. *)
Definition timesConsumed (o : Origin) (tr : list Event) : nat :=
  length (filter (fun e => eventOrigin e = Some o) tr).

Definition validationEvents (nsid : string) : list Event :=
  [EvDecodeParams nsid; EvParamsValid nsid; EvInputValid nsid].

(** [tr] is the debits of a prefix of the pool [fns], in order, and of
    the whole pool when [full] holds. *)
Definition consumesOf (fns : list RateLimiterConsume) (full : Prop) (tr : list Event) : Prop :=
  exists n, map eventOrigin tr = map Some (take n (map cf_origin fns))
            /\ (full -> map eventOrigin tr = map Some (map cf_origin fns)).

(** A spec whose limiter exists whatever was registered before: a shared
    spec whose name is in the table of [s], a per-method spec on a server
    with a creator. *)
Definition resolvable (s : Server) (l : HandlerRateLimitOpts) : Prop :=
  match l with
  | SharedRateLimitOpts name _ _ => is_Some (sharedRateLimiters s !! name)
  | RouteRateLimitOpts _ _ _ _ => is_Some (rateLimits (options s))
  end.

(** The value [v] that a consume function for the spec [l] can be built
    on while [nsid] is being registered on [s]: for a shared spec, what
    the table of [s] gives under its name - unless the name is [nsid],
    or [nsid] is [__proto__], for the registration writes the table under
    [nsid] as it goes; for a per-method spec, a limiter. *)
Definition mayResolve (s : Server) (nsid : string) (l : HandlerRateLimitOpts)
    (v : TableValue) : Prop :=
  match l with
  | SharedRateLimitOpts name _ _ =>
      name = nsid \/ nsid = "__proto__" \/ tableGet (sharedRateLimiters s) name = Some v
  | RouteRateLimitOpts _ _ _ _ => exists rl, v = ALimiter rl
  end.

(** What holds of a consume function in the basic ([basic = true]) or
    parametric pool of [nsid] once the specs below [bound] are set up. *)
Definition originOK (nsid : string) (limits : list HandlerRateLimitOpts) (s0 : Server)
    (basic : bool) (bound : nat) (fn : RateLimiterConsume) : Prop :=
  match cf_origin fn with
  | OfGlobal _ => basic = true
  | OfSpec n j =>
      n = nsid /\ j < bound
      /\ exists l, limits !! j = Some l /\ isBasicSpec l = basic
                   /\ mayResolve s0 nsid l (cf_limiter fn)
  end.

(** The loop invariant of [setupRouteRateLimits], from server [s0], after
    the specs below [bound]. *)
Record SetupInv (nsid : string) (limits : list HandlerRateLimitOpts) (s0 s : Server)
    (bound : nat) : Prop := {
  inv_options : options s = options s0;
  inv_shared : forall name, is_Some (sharedRateLimiters s0 !! name) ->
                            is_Some (sharedRateLimiters s !! name);
  inv_table : forall name, name <> nsid -> nsid <> "__proto__" ->
                           tableGet (sharedRateLimiters s) name
                           = tableGet (sharedRateLimiters s0) name;
  inv_basic : Forall (originOK nsid limits s0 true bound)
                (default [] (basicRouteRateLimiterFns s !! nsid));
  inv_param : Forall (originOK nsid limits s0 false bound)
                (default [] (paramRouteRateLimiterFns s !! nsid));
  inv_basic_nodup : NoDup (map cf_origin (default [] (basicRouteRateLimiterFns s !! nsid)));
  inv_param_nodup : NoDup (map cf_origin (default [] (paramRouteRateLimiterFns s !! nsid)));
  inv_present : is_Some (basicRouteRateLimiterFns s !! nsid)
                /\ is_Some (paramRouteRateLimiterFns s !! nsid);
  inv_globals : exists rest, default [] (basicRouteRateLimiterFns s !! nsid)
                             = globalConsumeFns s0 ++ rest;
  inv_installed : forall j l, j < bound -> limits !! j = Some l -> resolvable s0 l ->
    exists fn, cf_origin fn = OfSpec nsid j /\
      fn ∈ (if isBasicSpec l then default [] (basicRouteRateLimiterFns s !! nsid)
            else default [] (paramRouteRateLimiterFns s !! nsid));
}.

(** Servers built by the constructor and the registration methods. *)
Inductive Reachable : Server -> Prop :=
| reach_create lexicons opts : Reachable (createServer lexicons opts)
| reach_method s nsid config s' :
    Reachable s -> addMethod nsid config s = inr s' -> Reachable s'
| reach_stream s nsid config s' :
    Reachable s -> addStreamMethod nsid config s = inr s' -> Reachable s'.

(** The verb under which the router files a definition of this kind. *)
Definition verbOf (def : LexDef) : Verb :=
  if decide (def_type def = procedure) then post else get.

(** Every layer of the router is filed under the verb of its definition. *)
Definition routesFiled (s : Server) : Prop :=
  Forall (fun rt => exists def, getDef (lex s) (rt_nsid rt) = Some def
                                /\ rt_verb rt = verbOf def) (routes s).

(** The layer of the router that serves a request: the first that
    matches. *)
Definition firstMatch (s : Server) (req : Request) : option Route :=
  List.find (fun rt => routeMatches rt req) (routes s).

(** The verifier stops the request: it raises (a value that is not
    falsy) or returns a declared error. *)
Definition authRejects (verifier : AuthVerifier) (req : Request) : Prop :=
  match verifier req with
  | inl ThFalsy => False
  | inl _ => True
  | inr (AuthError _) => True
  | inr (AuthCredentials _) => False
  end.

(** The pools of a handler of server [s]: no consume function twice, the
    global ones first in the basic pool, in their order, and none in the
    parametric pool. *)
Definition poolsOK (s : Server) (h : RouteHandler) : Prop :=
  NoDup (map cf_origin (h_basicRlFns h))
  /\ NoDup (map cf_origin (h_paramRlFns h))
  /\ (forall fn k, fn ∈ h_paramRlFns h -> cf_origin fn <> OfGlobal k)
  /\ (exists rest, h_basicRlFns h = globalConsumeFns s ++ rest).

(** How a connection went, stage by stage: the items the handler yielded
    (none when it was never called) and the error raised, if any. *)
Inductive StreamOutcome (lx : Lexicons) (ss : XrpcStreamServer) (req : Request)
    : list Item -> option Thrown -> Prop :=
| so_auth_raised t :
    streamAuth ss req = inl t ->
    StreamOutcome lx ss req [] (Some t)
| so_params_rejected auth msg :
    streamAuth ss req = inr auth ->
    lex_params lx (ss_nsid ss) (def_decode (ss_def ss) (req_query req)) = inl msg ->
    StreamOutcome lx ss req [] (Some (ThXrpc (InvalidRequestError msg)))
| so_handler_ran auth params items fin :
    streamAuth ss req = inr auth ->
    lex_params lx (ss_nsid ss) (def_decode (ss_def ss) (req_query req)) = inr params ->
    scfg_handler (ss_cfg ss)
      {| sctx_req := req; sctx_params := params; sctx_auth := auth |} = (items, fin) ->
    StreamOutcome lx ss req items fin.

Definition isErrorItem (it : Item) : bool :=
  match it with
  | ItemFrame f => isErrorFrame f
  | ItemValue _ => false
  end.

Definition errorFrames (fs : list Frame) : nat := length (filter (fun f => isErrorFrame f = true) fs).
Definition errorItems (its : list Item) : nat := length (filter (fun it => isErrorItem it = true) its).

(** [s] has no ['#']. *)
Fixpoint noHash (s : string) : bool :=
  match s with
  | EmptyString => true
  | String c rest => negb (Ascii.eqb c hash) && noHash rest
  end.

(** A declared type in the namespace of [nsid]: [nsid#name] or [#name]. *)
Definition inNamespace (nsid type : string) : Prop :=
  exists name, noHash name = true /\ (type = nsid +:+ "#" +:+ name \/ type = "#" +:+ name).

(** The handler that raises [mk he] wherever [f] returns the declared
    error [he], and is [f] otherwise. *)
Definition raising (mk : HandlerError -> Thrown) (f : XRPCHandler) : XRPCHandler :=
  fun ctx =>
    match f ctx with
    | inr (OutError he) => inl (mk he)
    | r => r
    end.

Definition withHandler (f : XRPCHandler) (h : RouteHandler) : RouteHandler :=
  {| h_nsid := h_nsid h; h_def := h_def h;
     h_cfg := {| cfg_handler := f; cfg_auth := cfg_auth (h_cfg h);
                 cfg_rateLimit := cfg_rateLimit (h_cfg h);
                 cfg_blobLimit := cfg_blobLimit (h_cfg h) |};
     h_blobLimit := h_blobLimit h; h_validateResOutput := h_validateResOutput h;
     h_basicRlFns := h_basicRlFns h; h_paramRlFns := h_paramRlFns h |}.

(** Whether the stages before the handler call ended with a context for
    it. *)
Definition reachesHandler (v : Thrown + (Outcome + XRPCReqContext)) : Prop :=
  exists ctx, v = inr (inr ctx).

(** ** Concrete servers *)

Module Examples.

Definition plainDef (t : LexDefType) : LexDef := {| def_type := t; def_decode := fun p => p |}.

(** Two queries, a procedure and a subscription; parameters and input
    always validate, and an output validates unless its body is
    ["{}"]. *)
Definition lexicons : Lexicons :=
  {| lex_defs := {[ "io.example.ping" := plainDef query;
                    "io.example.pong" := plainDef query;
                    "io.example.post" := plainDef procedure;
                    "io.example.stream" := plainDef subscription ]};
     lex_params := fun _ p => inr p;
     lex_input := fun _ _ _ => inr None;
     lex_output := fun _ o =>
       match o with
       | Some out => if String.eqb (hs_body out) "{}"
                     then Some "Output must have the property message"
                     else None
       | None => None
       end |}.

Definition limitOf (name : string) (points : Z) : ServerRateLimitDescription :=
  {| srl_name := name; srl_durationMs := 60000; srl_points := points;
     srl_calcKey := None; srl_calcPoints := None |}.

Definition optionsWith (validate : option bool)
    (global shared : list ServerRateLimitDescription) : Options :=
  {| validateResponse := validate; opt_catchall := None; opt_blobLimit := None;
     rateLimits := Some {| creator := storeBacked; rlo_global := global;
                           rlo_shared := shared |} |}.

(** Options with a custom catch-all that answers every request it
    gets. *)
Definition proxying : Options :=
  {| validateResponse := None;
     opt_catchall := Some (fun _ => Sent (CustomResponse "proxied"));
     opt_blobLimit := None;
     rateLimits := None |}.

Definition json (body : string) : HandlerOutput :=
  OutSuccess {| hs_encoding := "application/json"; hs_body := body; hs_headers := [] |}.

Definition answering (out : HandlerOutput) : XRPCHandler := fun _ => inr out.

Definition configOf (f : XRPCHandler) (auth : option AuthVerifier)
    (limits : list HandlerRateLimitOpts) : XRPCHandlerConfig :=
  {| cfg_handler := f; cfg_auth := auth; cfg_rateLimit := limits; cfg_blobLimit := None |}.

Definition request (method methodId : string) : Request :=
  {| req_method := method; req_methodId := methodId; req_ip := "203.0.113.7";
     req_query := []; req_body := ""; req_bodyError := None |}.

(** [server.method(nsid, config)] on a server where it does not throw. *)
Definition method (nsid : string) (config : XRPCHandlerConfig) (s : Server) : Server :=
  match addMethod nsid config s with
  | inr s' => s'
  | inl _ => s
  end.

Definition streamMethod (nsid : string) (config : XRPCStreamHandlerConfig) (s : Server)
    : Server :=
  match addStreamMethod nsid config s with
  | inr s' => s'
  | inl _ => s
  end.

Definition rejectingAuth : AuthVerifier :=
  fun _ => inl (ThXrpc {| xe_type := AuthRequired; xe_message := Some "Bad token";
                          xe_name := None |}).

Definition byDid : XRPCReqContext -> string := fun ctx => default "anonymous" (ctx_auth ctx).

(** A subscription under [io.example.stream] whose handler runs as
    [run], without auth. *)
Definition streamOf (run : HandlerRun) : XrpcStreamServer :=
  {| ss_nsid := "io.example.stream"; ss_def := plainDef subscription;
     ss_cfg := {| scfg_handler := fun _ => run; scfg_auth := None |} |}.

Definition tooSlow : Frame := ErrorFrame "ConsumerTooSlow" None.

End Examples.

(** ** Vocabulary of the further properties *)

(** The stack of a route behind its authentication middleware, run with
    [locals.auth = localsAuth]: the body parsers of a post route, then
    the handler. *)
Definition afterAuth (s : Server) (rt : Route) (req : Request) (localsAuth : option Auth)
    : Pipe Outcome :=
  (b <- (if decide (rt_verb rt = post) then bodyMiddleware (rt_nsid rt) req
         else ret None) ;;
   match b with
   | Some err => ret (NextErr err)
   | None => runHandler (lex s) (rt_handler rt) req localsAuth
   end)%pipe.

(** A response that a route gives: status 200, or an error. *)
Definition answeredByRoute (r : Response) : Prop :=
  match r with
  | Ok200Empty | Ok200Json _ _ | Ok200Raw _ _ _ | ErrorResponse _ _ => True
  | CustomResponse _ | Unhandled => False
  end.

(** No limiter was consulted: no debit in the trace. *)
Definition noDebit (tr : list Event) : Prop :=
  forall e, e ∈ tr -> eventOrigin e = None.

(** The run [r] after the events [pre]. *)
Definition prefixed {A} (pre : list Event) (r : list Event * Store * A)
    : list Event * Store * A :=
  (pre ++ traceOf r, storeOf r, valueOf r).

(** A computation that changes a row of the store only by an allowed
    debit of that row. *)
Definition Framed {A} (m : Pipe A) : Prop :=
  forall st row, storeOf (m st) !! row <> st !! row ->
    exists o cost, EvConsume o row cost true ∈ traceOf (m st).

(** [s'] is [s] after further registrations. *)
Inductive Extends (s : Server) : Server -> Prop :=
| ext_refl : Extends s s
| ext_method s1 nsid config s2 :
    Extends s s1 -> addMethod nsid config s1 = inr s2 -> Extends s s2
| ext_stream s1 nsid config s2 :
    Extends s s1 -> addStreamMethod nsid config s1 = inr s2 -> Extends s s2.

Module Scenarios.

(** A schema that wants the parameter [message] and, for a procedure, a
    body that is not empty. *)
Definition strict : Lexicons :=
  {| lex_defs := lex_defs Examples.lexicons;
     lex_params := fun _ p =>
       if existsb (fun kv => String.eqb (fst kv) "message") p then inr p
       else inl "Error: Params must have the property message";
     lex_input := fun _ req _ =>
       if String.eqb (req_body req) "" then inl "A request body is expected"
       else inr (Some {| in_encoding := "application/json"; in_body := req_body req |});
     lex_output := fun _ _ => None |}.

Definition withQuery (q : Params) (req : Request) : Request :=
  {| req_method := req_method req; req_methodId := req_methodId req; req_ip := req_ip req;
     req_query := q; req_body := req_body req; req_bodyError := req_bodyError req |}.

Definition withBody (body : string) (err : option XRPCError) (req : Request) : Request :=
  {| req_method := req_method req; req_methodId := req_methodId req; req_ip := req_ip req;
     req_query := req_query req; req_body := body; req_bodyError := err |}.

Definition credentials (did : string) : AuthVerifier := fun _ => inr (AuthCredentials did).

End Scenarios.

Import Examples.

(** * Facts *)

(** ** The trace-and-store monad *)

Section PipeFacts.
Context {A B : Type}.
Implicit Types (m : Pipe A) (k : A -> Pipe B).

Lemma bind_trace m k st :
  traceOf (bind m k st) = traceOf (m st) ++ traceOf (k (valueOf (m st)) (storeOf (m st))).
Proof.
  unfold bind, traceOf, valueOf, storeOf.
  destruct (m st) as [[t1 st1] a]; simpl.
  destruct (k a st1) as [[t2 st2] b]; reflexivity.
Qed.

Lemma bind_value m k st :
  valueOf (bind m k st) = valueOf (k (valueOf (m st)) (storeOf (m st))).
Proof.
  unfold bind, traceOf, valueOf, storeOf.
  destruct (m st) as [[t1 st1] a]; simpl.
  destruct (k a st1) as [[t2 st2] b]; reflexivity.
Qed.

Lemma bind_store m k st :
  storeOf (bind m k st) = storeOf (k (valueOf (m st)) (storeOf (m st))).
Proof.
  unfold bind, traceOf, valueOf, storeOf.
  destruct (m st) as [[t1 st1] a]; simpl.
  destruct (k a st1) as [[t2 st2] b]; reflexivity.
Qed.
End PipeFacts.

Lemma emit_trace e st : traceOf (emit e st) = [e].
Proof. reflexivity. Qed.

Lemma ret_trace {A} (a : A) st : traceOf (ret a st) = [].
Proof. reflexivity. Qed.

Lemma ret_value {A} (a : A) st : valueOf (ret a st) = a.
Proof. reflexivity. Qed.

(** ** Lists of events *)

Lemma split_in_app {A} (pre : list A) e post l1 l2 :
  pre ++ e :: post = l1 ++ l2 ->
  (exists l, l1 = pre ++ e :: l /\ post = l ++ l2)
  \/ (exists l, pre = l1 ++ l /\ l2 = l ++ e :: post).
Proof.
  revert l1. induction pre as [|x pre IH]; intros l1 H.
  - destruct l1 as [|y l1]; simpl in *.
    + right. exists []. by subst.
    + left. injection H as -> ->. by exists l1.
  - destruct l1 as [|y l1]; simpl in *.
    + right. exists (x :: pre). by subst.
    + injection H as -> H. destruct (IH _ H) as [(l & -> & ->)|(l & -> & ->)].
      * left. by exists l.
      * right. by exists l.
Qed.

Lemma timesConsumed_app o t1 t2 :
  timesConsumed o (t1 ++ t2) = timesConsumed o t1 + timesConsumed o t2.
Proof. unfold timesConsumed. by rewrite filter_app, length_app. Qed.

Lemma timesConsumed_origins o tr os :
  map eventOrigin tr = map Some os ->
  timesConsumed o tr = length (filter (fun o' => o' = o) os).
Proof.
  revert os. induction tr as [|e tr IH]; intros [|o' os] H; try done.
  simpl in H. injection H as He H. unfold timesConsumed in *.
  rewrite !filter_cons. specialize (IH _ H).
  destruct (decide (eventOrigin e = Some o)) as [Heq|Hne];
    destruct (decide (o' = o)) as [Ho|Ho]; simpl; congruence.
Qed.

Lemma filter_absent (o : Origin) os : o ∉ os -> filter (fun o' => o' = o) os = [].
Proof.
  induction os as [|x os IH]; [done|]. intros Hn. rewrite filter_cons.
  apply not_elem_of_cons in Hn as [Hx Hos].
  destruct (decide (x = o)); [congruence|]. by apply IH.
Qed.

Lemma filter_once (o : Origin) os :
  NoDup os -> o ∈ os -> length (filter (fun o' => o' = o) os) = 1.
Proof.
  induction 1 as [|x os Hx Hnd IH]; intros Hin; [by apply elem_of_nil in Hin|].
  rewrite filter_cons. destruct (decide (x = o)) as [->|Hne]; simpl.
  - by rewrite filter_absent.
  - apply IH. apply elem_of_cons in Hin as [->|Hin]; [congruence|done].
Qed.

Lemma filter_at_most_once (o : Origin) os :
  NoDup os -> length (filter (fun o' => o' = o) os) <= 1.
Proof.
  intros Hnd. destruct (decide (o ∈ os)) as [Hin|Hout].
  - by rewrite filter_once.
  - rewrite filter_absent by done. simpl. lia.
Qed.

Lemma timesConsumed_silent o tr :
  (forall e, e ∈ tr -> eventOrigin e = None) -> timesConsumed o tr = 0.
Proof.
  unfold timesConsumed. induction tr as [|e tr IH]; intros H; [done|].
  rewrite filter_cons. destruct (decide _) as [He|_].
  - rewrite H in He; [done|]. by left.
  - apply IH. intros e' He'. apply H. by right.
Qed.

(** ** [consumeMany] *)

(** A call that answers logs its debit; a call that raises logs
    nothing. *)
Lemma runConsume_trace fn ctx st :
  match valueOf (runConsume fn ctx st) with
  | inr _ => map eventOrigin (traceOf (runConsume fn ctx st)) = [Some (cf_origin fn)]
  | inl _ => traceOf (runConsume fn ctx st) = []
  end.
Proof.
  unfold runConsume, traceOf, valueOf. destruct (cf_limiter fn) as [rl|]; [|done].
  by destruct (consume _ _ _ _) as [r st'].
Qed.

Lemma consumeMany_trace ctx fns st :
  exists n, n <= length fns /\
    map eventOrigin (traceOf (consumeMany ctx fns st)) = map Some (take n (map cf_origin fns)) /\
    (valueOf (consumeMany ctx fns st) = None -> n = length fns).
Proof.
  revert st. induction fns as [|fn fns IH]; intros st.
  - exists 0. simpl. auto.
  - cbn [consumeMany]. pose proof (runConsume_trace fn ctx st) as Hrt.
    destruct (valueOf (runConsume fn ctx st)) as [t|[rem|]] eqn:Hr.
    + exists 0. rewrite bind_trace, bind_value, Hr, Hrt.
      simpl. split; [lia|]. split; [done|]. discriminate.
    + destruct (IH (storeOf (runConsume fn ctx st))) as (n & Hn & Ht & Hv).
      exists (S n). rewrite bind_trace, bind_value, Hr, map_app, Hrt, Ht.
      simpl. split; [lia|]. split; [done|]. intros H. f_equal. auto.
    + exists 1. rewrite bind_trace, bind_value, Hr, map_app, Hrt.
      simpl. split; [lia|]. split; [done|]. discriminate.
Qed.

Lemma guarded_consumeMany ctx fns :
  (if isEmpty fns then ret (Returned None) else consumeMany ctx fns) = consumeMany ctx fns.
Proof. destruct fns; reflexivity. Qed.

Lemma consumeMany_consumesOf ctx fns st (full : Prop) :
  (full -> valueOf (consumeMany ctx fns st) = None) ->
  consumesOf fns full (traceOf (consumeMany ctx fns st)).
Proof.
  intros Hf. destruct (consumeMany_trace ctx fns st) as (n & Hn & Ht & Hv).
  exists n. split; [done|]. intros F. rewrite Ht, (Hv (Hf F)).
  by rewrite <- (length_map cf_origin), firstn_all.
Qed.

Lemma consumesOf_origin fns P tr e :
  consumesOf fns P tr -> e ∈ tr -> exists fn, fn ∈ fns /\ eventOrigin e = Some (cf_origin fn).
Proof.
  intros (n & Hn & _) He.
  assert (Hin : eventOrigin e ∈ map eventOrigin tr) by (apply list_elem_of_fmap; eauto).
  rewrite Hn in Hin. apply list_elem_of_fmap in Hin as (o & Ho & Hin).
  apply elem_of_take in Hin as (j & Hj & _).
  apply list_elem_of_lookup_2 in Hj. apply list_elem_of_fmap in Hj as (fn & -> & Hfn).
  eauto.
Qed.

Lemma count_full fns tr o :
  map eventOrigin tr = map Some (map cf_origin fns) ->
  NoDup (map cf_origin fns) ->
  (exists fn, cf_origin fn = o /\ fn ∈ fns) ->
  timesConsumed o tr = 1.
Proof.
  intros Ht Hnd (fn & Ho & Hfn). rewrite (timesConsumed_origins _ _ _ Ht).
  apply filter_once; [done|]. apply list_elem_of_fmap. eauto.
Qed.

Lemma count_absent fns P tr o :
  consumesOf fns P tr -> (forall fn, fn ∈ fns -> cf_origin fn <> o) ->
  timesConsumed o tr = 0.
Proof.
  intros (n & Ht & _) Habs. rewrite (timesConsumed_origins _ _ _ Ht).
  rewrite filter_absent; [done|]. intros Hin.
  apply elem_of_take in Hin as (j & Hj & _). apply list_elem_of_lookup_2 in Hj.
  apply list_elem_of_fmap in Hj as (fn & Ho & Hfn). by apply (Habs fn).
Qed.

Lemma count_at_most_once fns P tr o :
  consumesOf fns P tr -> NoDup (map cf_origin fns) -> timesConsumed o tr <= 1.
Proof.
  intros (n & Ht & _) Hnd. rewrite (timesConsumed_origins _ _ _ Ht).
  apply filter_at_most_once. eapply sublist_NoDup; [exact Hnd|apply sublist_take].
Qed.

(** ** The table of shared limiters *)

Lemma tableGet_set_eq name rl t : tableGet (tableSet name rl t) name = Some (ALimiter rl).
Proof.
  unfold tableGet, tableSet. destruct (String.eqb name "__proto__") eqn:Hp; simpl.
  - done.
  - by rewrite lookup_insert_eq.
Qed.

Lemma tableGet_set_ne name name' rl t :
  name' <> name -> name <> "__proto__" ->
  tableGet (tableSet name rl t) name' = tableGet t name'.
Proof.
  intros Hne Hp. unfold tableGet, tableSet. apply String.eqb_neq in Hp. rewrite Hp. simpl.
  destruct (String.eqb name' "__proto__"); [done|]. by rewrite lookup_insert_ne.
Qed.

Lemma table_lookup_get (t : LimiterTable) name rl :
  t !! name = Some rl <-> tableGet t name = Some (ALimiter rl).
Proof.
  unfold lookup, table_lookup. destruct (tableGet t name) as [[rl'|]|]; split; congruence.
Qed.

Lemma table_lookup_set_eq name rl t : tableSet name rl t !! name = Some rl.
Proof. apply table_lookup_get, tableGet_set_eq. Qed.

(** Under another name, the limiter found is the same after a write,
    whatever the name written. *)
Lemma table_lookup_set_ne name name' rl t :
  name' <> name -> tableSet name rl t !! name' = t !! name'.
Proof.
  intros Hne. unfold lookup, table_lookup, tableGet, tableSet.
  destruct (String.eqb name "__proto__") eqn:Hp; simpl.
  - apply String.eqb_eq in Hp. subst name. apply String.eqb_neq in Hne. rewrite Hne.
    destruct (tbl_own t !! name'); [done|]. by repeat destruct (_ || _).
  - destruct (String.eqb name' "__proto__"); [done|]. by rewrite lookup_insert_ne.
Qed.

Lemma table_lookup_empty name : emptyTable !! name = None.
Proof.
  unfold lookup, table_lookup, tableGet, emptyTable. simpl.
  destruct (String.eqb name "__proto__"); [done|]. rewrite lookup_empty.
  by destruct (_ || _).
Qed.

(** ** [setupRouteRateLimits] *)

(** The code's test and the shape of the spec. *)
Lemma isBasicSpec_true l :
  isBasicSpec l = true <-> specCalcKey l = None /\ specCalcPoints l = None.
Proof. unfold isBasicSpec. destruct (specCalcKey l), (specCalcPoints l); naive_solver. Qed.

Lemma isBasicSpec_false l :
  isBasicSpec l = false <-> is_Some (specCalcKey l) \/ is_Some (specCalcPoints l).
Proof.
  unfold isBasicSpec. destruct (specCalcKey l), (specCalcPoints l); split; try done; eauto.
  intros [[? ?]|[? ?]]; done.
Qed.

Section Setup.
Variable nsid : string.
Variable limits : list HandlerRateLimitOpts.
Variable s0 : Server.

Lemma originOK_mono basic b b' fn :
  b <= b' -> originOK nsid limits s0 basic b fn -> originOK nsid limits s0 basic b' fn.
Proof.
  unfold originOK. destruct (cf_origin fn); [done|].
  intros ? (? & ? & ?). repeat split; [done|lia|done].
Qed.

Lemma pushFn_lookup fn (m : gmap string (list RateLimiterConsume)) fns :
  m !! nsid = Some fns -> pushFn nsid fn m !! nsid = Some (fns ++ [fn]).
Proof. intros H. unfold pushFn. rewrite lookup_alter_eq, H. done. Qed.

Lemma fresh_origin basic i fns :
  Forall (originOK nsid limits s0 basic i) fns -> OfSpec nsid i ∉ map cf_origin fns.
Proof.
  intros HF Hin. apply list_elem_of_fmap in Hin as (fn & Heq & Hfn).
  rewrite Forall_forall in HF. specialize (HF fn Hfn). unfold originOK in HF.
  rewrite <- Heq in HF. destruct HF as (_ & ? & _). lia.
Qed.

Lemma SetupInv_push s i limit v (shared' : LimiterTable) :
  limits !! i = Some limit ->
  mayResolve s0 nsid limit v ->
  (forall name, is_Some (sharedRateLimiters s !! name) -> is_Some (shared' !! name)) ->
  (forall name, name <> nsid -> nsid <> "__proto__" ->
                tableGet shared' name = tableGet (sharedRateLimiters s) name) ->
  SetupInv nsid limits s0 s i ->
  SetupInv nsid limits s0
    (pushRouteFn nsid limit (specConsumeFn nsid i limit v) (setShared shared' s)) (S i).
Proof.
  intros Hl Hmay Hsh Htb [Ho Hs Ht Hb Hp Hbn Hpn [[bf Hbf] [pf Hpf]] Hg Hinst].
  rewrite Hbf, Hpf in *. simpl in *.
  assert (Hb' : Forall (originOK nsid limits s0 true (S i)) bf)
    by (eapply Forall_impl; [exact Hb|]; intros; eapply originOK_mono; [|eassumption]; lia).
  assert (Hp' : Forall (originOK nsid limits s0 false (S i)) pf)
    by (eapply Forall_impl; [exact Hp|]; intros; eapply originOK_mono; [|eassumption]; lia).
  assert (Hnew : forall b, isBasicSpec limit = b ->
            originOK nsid limits s0 b (S i) (specConsumeFn nsid i limit v)).
  { intros b Hbs. unfold originOK; simpl. repeat split; [lia|]. eauto. }
  assert (Hsh' : forall name, is_Some (sharedRateLimiters s0 !! name) ->
                              is_Some (shared' !! name))
    by (intros name Hn; apply Hsh, Hs, Hn).
  assert (Htb' : forall name, name <> nsid -> nsid <> "__proto__" ->
                   tableGet shared' name = tableGet (sharedRateLimiters s0) name)
    by (intros name H1 H2; by rewrite Htb, Ht).
  destruct Hg as [rest Hg].
  unfold pushRouteFn. destruct (isBasicSpec limit) eqn:Hbs.
  - split; simpl; rewrite ?(pushFn_lookup _ _ _ Hbf), ?Hpf; simpl; try done.
    + apply Forall_app; split; [done|]. constructor; [|constructor]. by apply Hnew.
    + rewrite map_app. apply NoDup_app. split; [done|]. split.
      * intros o Ho1 Ho2. simpl in Ho2. apply list_elem_of_singleton in Ho2. subst o.
        by apply (fresh_origin true i bf).
      * simpl. apply NoDup_singleton.
    + exists (rest ++ [specConsumeFn nsid i limit v]). by rewrite Hg, app_assoc.
    + intros j l Hj Hlj Hres. destruct (decide (j = i)) as [->|Hne].
      * rewrite Hl in Hlj. injection Hlj as <-. rewrite Hbs.
        exists (specConsumeFn nsid i limit v). split; [done|].
        apply elem_of_app. right. by apply list_elem_of_singleton.
      * destruct (Hinst j l) as (fn & Hfo & Hfn); [lia|done|done|].
        exists fn. split; [done|]. destruct (isBasicSpec l); [|done].
        apply elem_of_app. by left.
  - split; simpl; rewrite ?(pushFn_lookup _ _ _ Hpf), ?Hbf; simpl; try done.
    + apply Forall_app; split; [done|]. constructor; [|constructor]. by apply Hnew.
    + rewrite map_app. apply NoDup_app. split; [done|]. split.
      * intros o Ho1 Ho2. simpl in Ho2. apply list_elem_of_singleton in Ho2. subst o.
        by apply (fresh_origin false i pf).
      * simpl. apply NoDup_singleton.
    + by exists rest.
    + intros j l Hj Hlj Hres. destruct (decide (j = i)) as [->|Hne].
      * rewrite Hl in Hlj. injection Hlj as <-. rewrite Hbs.
        exists (specConsumeFn nsid i limit v). split; [done|].
        apply elem_of_app. right. by apply list_elem_of_singleton.
      * destruct (Hinst j l) as (fn & Hfo & Hfn); [lia|done|done|].
        exists fn. split; [done|]. destruct (isBasicSpec l); [done|].
        apply elem_of_app. by left.
Qed.

Lemma setShared_id s : setShared (sharedRateLimiters s) s = s.
Proof. by destruct s. Qed.

(** A spec that finds nothing leaves the server as it is. *)
Lemma SetupInv_skip s i limit :
  limits !! i = Some limit ->
  ~ resolvable s0 limit ->
  SetupInv nsid limits s0 s i -> SetupInv nsid limits s0 s (S i).
Proof.
  intros Hl Hnr [Ho Hs Ht Hb Hp Hbn Hpn Hpres Hg Hinst]. split; try done.
  - eapply Forall_impl; [exact Hb|]; intros; eapply originOK_mono; [|eassumption]; lia.
  - eapply Forall_impl; [exact Hp|]; intros; eapply originOK_mono; [|eassumption]; lia.
  - intros j l Hj Hlj Hr. destruct (decide (j = i)) as [->|Hne].
    + rewrite Hl in Hlj. injection Hlj as <-. done.
    + apply Hinst; [lia|done|done].
Qed.

Lemma setupLimit_inv s i limit :
  limits !! i = Some limit ->
  SetupInv nsid limits s0 s i -> SetupInv nsid limits s0 (setupLimit nsid i limit s) (S i).
Proof.
  intros Hl HI. unfold setupLimit. destruct limit as [name k p|d pt k p].
  - destruct (tableGet (sharedRateLimiters s) name) as [v|] eqn:Hres.
    + rewrite <- (setShared_id s) at 1. apply SetupInv_push; try done. simpl.
      destruct (decide (name = nsid)) as [|Hn]; [by left|].
      destruct (decide (nsid = "__proto__")) as [|Hp]; [by right; left|].
      right. right. by rewrite <- (inv_table _ _ _ _ _ HI name Hn Hp).
    + apply (SetupInv_skip s i _ Hl); [|done]. simpl. intros Hr.
      apply (inv_shared _ _ _ _ _ HI) in Hr as [rl Hrl].
      apply table_lookup_get in Hrl. congruence.
  - destruct (createLimiter s i d pt k p) as [rl|] eqn:Hres.
    + apply SetupInv_push; [done|by exists rl| | |done].
      * intros name [x Hx]. destruct (decide (name = nsid)) as [->|Hne].
        -- rewrite table_lookup_set_eq. eauto.
        -- rewrite table_lookup_set_ne by done. eauto.
      * intros name Hn Hp. by apply tableGet_set_ne.
    + apply (SetupInv_skip s i _ Hl); [|done]. simpl. intros [rlo Hr].
      unfold createLimiter in Hres. by rewrite (inv_options _ _ _ _ _ HI), Hr in Hres.
Qed.

Lemma setupLimitsFrom_inv rest : forall s i,
  (forall k, rest !! k = limits !! (i + k)) ->
  SetupInv nsid limits s0 s i ->
  SetupInv nsid limits s0 (setupLimitsFrom nsid i rest s) (i + length rest).
Proof.
  induction rest as [|limit rest IH]; intros s i Hk HI; simpl.
  - by rewrite Nat.add_0_r.
  - replace (i + S (length rest)) with (S i + length rest) by lia.
    apply IH.
    + intros k. specialize (Hk (S k)). simpl in Hk. rewrite Hk. f_equal. lia.
    + apply setupLimit_inv; [|done]. specialize (Hk 0). simpl in Hk.
      by rewrite Nat.add_0_r in Hk.
Qed.
End Setup.

Lemma imap_global_origins (l : list RateLimiterI) (b : nat) :
  map cf_origin
    (imap (fun k limit => {| cf_origin := OfGlobal (b + k); cf_limiter := ALimiter limit;
                             cf_opts := noOverride |}) l)
  = map OfGlobal (seq b (length l)).
Proof.
  revert b. induction l as [|x l IH]; intros b; [done|].
  simpl. f_equal; [f_equal; lia|].
  rewrite <- (IH (S b)). f_equal. apply imap_ext. intros k y _. simpl.
  do 2 f_equal. lia.
Qed.

Lemma globalConsumeFns_origins s :
  map cf_origin (globalConsumeFns s) = map OfGlobal (seq 0 (length (globalRateLimiters s))).
Proof. apply (imap_global_origins (globalRateLimiters s) 0). Qed.

Lemma setup_inv nsid config s :
  SetupInv nsid (cfg_rateLimit config) s (setupRouteRateLimits nsid config s)
    (length (cfg_rateLimit config)).
Proof.
  unfold setupRouteRateLimits.
  apply (setupLimitsFrom_inv nsid (cfg_rateLimit config) s (cfg_rateLimit config) _ 0);
    [done|].
  split; simpl; rewrite ?lookup_insert_eq; simpl; try done.
  - apply Forall_forall. intros fn Hfn.
    assert (Ho : cf_origin fn ∈ map cf_origin (globalConsumeFns s))
      by (apply list_elem_of_fmap; eauto).
    rewrite globalConsumeFns_origins in Ho. apply list_elem_of_fmap in Ho as (k & Hk & _).
    unfold originOK. by rewrite Hk.
  - rewrite globalConsumeFns_origins. apply NoDup_fmap_2; [|apply NoDup_seq].
    intros ?? [= ->]; done.
  - constructor.
  - exists []. by rewrite app_nil_r.
  - intros j l Hj. lia.
Qed.

(** ** The stages of the route handler *)

Lemma validateResOutput_trace lx h o st :
  Forall (fun e => e = EvValidateOutput (h_nsid h)) (traceOf (validateResOutput lx h o st)).
Proof.
  unfold validateResOutput. destruct (h_validateResOutput h); cbn; repeat constructor.
Qed.

Lemma respond_trace lx h out st :
  Forall (fun e => e = EvValidateOutput (h_nsid h)) (traceOf (respond lx h out st)).
Proof.
  destruct out; cbn [respond]; try (cbv; constructor).
  - rewrite bind_trace. apply Forall_app. split; [apply validateResOutput_trace|].
    destruct (valueOf _); cbv; constructor.
  - rewrite bind_trace. apply Forall_app. split; [apply validateResOutput_trace|].
    destruct (valueOf _); cbv; constructor.
Qed.

Lemma invoke_trace lx h ctx st :
  exists th, traceOf (invoke lx h ctx st) = EvHandler (h_nsid h) :: th
             /\ Forall (fun e => e = EvValidateOutput (h_nsid h)) th.
Proof.
  unfold invoke. rewrite bind_trace, emit_trace. eexists; split; [reflexivity|].
  destruct (cfg_handler _ _); [by constructor|apply respond_trace].
Qed.

Lemma beforeHandler_shape lx h req auth st :
  exists tb tv tp,
    traceOf (beforeHandler lx h req auth st) = tb ++ tv ++ tp
    /\ consumesOf (h_basicRlFns h) (tv <> []) tb
    /\ (exists k, tv = take k (validationEvents (h_nsid h)))
    /\ consumesOf (h_paramRlFns h) (reachesHandler (valueOf (beforeHandler lx h req auth st))) tp
    /\ (tp <> [] \/ reachesHandler (valueOf (beforeHandler lx h req auth st)) ->
        tv = validationEvents (h_nsid h)).
Proof.
  unfold beforeHandler, reachesHandler. rewrite !guarded_consumeMany.
  set (B := consumeMany (basicCtx req) (h_basicRlFns h)).
  rewrite bind_trace, bind_value. fold B.
  assert (Hstop : forall v : Thrown + (Outcome + XRPCReqContext),
            valueOf (B st) <> None -> (forall ctx, v <> inr (inr ctx)) ->
            exists tb tv tp,
              traceOf (B st) ++ traceOf (ret v (storeOf (B st))) = tb ++ tv ++ tp
              /\ consumesOf (h_basicRlFns h) (tv <> []) tb
              /\ (exists k, tv = take k (validationEvents (h_nsid h)))
              /\ consumesOf (h_paramRlFns h)
                    (exists ctx, valueOf (ret v (storeOf (B st))) = inr (inr ctx)) tp
              /\ (tp <> [] \/ (exists ctx, valueOf (ret v (storeOf (B st))) = inr (inr ctx)) ->
                  tv = validationEvents (h_nsid h))).
  { intros v HB Hv. exists (traceOf (B st)), [], []. rewrite ret_trace, ret_value, !app_nil_r.
    split; [done|]. split; [apply consumeMany_consumesOf; done|].
    split; [by exists 0|]. split; [exists 0; split; [done|]; intros [ctx ?]; by destruct (Hv ctx)|].
    intros [?|[ctx ?]]; [done|by destruct (Hv ctx)]. }
  destruct (valueOf (B st)) as [[e|]|t] eqn:HB; [by apply Hstop| |by apply Hstop].
  clear Hstop.
  assert (HBc : forall P : Prop, consumesOf (h_basicRlFns h) P (traceOf (B st)))
    by (intros; by apply consumeMany_consumesOf).
  rewrite bind_trace, bind_value, emit_trace.
  destruct (lex_params _ _ _) as [msg|params].
  { exists (traceOf (B st)), [EvDecodeParams (h_nsid h)], [].
    rewrite ret_trace, ret_value, !app_nil_r. split; [done|]. split; [done|].
    split; [by exists 1|]. split; [exists 0; split; [done|]; by intros [? ?]|].
    intros [?|[? ?]]; done. }
  rewrite bind_trace, bind_value, emit_trace.
  destruct (validateInput _ _ _ _) as [t|input].
  { exists (traceOf (B st)), [EvDecodeParams (h_nsid h); EvParamsValid (h_nsid h)], [].
    rewrite ret_trace, ret_value, !app_nil_r. split; [done|]. split; [done|].
    split; [by exists 2|]. split; [exists 0; split; [done|]; by intros [? ?]|].
    intros [?|[? ?]]; done. }
  rewrite bind_trace, bind_value, emit_trace, bind_trace, bind_value, !guarded_consumeMany.
  match goal with |- context [consumeMany ?c (h_paramRlFns h) ?s] =>
    set (Pm := consumeMany c (h_paramRlFns h) s) end.
  exists (traceOf (B st)), (validationEvents (h_nsid h)), (traceOf Pm).
  destruct (valueOf Pm) as [[e|]|t] eqn:HP; rewrite ret_trace, ret_value, !app_nil_r.
  - split; [done|]. split; [done|]. split; [by exists 3|]. split; [|done].
    apply consumeMany_consumesOf. by intros [? ?].
  - split; [done|]. split; [done|]. split; [by exists 3|]. split; [|done].
    by apply consumeMany_consumesOf.
  - split; [done|]. split; [done|]. split; [by exists 3|]. split; [|done].
    apply consumeMany_consumesOf. by intros [? ?].
Qed.

Lemma handlerTry_shape lx h req auth st :
  exists tb tv tp th,
    traceOf (handlerTry lx h req auth st) = tb ++ tv ++ tp ++ th
    /\ consumesOf (h_basicRlFns h) (tv <> []) tb
    /\ (exists k, tv = take k (validationEvents (h_nsid h)))
    /\ consumesOf (h_paramRlFns h) (th <> []) tp
    /\ (tp <> [] \/ th <> [] -> tv = validationEvents (h_nsid h))
    /\ (th = [] \/ exists th', th = EvHandler (h_nsid h) :: th'
                     /\ Forall (fun e => e = EvValidateOutput (h_nsid h)) th').
Proof.
  destruct (beforeHandler_shape lx h req auth st) as (tb & tv & tp & Ht & Hb & Hv & Hp & Hf).
  unfold handlerTry. rewrite bind_trace, Ht.
  destruct (valueOf (beforeHandler lx h req auth st)) as [t|[o|ctx]] eqn:Hval.
  - exists tb, tv, tp, []. rewrite ret_trace, <- !app_assoc, !app_nil_r.
    split; [done|]. split; [done|]. split; [done|].
    split; [destruct Hp as (n & ? & _); by exists n|].
    split; [intros [?|?]; [auto|done]|]. by left.
  - exists tb, tv, tp, []. rewrite ret_trace, <- !app_assoc, !app_nil_r.
    split; [done|]. split; [done|]. split; [done|].
    split; [destruct Hp as (n & ? & _); by exists n|].
    split; [intros [?|?]; [auto|done]|]. by left.
  - destruct (invoke_trace lx h ctx (storeOf (beforeHandler lx h req auth st)))
      as (th & -> & Hth).
    assert (Hr : reachesHandler (inr (inr ctx) : Thrown + (Outcome + XRPCReqContext)))
      by (by exists ctx).
    exists tb, tv, tp, (EvHandler (h_nsid h) :: th). rewrite <- !app_assoc.
    split; [done|]. split; [done|]. split; [done|].
    split; [destruct Hp as (n & ? & Hfull); exists n; auto|].
    split; [auto|]. right. eauto.
Qed.

Lemma runHandler_trace lx h req auth st :
  traceOf (runHandler lx h req auth st) = traceOf (handlerTry lx h req auth st).
Proof. unfold runHandler. rewrite bind_trace, ret_trace. apply app_nil_r. Qed.

Lemma validation_no_origin nsid k e :
  e ∈ take k (validationEvents nsid) -> eventOrigin e = None.
Proof.
  intros H. apply elem_of_take in H as (j & Hj & _).
  apply list_elem_of_lookup_2 in Hj. unfold validationEvents in Hj.
  repeat (apply elem_of_cons in Hj as [->|Hj]; [done|]). by apply elem_of_nil in Hj.
Qed.

Lemma tail_no_origin nsid th e :
  (th = [] \/ exists th', th = EvHandler nsid :: th'
                /\ Forall (fun e => e = EvValidateOutput nsid) th') ->
  e ∈ th -> eventOrigin e = None.
Proof.
  intros [->|(th' & -> & HF)] He; [by apply elem_of_nil in He|].
  apply elem_of_cons in He as [->|He]; [done|].
  rewrite Forall_forall in HF. by rewrite (HF _ He).
Qed.

(** The two phases of limiter consumption in a run of the handler built
    by [createHandler]. A function of the basic pool runs before any
    validation event, one of the parametric pool after all three. *)
Section Phases.
Variables (lx : Lexicons) (h : RouteHandler) (req : Request) (auth : option Auth)
          (st : Store).
Variable o : Origin.
Hypothesis basic_nodup : NoDup (map cf_origin (h_basicRlFns h)).
Hypothesis param_nodup : NoDup (map cf_origin (h_paramRlFns h)).

Let tr := traceOf (runHandler lx h req auth st).
Let nsid := h_nsid h.

Lemma basic_phase :
  (forall fn, fn ∈ h_paramRlFns h -> cf_origin fn <> o) ->
  (forall pre e post, tr = pre ++ e :: post -> eventOrigin e = Some o ->
     forall e', e' ∈ pre -> is_Some (eventOrigin e'))
  /\ timesConsumed o tr <= 1
  /\ ((exists fn, cf_origin fn = o /\ fn ∈ h_basicRlFns h) ->
      EvDecodeParams nsid ∈ tr -> timesConsumed o tr = 1).
Proof.
  intros Hnp. subst tr nsid. rewrite runHandler_trace.
  destruct (handlerTry_shape lx h req auth st)
    as (tb & tv & tp & th & -> & Hcb & [k Hk] & Hcp & Hfull & Hth).
  assert (Htb : forall e, e ∈ tb -> exists fn, fn ∈ h_basicRlFns h
                                      /\ eventOrigin e = Some (cf_origin fn))
    by (intros e; apply (consumesOf_origin _ _ _ _ Hcb)).
  assert (Htp : forall e, e ∈ tp -> exists fn, fn ∈ h_paramRlFns h
                                      /\ eventOrigin e = Some (cf_origin fn))
    by (intros e; apply (consumesOf_origin _ _ _ _ Hcp)).
  assert (Htv : forall e, e ∈ tv -> eventOrigin e = None)
    by (intros e; rewrite Hk; apply validation_no_origin).
  assert (Hth' : forall e, e ∈ th -> eventOrigin e = None)
    by (intros e; by apply (tail_no_origin (h_nsid h))).
  assert (Hnotb : forall e, eventOrigin e = None -> e ∉ tb).
  { intros e He Hin. destruct (Htb e Hin) as (? & _ & ?). congruence. }
  assert (Hnotp : forall e, eventOrigin e = None -> e ∉ tp).
  { intros e He Hin. destruct (Htp e Hin) as (? & _ & ?). congruence. }
  assert (Hcount : timesConsumed o (tb ++ tv ++ tp ++ th) = timesConsumed o tb).
  { rewrite !timesConsumed_app, (timesConsumed_silent _ tv),
      (count_absent _ _ _ _ Hcp Hnp), (timesConsumed_silent _ th); [lia|done|done]. }
  split; [|split].
  - intros pre e post Heq He. symmetry in Heq.
    apply split_in_app in Heq as [(l & Hpre & _)|(l & _ & Hrest)].
    + intros e' Hin. assert (Hin' : e' ∈ tb) by (rewrite Hpre; apply elem_of_app; by left).
      destruct (Htb e' Hin') as (fn & _ & ->). eauto.
    + exfalso. assert (Hin : e ∈ tv ++ tp ++ th).
      { rewrite Hrest. apply elem_of_app. right. by left. }
      rewrite !elem_of_app in Hin. destruct Hin as [Hin|[Hin|Hin]].
      * apply Htv in Hin. congruence.
      * destruct (Htp e Hin) as (fn & Hfn & Hfo). apply (Hnp fn Hfn). congruence.
      * apply Hth' in Hin. congruence.
  - rewrite Hcount. by eapply count_at_most_once.
  - intros Hinst Hin. rewrite !elem_of_app in Hin.
    assert (Hne : tv <> []).
    { destruct Hin as [Hin|[Hin|[Hin|Hin]]].
      - by eapply Hnotb in Hin.
      - intros E. rewrite E in Hin. by apply elem_of_nil in Hin.
      - by eapply Hnotp in Hin.
      - destruct Hth as [->|(th' & -> & HF)]; [by apply elem_of_nil in Hin|].
        apply elem_of_cons in Hin as [Hin|Hin]; [done|].
        rewrite Forall_forall in HF. by specialize (HF _ Hin). }
    destruct Hcb as (n & _ & Hfullb). rewrite Hcount.
    by apply (count_full (h_basicRlFns h) tb o (Hfullb Hne)).
Qed.

Lemma param_phase :
  (forall fn, fn ∈ h_basicRlFns h -> cf_origin fn <> o) ->
  (forall pre e post, tr = pre ++ e :: post -> eventOrigin e = Some o ->
     EvDecodeParams nsid ∈ pre /\ EvParamsValid nsid ∈ pre /\ EvInputValid nsid ∈ pre)
  /\ timesConsumed o tr <= 1
  /\ ((exists fn, cf_origin fn = o /\ fn ∈ h_paramRlFns h) ->
      EvHandler nsid ∈ tr -> timesConsumed o tr = 1).
Proof.
  intros Hnb. subst tr nsid. rewrite runHandler_trace.
  destruct (handlerTry_shape lx h req auth st)
    as (tb & tv & tp & th & -> & Hcb & [k Hk] & Hcp & Hfull & Hth).
  assert (Htb : forall e, e ∈ tb -> exists fn, fn ∈ h_basicRlFns h
                                      /\ eventOrigin e = Some (cf_origin fn))
    by (intros e; apply (consumesOf_origin _ _ _ _ Hcb)).
  assert (Htp : forall e, e ∈ tp -> exists fn, fn ∈ h_paramRlFns h
                                      /\ eventOrigin e = Some (cf_origin fn))
    by (intros e; apply (consumesOf_origin _ _ _ _ Hcp)).
  assert (Htv : forall e, e ∈ tv -> eventOrigin e = None)
    by (intros e; rewrite Hk; apply validation_no_origin).
  assert (Hth' : forall e, e ∈ th -> eventOrigin e = None)
    by (intros e; by apply (tail_no_origin (h_nsid h))).
  assert (Hnotb : forall e, eventOrigin e = None -> e ∉ tb).
  { intros e He Hin. destruct (Htb e Hin) as (? & _ & ?). congruence. }
  assert (Hnotp : forall e, eventOrigin e = None -> e ∉ tp).
  { intros e He Hin. destruct (Htp e Hin) as (? & _ & ?). congruence. }
  assert (Hcount : timesConsumed o (tb ++ tv ++ tp ++ th) = timesConsumed o tp).
  { rewrite !timesConsumed_app, (timesConsumed_silent _ tv),
      (count_absent _ _ _ _ Hcb Hnb), (timesConsumed_silent _ th); [lia|done|done]. }
  split; [|split].
  - intros pre e post Heq He. symmetry in Heq.
    apply split_in_app in Heq as [(l & Hpre & _)|(l & Hpre & Hrest)].
    + exfalso. assert (Hin : e ∈ tb).
      { rewrite Hpre. apply elem_of_app. right. by left. }
      destruct (Htb e Hin) as (fn & Hfn & Hfo). apply (Hnb fn Hfn). congruence.
    + symmetry in Hrest.
      apply split_in_app in Hrest as [(l' & Htv' & _)|(l' & Hleq & Hrest)].
      { exfalso. assert (Hin : e ∈ tv).
        { rewrite Htv'. apply elem_of_app. right. by left. }
        apply Htv in Hin. congruence. }
      assert (Hne : tp <> [] \/ th <> []).
      { destruct tp; [|by left]. destruct th; [|by right].
        destruct l'; discriminate. }
      rewrite (Hfull Hne) in Hleq. subst l pre. unfold validationEvents.
      rewrite !elem_of_app, !elem_of_cons. tauto.
  - rewrite Hcount. by eapply count_at_most_once.
  - intros Hinst Hin. rewrite !elem_of_app in Hin.
    assert (Hne : th <> []).
    { destruct Hin as [Hin|[Hin|[Hin|Hin]]].
      - by eapply Hnotb in Hin.
      - rewrite Hk in Hin. apply elem_of_take in Hin as (j & Hj & _).
        apply list_elem_of_lookup_2 in Hj. unfold validationEvents in Hj.
        repeat (apply elem_of_cons in Hj as [Hj|Hj]; [done|]). by apply elem_of_nil in Hj.
      - by eapply Hnotp in Hin.
      - intros E. rewrite E in Hin. by apply elem_of_nil in Hin. }
    destruct Hcp as (n & Hn & Hfullp). rewrite Hcount.
    by apply (count_full (h_paramRlFns h) tp o (Hfullp Hne)).
Qed.
End Phases.

(** * The claims *)

Lemma handler_pools nsid def config s :
  let h := createHandler (setupRouteRateLimits nsid config s) nsid def config in
  Forall (originOK nsid (cfg_rateLimit config) s true (length (cfg_rateLimit config)))
    (h_basicRlFns h)
  /\ Forall (originOK nsid (cfg_rateLimit config) s false (length (cfg_rateLimit config)))
       (h_paramRlFns h)
  /\ NoDup (map cf_origin (h_basicRlFns h))
  /\ NoDup (map cf_origin (h_paramRlFns h))
  /\ (exists rest, h_basicRlFns h = globalConsumeFns s ++ rest)
  /\ (forall j l, cfg_rateLimit config !! j = Some l -> resolvable s l ->
        exists fn, cf_origin fn = OfSpec nsid j /\
          fn ∈ (if isBasicSpec l then h_basicRlFns h else h_paramRlFns h)).
Proof.
  destruct (setup_inv nsid config s) as [_ _ _ Hb Hp Hbn Hpn _ Hg Hinst].
  repeat split; try done.
  intros j l Hl Hr. apply Hinst; [|done|done]. by apply lookup_lt_Some in Hl.
Qed.

Lemma pool_of_spec nsid limits s0 b bound fns fn i limit :
  Forall (originOK nsid limits s0 b bound) fns ->
  limits !! i = Some limit -> fn ∈ fns -> cf_origin fn = OfSpec nsid i ->
  isBasicSpec limit = b /\ mayResolve s0 nsid limit (cf_limiter fn).
Proof.
  intros HF Hl Hfn Ho. rewrite Forall_forall in HF. specialize (HF fn Hfn).
  unfold originOK in HF. rewrite Ho in HF. destruct HF as (_ & _ & l & Hl' & Hbs & Hm).
  rewrite Hl in Hl'. injection Hl' as <-. done.
Qed.

(** C1. For a method registered under [nsid] with configuration [config],
    take the [i]-th rate-limit spec [limit] and the handler that
    [createHandler] builds after [setupRouteRateLimits]. If the spec has
    neither [calcKey] nor [calcPoints], its consume function is never in
    the parametric pool, it is in the basic pool when its limiter exists,
    every debit it makes in a run of the handler comes before parameter
    decoding, parameter validation and input validation, and a run that
    gets to parameter decoding has made that debit exactly once. If the
    spec has one of the two functions, its consume function is never in
    the basic pool, it is in the parametric pool when its limiter exists,
    every debit it makes comes after parameter decoding, parameter
    validation and input validation all succeeded, and a run that gets to
    the handler call has made that debit exactly once. *)
Theorem rate_limit_phases s nsid def config lx req auth st i limit :
  cfg_rateLimit config !! i = Some limit ->
  let h := createHandler (setupRouteRateLimits nsid config s) nsid def config in
  let tr := traceOf (runHandler lx h req auth st) in
  let o := OfSpec nsid i in
  (specCalcKey limit = None -> specCalcPoints limit = None ->
     (forall fn, fn ∈ h_paramRlFns h -> cf_origin fn <> o)
     /\ (resolvable s limit -> exists fn, fn ∈ h_basicRlFns h /\ cf_origin fn = o)
     /\ (forall pre e post, tr = pre ++ e :: post -> eventOrigin e = Some o ->
           (EvDecodeParams nsid ∉ pre) /\ (EvParamsValid nsid ∉ pre)
           /\ (EvInputValid nsid ∉ pre))
     /\ (resolvable s limit -> EvDecodeParams nsid ∈ tr -> timesConsumed o tr = 1))
  /\ (is_Some (specCalcKey limit) \/ is_Some (specCalcPoints limit) ->
      (forall fn, fn ∈ h_basicRlFns h -> cf_origin fn <> o)
      /\ (resolvable s limit -> exists fn, fn ∈ h_paramRlFns h /\ cf_origin fn = o)
      /\ (forall pre e post, tr = pre ++ e :: post -> eventOrigin e = Some o ->
            EvDecodeParams nsid ∈ pre /\ EvParamsValid nsid ∈ pre
            /\ EvInputValid nsid ∈ pre)
      /\ (resolvable s limit -> EvHandler nsid ∈ tr -> timesConsumed o tr = 1)).
Proof.
  intros Hl h tr o.
  destruct (handler_pools nsid def config s) as (Hb & Hp & Hbn & Hpn & _ & Hinst).
  fold h in Hb, Hp, Hbn, Hpn, Hinst. specialize (Hinst i limit Hl). split.
  - intros Hk Hpt.
    assert (Hbs : isBasicSpec limit = true) by (by apply isBasicSpec_true).
    rewrite Hbs in Hinst.
    assert (Hnp : forall fn, fn ∈ h_paramRlFns h -> cf_origin fn <> o).
    { intros fn Hfn Ho. destruct (pool_of_spec _ _ _ _ _ _ _ _ _ Hp Hl Hfn Ho). congruence. }
    destruct (basic_phase lx h req auth st o Hbn Hnp) as (Hord & _ & Honce).
    split; [done|]. split; [intros Hr; destruct (Hinst Hr) as (fn & ? & ?); eauto|].
    split; [|intros Hr; apply Honce; auto].
    intros pre e post Heq He.
    repeat split; intros Hin; by destruct (Hord pre e post Heq He _ Hin).
  - intros Hfun.
    assert (Hbs : isBasicSpec limit = false) by (by apply isBasicSpec_false).
    rewrite Hbs in Hinst.
    assert (Hnb : forall fn, fn ∈ h_basicRlFns h -> cf_origin fn <> o).
    { intros fn Hfn Ho. destruct (pool_of_spec _ _ _ _ _ _ _ _ _ Hb Hl Hfn Ho). congruence. }
    destruct (param_phase lx h req auth st o Hpn Hnb) as (Hord & _ & Honce).
    split; [done|]. split; [intros Hr; destruct (Hinst Hr) as (fn & ? & ?); eauto|].
    split; [exact Hord|]. intros Hr. apply Honce. auto.
Qed.

Lemma rate_limit_phases_witness :
  let s := createServer lexicons (optionsWith None [] [limitOf "account" 100]) in
  let config := configOf (answering (json "pong")) None
                  [SharedRateLimitOpts "account" None None;
                   RouteRateLimitOpts 60000 10 (Some byDid) None] in
  let h := createHandler (setupRouteRateLimits "io.example.ping" config s)
             "io.example.ping" (plainDef query) config in
  let tr := traceOf (runHandler lexicons h (request "GET" "io.example.ping") None ∅) in
  timesConsumed (OfSpec "io.example.ping" 0) tr = 1
  /\ timesConsumed (OfSpec "io.example.ping" 1) tr = 1
  /\ Forall (fun fn => cf_origin fn <> OfSpec "io.example.ping" 0) (h_paramRlFns h)
  /\ Forall (fun fn => cf_origin fn <> OfSpec "io.example.ping" 1) (h_basicRlFns h).
Proof.
  intros s config h tr.
  pose proof (rate_limit_phases s "io.example.ping" (plainDef query) config lexicons
                (request "GET" "io.example.ping") None ∅ 0 _ eq_refl) as [H0 _].
  pose proof (rate_limit_phases s "io.example.ping" (plainDef query) config lexicons
                (request "GET" "io.example.ping") None ∅ 1 _ eq_refl) as [_ H1].
  destruct (H0 eq_refl eq_refl) as (Hp0 & _ & _ & Hc0).
  destruct H1 as (Hb1 & _ & _ & Hc1); [left; simpl; eauto|].
  split; [|split; [|split]].
  - apply Hc0; [vm_compute; eauto|vm_compute; repeat constructor].
  - apply Hc1; [vm_compute; eauto|vm_compute; repeat constructor].
  - apply Forall_forall. exact Hp0.
  - apply Forall_forall. exact Hb1.
Defined.

(** ** Type tags *)

Lemma split_nonempty s : split hash s <> [].
Proof.
  destruct s as [|c s]; [done|]. simpl.
  destruct (Ascii.eqb c hash); [done|]. by destruct (split hash s).
Qed.

Lemma split_noHash s : noHash s = true -> split hash s = [s].
Proof.
  induction s as [|c s IH]; [done|]. simpl.
  destruct (Ascii.eqb c hash); [done|]. simpl. intros H. by rewrite (IH H).
Qed.

Lemma split_app a b :
  noHash a = true -> split hash (a +:+ String hash b) = a :: split hash b.
Proof.
  induction a as [|c a IH]; [done|]. simpl.
  destruct (Ascii.eqb c hash); [done|]. simpl. intros H. by rewrite (IH H).
Qed.

Lemma split_one s b : split hash s = [b] -> s = b /\ noHash b = true.
Proof.
  revert b. induction s as [|c s IH]; intros b; simpl.
  - by intros [= <-].
  - destruct (Ascii.eqb c hash) eqn:Hc.
    + intros [= <- H]. by apply split_nonempty in H.
    + destruct (split hash s) as [|hd tl] eqn:Hs; [by apply split_nonempty in Hs|].
      intros [= <- ->]. destruct (IH hd eq_refl) as [-> Hn]. simpl. by rewrite Hc.
Qed.

Lemma split_two s a b :
  split hash s = [a; b] -> s = a +:+ String hash b /\ noHash a = true /\ noHash b = true.
Proof.
  revert a. induction s as [|c s IH]; intros a; simpl; [done|].
  destruct (Ascii.eqb c hash) eqn:Hc.
  - intros [= <- H]. apply Ascii.eqb_eq in Hc as ->.
    destruct (split_one _ _ H) as [-> Hn]. done.
  - destruct (split hash s) as [|hd tl] eqn:Hs; [by apply split_nonempty in Hs|].
    intros [= <- ->]. destruct (IH hd eq_refl) as (-> & Ha & Hb). simpl. by rewrite Hc.
Qed.

Lemma localType_own nsid name :
  noHash nsid = true -> noHash name = true ->
  localType nsid (nsid +:+ "#" +:+ name) = "#" +:+ name.
Proof.
  intros Hn Hm. unfold localType. change ("#" +:+ name) with (String hash name).
  rewrite (split_app _ _ Hn), (split_noHash _ Hm), String.eqb_refl.
  by rewrite orb_true_r.
Qed.

Lemma localType_bare nsid name :
  noHash name = true -> localType nsid ("#" +:+ name) = "#" +:+ name.
Proof.
  intros Hm. unfold localType. change ("#" +:+ name) with ("" +:+ String hash name).
  by rewrite (split_app "" _ eq_refl), (split_noHash _ Hm).
Qed.

Lemma localType_foreign nsid type :
  ~ inNamespace nsid type -> localType nsid type = type.
Proof.
  intros Hout. unfold localType.
  destruct (split hash type) as [|ns [|name [|? ?]]] eqn:Hs; try done.
  destruct (split_two _ _ _ Hs) as (-> & _ & Hname).
  destruct (String.eqb ns "") eqn:H1; simpl.
  - apply String.eqb_eq in H1 as ->. exfalso. apply Hout. exists name. split; [done|]. by right.
  - destruct (String.eqb ns nsid) eqn:H2; [|done].
    apply String.eqb_eq in H2 as ->. exfalso. apply Hout. exists name. split; [done|]. by left.
Qed.

(** C6, as amended. Under a subscription id [nsid] (an id has no ['#']),
    the frame put on the wire for a yielded item is: the item itself when
    it is a [Frame]; for a map whose [$type] is the string [nsid#name] or
    [#name], a message frame with type tag [#name] whose payload is the
    map without its [$type] field (the other fields are kept); for a map
    whose [$type] is a string outside that namespace, a message frame
    whose type tag is that string in full, the payload again without
    [$type]; and for every other item (not a map, or without a string
    [$type]) a message frame without a type tag around the item as it
    is. *)
Theorem frame_normalization (nsid : string) :
  noHash nsid = true ->
  (forall f, frameOfItem nsid (ItemFrame f) = f)
  /\ (forall (fields : gmap string jsval) name,
        noHash name = true ->
        fields !! "$type" = Some (VStr (nsid +:+ "#" +:+ name))
        \/ fields !! "$type" = Some (VStr ("#" +:+ name)) ->
        frameOfItem nsid (ItemValue (VObj fields))
        = MessageFrame (VObj (delete "$type" fields)) (Some ("#" +:+ name))
        /\ delete "$type" fields !! "$type" = None
        /\ forall k, k <> "$type" -> delete "$type" fields !! k = fields !! k)
  /\ (forall (fields : gmap string jsval) type,
        fields !! "$type" = Some (VStr type) ->
        ~ inNamespace nsid type ->
        frameOfItem nsid (ItemValue (VObj fields))
        = MessageFrame (VObj (delete "$type" fields)) (Some type))
  /\ (forall v,
        (forall (fields : gmap string jsval) type,
           v = VObj fields -> fields !! "$type" <> Some (VStr type)) ->
        frameOfItem nsid (ItemValue v) = MessageFrame v None).
Proof.
  intros Hn. split; [done|]. split; [|split].
  - intros fields name Hm Ht. split; [|split].
    + simpl. destruct Ht as [-> | ->].
      * by rewrite localType_own.
      * by rewrite localType_bare.
    + apply lookup_delete_eq.
    + intros k Hk. by apply lookup_delete_ne.
  - intros fields type Ht Hout. simpl. rewrite Ht. by rewrite localType_foreign.
  - intros v Hv. destruct v as [| | | | |l|fields]; try done. simpl.
    destruct (fields !! "$type") as [[| | | |type| |]|] eqn:Ht; try done.
    by destruct (Hv fields type eq_refl).
Qed.

Lemma frame_normalization_witness :
  frameOfItem "io.example.stream"
    (ItemValue (VObj {[ "$type" := VStr "io.example.stream#commit"; "seq" := VNum 7 ]}))
  = MessageFrame (VObj {[ "seq" := VNum 7 ]}) (Some "#commit").
Proof.
  destruct (frame_normalization "io.example.stream" eq_refl) as (_ & H & _).
  assert (Ht : ({[ "$type" := VStr "io.example.stream#commit"; "seq" := VNum 7 ]}
                  : gmap string jsval) !! "$type"
               = Some (VStr ("io.example.stream" +:+ "#" +:+ "commit")))
    by (vm_compute; reflexivity).
  destruct (H _ "commit" eq_refl (or_introl Ht)) as (-> & _).
  vm_compute. reflexivity.
Defined.

(** C6, as stated, fails on a map whose [$type] lies outside the
    subscription's namespace: it is not wrapped without a type tag, its
    frame carries the full [$type] as type tag, and the payload has lost
    the [$type] field. *)
Lemma foreign_type_is_tagged :
  let item := VObj {[ "$type" := VStr "com.example.other#event"; "seq" := VNum 7 ]} in
  frameOfItem "io.example.stream" (ItemValue item)
  = MessageFrame (VObj {[ "seq" := VNum 7 ]}) (Some "com.example.other#event")
  /\ frameOfItem "io.example.stream" (ItemValue item) <> MessageFrame item None.
Proof. intros item. split; by vm_compute. Qed.

(** ** Subscriptions *)

Lemma frameOfItem_error nsid it : isErrorFrame (frameOfItem nsid it) = isErrorItem it.
Proof.
  destruct it as [f|v]; [done|]. destruct v as [| | | | |l|fields]; try done.
  simpl. by destruct (fields !! "$type") as [[| | | |type| |]|].
Qed.

Lemma errorFrames_map nsid items :
  errorFrames (map (frameOfItem nsid) items) = errorItems items.
Proof.
  unfold errorFrames, errorItems. induction items as [|it items IH]; [done|].
  simpl. rewrite !filter_cons, frameOfItem_error.
  destruct (decide (isErrorItem it = true)); simpl; by rewrite IH.
Qed.

Lemma errorFrames_app fs gs : errorFrames (fs ++ gs) = errorFrames fs + errorFrames gs.
Proof. unfold errorFrames. by rewrite filter_app, length_app. Qed.

Lemma stream_outcome_total lx ss req : exists items fin, StreamOutcome lx ss req items fin.
Proof.
  destruct (streamAuth ss req) as [t|auth] eqn:Ha.
  { exists [], (Some t). by constructor. }
  destruct (lex_params lx (ss_nsid ss) (def_decode (ss_def ss) (req_query req)))
    as [msg|params] eqn:Hp.
  { eexists [], _. by eapply so_params_rejected. }
  destruct (scfg_handler (ss_cfg ss)
              {| sctx_req := req; sctx_params := params; sctx_auth := auth |})
    as [items fin] eqn:Hr.
  exists items, fin. by eapply so_handler_ran.
Qed.

Lemma streamFrames_outcome lx ss req items fin :
  StreamOutcome lx ss req items fin ->
  streamFrames lx ss req
  = map (frameOfItem (ss_nsid ss)) items
    ++ match fin with Some err => [errorFrameOf err] | None => [] end.
Proof.
  unfold streamFrames, streamTry.
  destruct 1 as [t Ha|auth msg Ha Hp|auth params items fin Ha Hp Hr];
    rewrite Ha; [done|by rewrite Hp|]. by rewrite Hp, Hr.
Qed.

(** C2, as amended. Whatever happens on a connection - authentication
    raises or returns a declared error, the parameters are rejected, or
    the handler yields [items] and then raises or ends - the generator
    delivers the yielded items in order, frames among them unchanged, and
    then: if an error [err] was raised, exactly one more frame, the error
    frame of [err], and nothing after it; if the handler's sequence ended
    without raising, nothing more. The error frames of the output are so
    the error frames that the handler itself yielded, plus that one. *)
Theorem stream_error_frame lx ss req items fin :
  StreamOutcome lx ss req items fin ->
  let out := streamFrames lx ss req in
  (forall k f, items !! k = Some (ItemFrame f) -> out !! k = Some f)
  /\ take (length items) out = map (frameOfItem (ss_nsid ss)) items
  /\ match fin with
     | Some err =>
         out = map (frameOfItem (ss_nsid ss)) items ++ [errorFrameOf err]
         /\ isErrorFrame (errorFrameOf err) = true
         /\ last out = Some (errorFrameOf err)
         /\ errorFrames out = S (errorItems items)
     | None =>
         out = map (frameOfItem (ss_nsid ss)) items
         /\ errorFrames out = errorItems items
     end.
Proof.
  intros Ho out. subst out. rewrite (streamFrames_outcome _ _ _ _ _ Ho).
  split; [|split].
  - intros k f Hk. rewrite lookup_app_l.
    + by rewrite list_lookup_fmap, Hk.
    + rewrite length_map. by apply lookup_lt_Some in Hk.
  - rewrite take_app_length'; [done|]. by rewrite length_map.
  - destruct fin as [err|].
    + split; [done|]. split; [done|]. split; [apply last_snoc|].
      rewrite errorFrames_app, errorFrames_map. unfold errorFrames. simpl. lia.
    + rewrite app_nil_r. split; [done|]. apply errorFrames_map.
Qed.

Lemma stream_error_frame_witness :
  streamFrames lexicons
    (streamOf ([ItemValue (VNum 1); ItemValue (VNum 2)], Some (ThError "boom")))
    (request "GET" "io.example.stream")
  = [MessageFrame (VNum 1) None; MessageFrame (VNum 2) None;
     ErrorFrame "InternalServerError" (Some "Internal Server Error")].
Proof.
  pose proof (stream_error_frame lexicons
                (streamOf ([ItemValue (VNum 1); ItemValue (VNum 2)], Some (ThError "boom")))
                (request "GET" "io.example.stream")
                [ItemValue (VNum 1); ItemValue (VNum 2)] (Some (ThError "boom"))) as H.
  destruct H as (_ & _ & -> & _).
  - by eapply (so_handler_ran _ _ _ None []).
  - reflexivity.
Defined.

(** C2, as stated, fails on a handler that yields an error frame of its
    own: the handler's sequence ends without raising, and the output has
    an error frame all the same. *)
Lemma handler_yielded_error_frame :
  let req := request "GET" "io.example.stream" in
  let quiet := streamOf ([ItemFrame tooSlow], None) in
  StreamOutcome lexicons quiet req [ItemFrame tooSlow] None
  /\ streamFrames lexicons quiet req = [tooSlow]
  /\ errorFrames (streamFrames lexicons quiet req) = 1.
Proof.
  intros req quiet. split; [by eapply (so_handler_ran _ _ _ None [])|done].
Qed.

(** When such a handler goes on and then raises, the generator yields
    two error frames, and frames after the first of them. *)
Example error_frame_then_raise :
  let req := request "GET" "io.example.stream" in
  let loud := streamOf ([ItemFrame tooSlow; ItemValue (VNum 3)], Some (ThError "boom")) in
  streamFrames lexicons loud req
  = [tooSlow; MessageFrame (VNum 3) None;
     ErrorFrame "InternalServerError" (Some "Internal Server Error")]
  /\ errorFrames (streamFrames lexicons loud req) = 2.
Proof. done. Qed.

(** ** After the handler returned *)


Lemma invoke_value lx h reqCtx st :
  valueOf (invoke lx h reqCtx st)
  = match cfg_handler (h_cfg h) reqCtx with
    | inl t => inl t
    | inr output => valueOf (respond lx h output st)
    end.
Proof.
  unfold invoke. rewrite bind_value. by destruct (cfg_handler _ _).
Qed.

Lemma validateResOutput_value lx h o st :
  valueOf (validateResOutput lx h o st)
  = if h_validateResOutput h then validateOutput lx (h_nsid h) o else None.
Proof. unfold validateResOutput. by destruct (h_validateResOutput h). Qed.

Lemma finish_catch t : finish (catchThrown (inl t)) = errorMiddleware t.
Proof. by destruct t. Qed.



(** C9. For every handler [f], let [raising mk f] be the handler that
    raises [mk he] wherever [f] returns the declared error [he], where
    [mk he] is a failure of the same classification: the normalizer gives
    it the status, name and message of [he]. Then every request gets the
    same response from both (and leaves the same trace and store): the
    same status, error name and message on the wire. *)
Theorem declared_error_equivalence (mk : HandlerError -> Thrown) lx h f req auth st :
  (forall he, fromError (mk he) = fromHandlerError he) ->
  let returned := runHandler lx (withHandler f h) req auth st in
  let raised := runHandler lx (withHandler (raising mk f) h) req auth st in
  finish (valueOf returned) = finish (valueOf raised)
  /\ traceOf returned = traceOf raised
  /\ storeOf returned = storeOf raised.
Proof.
  intros Hmk returned raised. subst returned raised.
  unfold runHandler, handlerTry, bind, traceOf, valueOf, storeOf.
  change (beforeHandler lx (withHandler (raising mk f) h))
    with (beforeHandler lx (withHandler f h)).
  destruct (beforeHandler lx (withHandler f h) req auth st) as [[t1 st1] [t|[o|reqCtx]]];
    [done|done|].
  unfold invoke, bind, emit, raising. simpl.
  destruct (f reqCtx) as [t|[|o|e b hd|e b hd|he]]; try done.
  cbn [respond]. unfold ret. cbn. split; [|done].
  transitivity (errorMiddleware (mk he)).
  - unfold errorMiddleware. by rewrite Hmk.
  - symmetry. apply (finish_catch (mk he)).
Qed.

Lemma declared_error_equivalence_witness :
  let notFound := {| he_status := InvalidRequest; he_error := Some "RecordNotFound";
                     he_message := Some "Record not found" |} in
  let h f := createHandler (createServer lexicons (optionsWith None [] []))
               "io.example.ping" (plainDef query) (configOf f None []) in
  let req := request "GET" "io.example.ping" in
  finish (valueOf (runHandler lexicons (h (answering (OutError notFound))) req None ∅))
  = finish (valueOf (runHandler lexicons (h (fun _ => inl (ThHandlerError notFound)))
                       req None ∅)).
Proof.
  intros notFound h req.
  exact (proj1 (declared_error_equivalence ThHandlerError lexicons
                  (h (answering (OutError notFound))) (answering (OutError notFound))
                  req None ∅ (fun he => eq_refl))).
Defined.

(** ** What registration leaves alone *)

Lemma setupLimit_frame nsid i limit s :
  lex (setupLimit nsid i limit s) = lex s
  /\ options (setupLimit nsid i limit s) = options s
  /\ routes (setupLimit nsid i limit s) = routes s
  /\ subscriptions (setupLimit nsid i limit s) = subscriptions s
  /\ globalRateLimiters (setupLimit nsid i limit s) = globalRateLimiters s.
Proof.
  unfold setupLimit, pushRouteFn. destruct limit as [name k p|d pt k p].
  - destruct (tableGet _ _); [|done]. by destruct (isBasicSpec _).
  - destruct (createLimiter _ _ _ _ _ _); [|done]. by destruct (isBasicSpec _).
Qed.

Lemma setupLimitsFrom_frame nsid limits : forall i s,
  lex (setupLimitsFrom nsid i limits s) = lex s
  /\ options (setupLimitsFrom nsid i limits s) = options s
  /\ routes (setupLimitsFrom nsid i limits s) = routes s
  /\ subscriptions (setupLimitsFrom nsid i limits s) = subscriptions s
  /\ globalRateLimiters (setupLimitsFrom nsid i limits s) = globalRateLimiters s.
Proof.
  induction limits as [|limit limits IH]; intros i s; [done|]. simpl.
  destruct (IH (S i) (setupLimit nsid i limit s)) as (-> & -> & -> & -> & ->).
  apply setupLimit_frame.
Qed.

Lemma addRoute_frame nsid def config s :
  lex (addRoute nsid def config s) = lex s
  /\ options (addRoute nsid def config s) = options s
  /\ subscriptions (addRoute nsid def config s) = subscriptions s
  /\ globalRateLimiters (addRoute nsid def config s) = globalRateLimiters s
  /\ routes (addRoute nsid def config s)
     = routes s ++ [{| rt_verb := verbOf def; rt_nsid := nsid; rt_auth := cfg_auth config;
                       rt_handler := createHandler (setupRouteRateLimits nsid config s)
                                       nsid def config |}].
Proof.
  unfold addRoute, setupRouteRateLimits. simpl.
  match goal with |- context [setupLimitsFrom nsid 0 ?l ?s0] =>
    destruct (setupLimitsFrom_frame nsid l 0 s0) as (-> & -> & -> & -> & ->) end.
  done.
Qed.

Lemma addMethod_inv nsid config s s' :
  addMethod nsid config s = inr s' ->
  exists def, getDef (lex s) nsid = Some def
              /\ (def_type def = query \/ def_type def = procedure)
              /\ s' = addRoute nsid def config s.
Proof.
  unfold addMethod. destruct (getDef (lex s) nsid) as [def|]; [|done].
  destruct (def_type def) eqn:Ht; try done; intros [= <-]; exists def; auto.
Qed.

Lemma addStreamMethod_inv nsid config s s' :
  addStreamMethod nsid config s = inr s' ->
  exists def, getDef (lex s) nsid = Some def /\ def_type def = subscription
              /\ s' = addSubscription nsid def config s.
Proof.
  unfold addStreamMethod. destruct (getDef (lex s) nsid) as [def|]; [|done].
  destruct (def_type def) eqn:Ht; try done; intros [= <-]; exists def; auto.
Qed.

Lemma reachable_routesFiled s : Reachable s -> routesFiled s.
Proof.
  induction 1 as [lexicons opts|s nsid config s' _ IH Hadd|s nsid config s' _ IH Hadd].
  - constructor.
  - apply addMethod_inv in Hadd as (def & Hdef & _ & ->).
    destruct (addRoute_frame nsid def config s) as (Hl & _ & _ & _ & Hr).
    unfold routesFiled. rewrite Hl, Hr. apply Forall_app. split; [exact IH|].
    constructor; [|constructor]. exists def. done.
  - apply addStreamMethod_inv in Hadd as (def & _ & _ & ->). exact IH.
Qed.

(** ** The walk through the router *)

Lemma handlerTry_not_passed lx h req auth st o :
  valueOf (handlerTry lx h req auth st) = inr o -> passes o = false.
Proof.
  unfold handlerTry. rewrite bind_value.
  destruct (valueOf (beforeHandler lx h req auth st)) as [t|[o'|reqCtx]] eqn:Hb.
  - done.
  - rewrite ret_value. intros [= ->]. revert Hb.
    unfold beforeHandler. rewrite !guarded_consumeMany, bind_value.
    destruct (valueOf (consumeMany _ _ _)) as [[e|]|t]; [by intros [= <-]| |done].
    rewrite bind_value.
    destruct (lex_params _ _ _); [done|]. rewrite bind_value.
    destruct (validateInput _ _ _ _); [done|]. rewrite !bind_value, !guarded_consumeMany.
    destruct (valueOf (consumeMany _ _ _)) as [[e|]|t]; [by intros [= <-]|done|done].
  - rewrite invoke_value. destruct (cfg_handler _ _) as [t|out]; [done|].
    destruct out; cbn [respond]; rewrite ?bind_value, ?validateResOutput_value, ?ret_value;
      try (by intros [= <-]).
    + destruct (if h_validateResOutput h then _ else _); [done|by intros [= <-]].
    + destruct (if h_validateResOutput h then _ else _); [done|by intros [= <-]].
Qed.

Lemma runHandler_not_passed lx h req auth st :
  passes (valueOf (runHandler lx h req auth st)) = false.
Proof.
  unfold runHandler. rewrite bind_value, ret_value.
  pose proof (handlerTry_not_passed lx h req auth st) as H.
  destruct (valueOf (handlerTry lx h req auth st)) as [[]|o]; try done.
  by apply H.
Qed.

(** The stack of a route never ends with [next()], nor with a falsy
    error. *)
Lemma runRoute_not_passed s rt req st : passes (valueOf (runRoute s rt req st)) = false.
Proof.
  unfold runRoute. rewrite bind_value.
  assert (Hrest : forall (localsAuth : option Auth) st',
    passes (valueOf
      ((b <- (if decide (rt_verb rt = post) then bodyMiddleware (rt_nsid rt) req
              else ret None) ;;
        match b with
        | Some err => ret (NextErr err)
        | None => runHandler (lex s) (rt_handler rt) req localsAuth
        end)%pipe st')) = false).
  { intros localsAuth st'. rewrite bind_value.
    destruct (decide (rt_verb rt = post)).
    - unfold bodyMiddleware. rewrite bind_value, ret_value.
      destruct (req_bodyError req); [done|]. apply runHandler_not_passed.
    - rewrite ret_value. apply runHandler_not_passed. }
  destruct (rt_auth rt) as [verifier|].
  - unfold authMiddleware. rewrite bind_value, ret_value.
    destruct (verifier req) as [[]|[]]; try done; apply Hrest.
  - rewrite ret_value. apply Hrest.
Qed.

Lemma passes_not_next o : passes o = false -> o <> Next.
Proof. by intros H ->. Qed.

Lemma runHandler_not_next lx h req auth st : valueOf (runHandler lx h req auth st) <> Next.
Proof. apply passes_not_next, runHandler_not_passed. Qed.

Lemma runRoute_not_next s rt req st : valueOf (runRoute s rt req st) <> Next.
Proof. apply passes_not_next, runRoute_not_passed. Qed.

Lemma runRoute_lex s s' rt : lex s = lex s' -> runRoute s rt = runRoute s' rt.
Proof. unfold runRoute. by intros ->. Qed.

Lemma runRoutes_lex s s' rts req : lex s = lex s' -> runRoutes s rts req = runRoutes s' rts req.
Proof.
  intros Hl. induction rts as [|rt rts IH]; [done|]. simpl.
  by rewrite IH, (runRoute_lex s s' rt Hl).
Qed.

Lemma runRoutes_unmatched s rts req st :
  Forall (fun rt => routeMatches rt req = false) rts ->
  runRoutes s rts req st = ([], st, Next).
Proof.
  induction 1 as [|rt rts Hrt _ IH]; [done|]. simpl. by rewrite Hrt.
Qed.

(** A layer added behind the others changes nothing when it does not
    match the request, or when a layer before it does. *)
Lemma runRoutes_shadowed s rts extra req : forall st,
  routeMatches extra req = false \/ Exists (fun rt => routeMatches rt req = true) rts ->
  runRoutes s (rts ++ [extra]) req st = runRoutes s rts req st.
Proof.
  induction rts as [|rt rts IH]; intros st Hcase.
  - destruct Hcase as [Hno|Hex]; [|by apply Exists_nil in Hex]. simpl. by rewrite Hno.
  - simpl. destruct (routeMatches rt req) eqn:Hm.
    + unfold bind. pose proof (runRoute_not_passed s rt req st) as Hn.
      destruct (runRoute s rt req st) as [[t st'] o]. unfold valueOf in Hn. simpl in Hn.
      by rewrite Hn.
    + apply IH. destruct Hcase as [Hno|Hex]; [by left|right].
      apply Exists_cons in Hex as [Hex|Hex]; [congruence|done].
Qed.

Lemma catchall_same s s' req :
  lex s = lex s' -> options s = options s' -> globalRateLimiters s = globalRateLimiters s' ->
  catchall s req = catchall s' req.
Proof. unfold catchall, globalConsumeFns. by intros -> -> ->. Qed.

(** ** Registering twice *)

(** C3, as amended. Registering a second configuration under an id that
    is already registered raises no error. For a subscription id the
    second replaces the first: every later connection to the id runs the
    second handler. For a query or procedure id the second route is
    filed behind the first one in the router: every later request is
    served exactly as it was after the first registration, so a request
    to the id is still served by the first handler. *)
Theorem reregistration s nsid :
  (forall c1 c2 s1 s2,
     addStreamMethod nsid c1 s = inr s1 -> addStreamMethod nsid c2 s1 = inr s2 ->
     forall req, req_methodId req = nsid ->
       exists def, getDef (lex s) nsid = Some def
         /\ upgrade s2 req
            = Some (streamFrames (lex s2) {| ss_nsid := nsid; ss_def := def; ss_cfg := c2 |} req))
  /\ (forall c1 c2 s1,
        addStreamMethod nsid c1 s = inr s1 -> exists s2, addStreamMethod nsid c2 s1 = inr s2)
  /\ (forall c1 c2 s1 s2,
        addMethod nsid c1 s = inr s1 -> addMethod nsid c2 s1 = inr s2 ->
        forall req st, handleRequest s2 req st = handleRequest s1 req st)
  /\ (forall c1 c2 s1,
        addMethod nsid c1 s = inr s1 -> exists s2, addMethod nsid c2 s1 = inr s2).
Proof.
  split; [|split; [|split]].
  - intros c1 c2 s1 s2 H1 H2 req Hreq.
    apply addStreamMethod_inv in H1 as (def & Hdef & _ & ->).
    apply addStreamMethod_inv in H2 as (def' & Hdef' & _ & ->).
    simpl in Hdef'. rewrite Hdef in Hdef'. injection Hdef' as <-.
    exists def. split; [done|]. unfold upgrade. simpl. by rewrite Hreq, lookup_insert_eq.
  - intros c1 c2 s1 H1. apply addStreamMethod_inv in H1 as (def & Hdef & Ht & ->).
    eexists. unfold addStreamMethod. simpl. by rewrite Hdef, Ht.
  - intros c1 c2 s1 s2 H1 H2 req st.
    apply addMethod_inv in H1 as (def & Hdef & _ & ->).
    apply addMethod_inv in H2 as (def' & Hdef' & _ & ->).
    destruct (addRoute_frame nsid def c1 s) as (Hl1 & Ho1 & _ & Hg1 & Hr1).
    set (s1 := addRoute nsid def c1 s) in *.
    destruct (addRoute_frame nsid def' c2 s1) as (Hl2 & Ho2 & _ & Hg2 & Hr2).
    rewrite Hl1, Hdef in Hdef'. injection Hdef' as <-.
    unfold handleRequest, bind.
    rewrite Hr2, (runRoutes_lex _ s1 _ _ Hl2), (catchall_same _ s1 req Hl2 Ho2 Hg2).
    rewrite runRoutes_shadowed; [done|].
    destruct (routeMatches _ req) eqn:Hm; [right|by left].
    rewrite Hr1. apply Exists_app. right. apply Exists_cons. left. exact Hm.
  - intros c1 c2 s1 H1. apply addMethod_inv in H1 as (def & Hdef & Ht & ->).
    destruct (addRoute_frame nsid def c1 s) as (Hl1 & _).
    eexists. unfold addMethod. rewrite Hl1, Hdef. by destruct Ht as [-> | ->].
Qed.

Lemma reregistration_witness :
  let s0 := createServer lexicons (optionsWith None [] []) in
  let first := configOf (answering (json "first")) None [] in
  let second := configOf (answering (json "second")) None [] in
  let req := request "GET" "io.example.ping" in
  handleRequest (method "io.example.ping" second (method "io.example.ping" first s0)) req ∅
  = handleRequest (method "io.example.ping" first s0) req ∅.
Proof.
  intros s0 first second req.
  exact (proj1 (proj2 (proj2 (reregistration s0 "io.example.ping")))
           first second _ _ eq_refl eq_refl req ∅).
Defined.

(** C3, as stated, fails for a query: after a second registration under
    [io.example.ping], which succeeds, a request to the id is answered by
    the first handler. *)
Lemma second_query_handler_not_served :
  let s0 := createServer lexicons (optionsWith None [] []) in
  let first := configOf (answering (json "first")) None [] in
  let second := configOf (answering (json "second")) None [] in
  exists s1 s2,
    addMethod "io.example.ping" first s0 = inr s1
    /\ addMethod "io.example.ping" second s1 = inr s2
    /\ valueOf (handleRequest s2 (request "GET" "io.example.ping") ∅) = Ok200Json "first" []
    /\ valueOf (handleRequest s2 (request "GET" "io.example.ping") ∅) <> Ok200Json "second" [].
Proof.
  intros s0 first second. eexists _, _.
  split; [reflexivity|]. split; [reflexivity|]. split; [by vm_compute|by vm_compute].
Qed.

(** ** The catch-all and the router *)

Lemma consumeMany_events ctx fns st e :
  e ∈ traceOf (consumeMany ctx fns st) ->
  exists fn, fn ∈ fns /\ eventOrigin e = Some (cf_origin fn).
Proof.
  apply (consumesOf_origin fns False). apply consumeMany_consumesOf. by intros [].
Qed.

Lemma unfiled_verb_unmatched s req def :
  routesFiled s -> getDef (lex s) (req_methodId req) = Some def ->
  match verbOf def with
  | get => req_method req <> "GET" /\ req_method req <> "HEAD"
  | post => req_method req <> "POST"
  end ->
  Forall (fun rt => routeMatches rt req = false) (routes s).
Proof.
  intros Hf Hdef Hverb. eapply Forall_impl; [exact Hf|].
  intros rt (def' & Hdef' & Hv). unfold routeMatches.
  destruct (String.eqb (rt_nsid rt) (req_methodId req)) eqn:Hid; [|done].
  apply String.eqb_eq in Hid. rewrite Hid, Hdef in Hdef'. injection Hdef' as <-.
  rewrite Hv. simpl. destruct (verbOf def).
  - destruct Hverb as [H1 H2]. apply String.eqb_neq in H1, H2. by rewrite H1, H2.
  - by apply String.eqb_neq in Hverb.
Qed.


Lemma runRoutes_first s rts req st :
  match List.find (fun rt => routeMatches rt req) rts with
  | Some rt => runRoutes s rts req st = runRoute s rt req st
  | None => runRoutes s rts req st = ([], st, Next)
  end.
Proof.
  induction rts as [|rt rts IH]; [done|]. simpl.
  destruct (routeMatches rt req); [|exact IH].
  unfold bind. pose proof (runRoute_not_passed s rt req st) as Hn.
  destruct (runRoute s rt req st) as [[t st'] o]. unfold valueOf in Hn. simpl in Hn.
  rewrite Hn. unfold ret. by rewrite app_nil_r.
Qed.

Lemma handleRequest_trace s req st :
  traceOf (handleRequest s req st)
  = match firstMatch s req with
    | Some rt => traceOf (runRoute s rt req st)
    | None => traceOf (catchall s req st)
    end.
Proof.
  unfold handleRequest, firstMatch. rewrite !bind_trace, ret_trace, app_nil_r.
  pose proof (runRoutes_first s (routes s) req st) as H.
  pose proof (runRoute_not_passed s) as Hn.
  destruct (List.find _ (routes s)) as [rt|]; rewrite H.
  - by rewrite (Hn rt req st), ret_trace, app_nil_r.
  - done.
Qed.

Lemma catchall_shape s req st :
  exists tc tl,
    traceOf (catchall s req st) = tc ++ tl
    /\ consumesOf (globalConsumeFns s) (tl <> []) tc
    /\ (tl = [] \/ tl = [EvCustomCatchall] \/ tl = [EvGetDef (req_methodId req)]
        \/ tl = [EvGetDef (req_methodId req); EvVerbCheck (req_methodId req)]).
Proof.
  unfold catchall. rewrite bind_trace.
  set (G := consumeMany (basicCtx req) (globalConsumeFns s) st).
  exists (traceOf G).
  destruct (valueOf G) as [[e|]|t] eqn:HG;
    [exists []; rewrite ret_trace; split; [done|]; split; [|by left];
     apply consumeMany_consumesOf; done| |
     exists []; rewrite ret_trace; split; [done|]; split; [|by left];
     apply consumeMany_consumesOf; done].
  assert (HGc : forall P : Prop, consumesOf (globalConsumeFns s) P (traceOf G))
    by (intros; by apply consumeMany_consumesOf).
  destruct (opt_catchall (options s)) as [custom|].
  { exists [EvCustomCatchall]. rewrite bind_trace, emit_trace, ret_trace. auto. }
  rewrite bind_trace, emit_trace.
  destruct (getDef (lex s) (req_methodId req)) as [def|].
  - exists [EvGetDef (req_methodId req); EvVerbCheck (req_methodId req)].
    rewrite bind_trace, emit_trace. split; [|by auto 6].
    do 2 f_equal. by repeat destruct (_ && _).
  - exists [EvGetDef (req_methodId req)]. rewrite ret_trace. auto 6.
Qed.

Lemma runRoute_shape s rt req st :
  exists ta,
    Forall (fun e => e = EvAuth (rt_nsid rt) \/ e = EvBodyIntake (rt_nsid rt)) ta
    /\ (traceOf (runRoute s rt req st) = ta
        \/ exists auth st',
             traceOf (runRoute s rt req st)
             = ta ++ traceOf (runHandler (lex s) (rt_handler rt) req auth st')).
Proof.
  unfold runRoute. rewrite bind_trace.
  match goal with |- context [traceOf (?m st)] => set (A := m st) end.
  assert (HA : Forall (fun e => e = EvAuth (rt_nsid rt) \/ e = EvBodyIntake (rt_nsid rt))
                 (traceOf A)).
  { subst A. destruct (rt_auth rt); [|constructor]. constructor; [by left|constructor]. }
  destruct (valueOf A) as [err|auth].
  { exists (traceOf A). rewrite ret_trace, app_nil_r. auto. }
  rewrite bind_trace.
  match goal with |- context [traceOf (?m (storeOf A))] => set (B := m (storeOf A)) end.
  assert (HB : Forall (fun e => e = EvAuth (rt_nsid rt) \/ e = EvBodyIntake (rt_nsid rt))
                 (traceOf B)).
  { subst B. destruct (decide _); [|constructor]. constructor; [by right|constructor]. }
  exists (traceOf A ++ traceOf B). split; [by apply Forall_app|].
  destruct (valueOf B) as [err|].
  - left. by rewrite ret_trace, app_nil_r.
  - right. exists auth, (storeOf B). by rewrite app_assoc.
Qed.

Lemma auth_rejection_trace s rt req st verifier :
  rt_auth rt = Some verifier -> authRejects verifier req ->
  traceOf (runRoute s rt req st) = [EvAuth (rt_nsid rt)].
Proof.
  intros Ha Hrej. unfold runRoute. rewrite Ha, bind_trace.
  unfold authMiddleware at 1 2. rewrite !bind_trace, !bind_value, emit_trace, ret_trace.
  unfold authRejects in Hrej. unfold ret at 1. unfold valueOf at 1. simpl.
  destruct (verifier req) as [[| | |]|[|]]; try done.
Qed.

Lemma global_origin_present s k :
  k < length (globalRateLimiters s) ->
  exists fn, cf_origin fn = OfGlobal k /\ fn ∈ globalConsumeFns s.
Proof.
  intros Hk. assert (Hin : OfGlobal k ∈ map cf_origin (globalConsumeFns s)).
  { rewrite globalConsumeFns_origins. apply list_elem_of_fmap. exists k. split; [done|].
    apply elem_of_seq. lia. }
  apply list_elem_of_fmap in Hin as (fn & ? & ?). eauto.
Qed.

Lemma globalConsumeFns_nodup s : NoDup (map cf_origin (globalConsumeFns s)).
Proof.
  rewrite globalConsumeFns_origins. apply NoDup_fmap_2; [|apply NoDup_seq].
  intros ?? [= ->]; done.
Qed.

Lemma reachable_pools s :
  Reachable s -> Forall (fun rt => poolsOK s (rt_handler rt)) (routes s).
Proof.
  induction 1 as [lexicons opts|s nsid config s' _ IH Hadd|s nsid config s' _ IH Hadd].
  - constructor.
  - apply addMethod_inv in Hadd as (def & Hdef & _ & ->).
    destruct (addRoute_frame nsid def config s) as (_ & _ & _ & Hg & Hr).
    assert (Hsame : forall h, poolsOK s h -> poolsOK (addRoute nsid def config s) h)
      by (intros h; unfold poolsOK, globalConsumeFns; by rewrite Hg).
    rewrite Hr. apply Forall_app. split.
    + eapply Forall_impl; [exact IH|]. intros rt. apply Hsame.
    + constructor; [|constructor]. apply Hsame. simpl.
      destruct (handler_pools nsid def config s) as (_ & Hp & Hbn & Hpn & Hgl & _).
      repeat split; try done.
      intros fn k Hfn Ho. rewrite Forall_forall in Hp. specialize (Hp fn Hfn).
      unfold originOK in Hp. by rewrite Ho in Hp.
  - apply addStreamMethod_inv in Hadd as (def & _ & _ & ->). exact IH.
Qed.

Lemma runHandler_events lx h req auth st e :
  e ∈ traceOf (runHandler lx h req auth st) ->
  is_Some (eventOrigin e) \/ e ∈ validationEvents (h_nsid h)
  \/ e = EvHandler (h_nsid h) \/ e = EvValidateOutput (h_nsid h).
Proof.
  rewrite runHandler_trace.
  destruct (handlerTry_shape lx h req auth st)
    as (tb & tv & tp & th & -> & Hcb & [k ->] & Hcp & _ & Hth).
  rewrite !elem_of_app. intros [Hin|[Hin|[Hin|Hin]]].
  - destruct (consumesOf_origin _ _ _ _ Hcb Hin) as (fn & _ & ->). left. eauto.
  - right. left. apply elem_of_take in Hin as (j & Hj & _).
    by apply list_elem_of_lookup_2 in Hj.
  - destruct (consumesOf_origin _ _ _ _ Hcp Hin) as (fn & _ & ->). left. eauto.
  - destruct Hth as [->|(th' & -> & HF)]; [by apply elem_of_nil in Hin|].
    apply elem_of_cons in Hin as [->|Hin]; [auto|].
    rewrite Forall_forall in HF. rewrite (HF _ Hin). auto.
Qed.

Lemma runRoute_events s rt req st e :
  e ∈ traceOf (runRoute s rt req st) ->
  e = EvAuth (rt_nsid rt) \/ e = EvBodyIntake (rt_nsid rt)
  \/ is_Some (eventOrigin e) \/ e ∈ validationEvents (h_nsid (rt_handler rt))
  \/ e = EvHandler (h_nsid (rt_handler rt)) \/ e = EvValidateOutput (h_nsid (rt_handler rt)).
Proof.
  intros Hin. destruct (runRoute_shape s rt req st) as (ta & Hta & [Ht | (auth & st' & Ht)]);
    rewrite Ht in Hin; rewrite Forall_forall in Hta.
  - destruct (Hta e Hin); auto.
  - apply elem_of_app in Hin as [Hin|Hin].
    + destruct (Hta e Hin); auto.
    + apply runHandler_events in Hin. tauto.
Qed.

Lemma catchall_events s req st e :
  e ∈ traceOf (catchall s req st) ->
  is_Some (eventOrigin e) \/ e = EvCustomCatchall
  \/ e = EvGetDef (req_methodId req) \/ e = EvVerbCheck (req_methodId req).
Proof.
  destruct (catchall_shape s req st) as (tc & tl & -> & Hc & Hl). intros He.
  apply elem_of_app in He as [He|He].
  - apply (consumesOf_origin _ _ _ _ Hc) in He as (fn & _ & ->). left. eauto.
  - right. destruct Hl as [-> | [-> | [-> | ->]]].
    + by apply elem_of_nil in He.
    + apply list_elem_of_singleton in He. auto.
    + apply list_elem_of_singleton in He. auto.
    + apply elem_of_cons in He as [-> | He]; [auto|].
      apply list_elem_of_singleton in He. auto.
Qed.

Lemma handleRequest_unmatched s req st :
  firstMatch s req = None ->
  valueOf (handleRequest s req st) = finish (valueOf (catchall s req st))
  /\ traceOf (handleRequest s req st) = traceOf (catchall s req st)
  /\ storeOf (handleRequest s req st) = storeOf (catchall s req st).
Proof.
  intros Hf. unfold handleRequest, firstMatch in *.
  pose proof (runRoutes_first s (routes s) req st) as H. rewrite Hf in H.
  unfold bind, valueOf, traceOf, storeOf. rewrite H. cbn [passes].
  destruct (catchall s req st) as [[t st'] o]. simpl. by rewrite app_nil_r.
Qed.

Lemma handleRequest_matched s req st rt :
  firstMatch s req = Some rt ->
  handleRequest s req st
  = (traceOf (runRoute s rt req st), storeOf (runRoute s rt req st),
     finish (valueOf (runRoute s rt req st))).
Proof.
  intros Hf. unfold handleRequest, firstMatch in *.
  pose proof (runRoutes_first s (routes s) req st) as H. rewrite Hf in H.
  pose proof (runRoute_not_passed s rt req st) as Hn.
  unfold bind, valueOf, traceOf, storeOf in *. rewrite H.
  destruct (runRoute s rt req st) as [[t st'] o]. simpl in *. rewrite Hn.
  unfold ret. simpl. by rewrite !app_nil_r.
Qed.

(** ** Global limiters *)

(** In a list without repetition that starts with the origins of the
    global limiters, the debits made before the one of global limiter
    [k] are those of the global limiters before it, in their order. *)
Lemma global_debit_prefix s fns rest (P : Prop) tb l e l2 k :
  fns = globalConsumeFns s ++ rest ->
  NoDup (map cf_origin fns) ->
  consumesOf fns P tb ->
  k < length (globalRateLimiters s) ->
  tb = l ++ e :: l2 ->
  eventOrigin e = Some (OfGlobal k) ->
  map eventOrigin l = map (fun j => Some (OfGlobal j)) (seq 0 k).
Proof.
  intros -> Hnd (n & Hn & _) Hk -> He.
  rewrite map_app, globalConsumeFns_origins in Hnd.
  rewrite !map_app, globalConsumeFns_origins in Hn.
  set (G := length (globalRateLimiters s)) in *.
  set (full := map OfGlobal (seq 0 G) ++ map cf_origin rest) in *.
  simpl in Hn. rewrite He in Hn.
  assert (Hat : full !! length l = Some (OfGlobal k)).
  { assert (H : map Some (take n full) !! length (map eventOrigin l)
                = Some (Some (OfGlobal k))) by (rewrite <- Hn; by apply list_lookup_middle).
    rewrite length_map, list_lookup_fmap in H.
    destruct (take n full !! length l) as [o|] eqn:Ho; [|done].
    injection H as [= ->]. by apply lookup_take_Some in Ho as [? _]. }
  assert (Hk' : full !! k = Some (OfGlobal k)).
  { unfold full. rewrite lookup_app_l by (rewrite length_map, length_seq; lia).
    rewrite list_lookup_fmap, lookup_seq_lt by lia. done. }
  assert (Hlen : length l = k) by (eapply NoDup_lookup; eauto).
  assert (Hn' : k < n).
  { assert (H : length (map eventOrigin l ++ Some (OfGlobal k) :: map eventOrigin l2)
                <= n) by (rewrite Hn, length_map, length_take; lia).
    rewrite length_app, length_map in H. simpl in H. lia. }
  assert (Hpre : map eventOrigin l = take k (map Some (take n full))).
  { rewrite <- Hn, <- Hlen, <- (length_map eventOrigin l). by rewrite take_app_length. }
  rewrite Hpre, <- fmap_take, take_take, Nat.min_l by lia.
  unfold full. rewrite take_app_le by (rewrite length_map, length_seq; lia).
  rewrite <- fmap_take, take_seq, Nat.min_l by lia.
  by rewrite map_map.
Qed.

(** C4, as amended. On a server built by the constructor and the
    registration methods, whatever the request: a global limiter is
    consumed at most once. Its debit comes after the debits of the global
    limiters listed before it, in their order, and, when a route matches
    the request, after that route's authentication and body intake;
    nothing else precedes it, so global limiter [k] is the handler's
    limiter number [k]. When the request gets as far as the custom
    catch-all or the definition lookup (no route matched), or as
    parameter decoding (a route matched), every global limiter has been
    consumed exactly once by then. A request that a route matches does
    not reach the catch-all: neither its custom handler, nor its
    definition lookup, nor its verb check. When a route matches and its
    authentication rejects the request, no limiter is consumed at all. *)
Theorem global_limiters_once s req st k :
  Reachable s ->
  k < length (globalRateLimiters s) ->
  let tr := traceOf (handleRequest s req st) in
  let o := OfGlobal k in
  timesConsumed o tr <= 1
  /\ (forall pre e post, tr = pre ++ e :: post -> eventOrigin e = Some o ->
        exists ta tg,
          pre = ta ++ tg
          /\ map eventOrigin tg = map (fun j => Some (OfGlobal j)) (seq 0 k)
          /\ match firstMatch s req with
             | Some rt =>
                 Forall (fun e' => e' = EvAuth (rt_nsid rt) \/ e' = EvBodyIntake (rt_nsid rt)) ta
             | None => ta = []
             end)
  /\ ((exists id, EvGetDef id ∈ tr) \/ EvCustomCatchall ∈ tr
      \/ (exists id, EvDecodeParams id ∈ tr) ->
      timesConsumed o tr = 1)
  /\ (forall rt, firstMatch s req = Some rt ->
        (EvCustomCatchall ∉ tr)
        /\ forall id, (EvGetDef id ∉ tr) /\ (EvVerbCheck id ∉ tr))
  /\ (forall rt verifier,
        firstMatch s req = Some rt -> rt_auth rt = Some verifier ->
        authRejects verifier req ->
        tr = [EvAuth (rt_nsid rt)] /\ timesConsumed o tr = 0).
Proof.
  intros Hreach Hk tr o. subst tr. rewrite handleRequest_trace.
  destruct (global_origin_present s k Hk) as (gfn & Hgo & Hgin).
  destruct (firstMatch s req) as [rt|] eqn:Hfirst.
  - assert (Hpools : poolsOK s (rt_handler rt)).
    { apply List.find_some in Hfirst as [Hin _]. apply list_elem_of_In in Hin.
      pose proof (reachable_pools s Hreach) as HF. rewrite Forall_forall in HF. auto. }
    destruct Hpools as (Hbn & Hpn & Hpg & [rest Hgb]).
    assert (Hnp : forall fn, fn ∈ h_paramRlFns (rt_handler rt) -> cf_origin fn <> o)
      by (intros fn Hfn; by apply Hpg).
    assert (Hinst : exists fn, cf_origin fn = o /\ fn ∈ h_basicRlFns (rt_handler rt)).
    { exists gfn. split; [done|]. rewrite Hgb. apply elem_of_app. by left. }
    destruct (runRoute_shape s rt req st) as (ta & Hta & Htr).
    assert (Hta0 : forall e, e ∈ ta -> eventOrigin e = None
                                       /\ (forall id, e <> EvGetDef id)
                                       /\ e <> EvCustomCatchall
                                       /\ (forall id, e <> EvDecodeParams id)).
    { intros e He. rewrite Forall_forall in Hta. by destruct (Hta e He) as [-> | ->]. }
    assert (Hcta : timesConsumed o ta = 0)
      by (apply timesConsumed_silent; intros e He; by apply Hta0).
    split; [|split; [|split; [|split]]].
    + destruct Htr as [->|(auth & st' & ->)]; [lia|].
      rewrite timesConsumed_app, Hcta.
      by destruct (basic_phase (lex s) (rt_handler rt) req auth st' o Hbn Hnp) as (_ & ? & _).
    + intros pre e post Heq He.
      destruct Htr as [Htr|(auth & st' & Htr)]; rewrite Htr in Heq.
      * assert (Hin : e ∈ ta) by (rewrite Heq; apply elem_of_app; right; by left).
        apply Hta0 in Hin as [Hin _]. congruence.
      * symmetry in Heq. apply split_in_app in Heq as [(l & Hl & _)|(l & Hl & Hrest)].
        { assert (Hin : e ∈ ta) by (rewrite Hl; apply elem_of_app; right; by left).
          apply Hta0 in Hin as [Hin _]. congruence. }
        exists ta, l. split; [done|]. split; [|done].
        rewrite runHandler_trace in Hrest.
        destruct (handlerTry_shape (lex s) (rt_handler rt) req auth st')
          as (tb & tv & tp & th & Hshape & Hcb & [kv Hkv] & Hcp & _ & Hth).
        rewrite Hshape in Hrest. symmetry in Hrest.
        apply split_in_app in Hrest as [(l2 & Hl2 & _)|(l2 & _ & Hrest)].
        { eapply (global_debit_prefix s _ rest); eauto. }
        exfalso. assert (Hin : e ∈ tv ++ tp ++ th)
          by (rewrite Hrest; apply elem_of_app; right; by left).
        rewrite !elem_of_app in Hin. destruct Hin as [Hin|[Hin|Hin]].
        -- rewrite Hkv in Hin. apply elem_of_take in Hin as (j & Hj & _).
           apply list_elem_of_lookup_2 in Hj. unfold validationEvents in Hj.
           repeat (apply elem_of_cons in Hj as [->|Hj]; [done|]). by apply elem_of_nil in Hj.
        -- destruct (consumesOf_origin _ _ _ _ Hcp Hin) as (fn & Hfn & Hfo).
           rewrite Hfo in He. injection He as He. by apply (Hnp fn Hfn).
        -- destruct Hth as [->|(th' & -> & HF)]; [by apply elem_of_nil in Hin|].
           apply elem_of_cons in Hin as [->|Hin]; [done|].
           rewrite Forall_forall in HF. by rewrite (HF _ Hin) in He.
    + intros Hfar. destruct Htr as [Htr|(auth & st' & Htr)]; rewrite Htr in *.
      * exfalso. destruct Hfar as [[id Hin]|[Hin|[id Hin]]];
          apply Hta0 in Hin as (_ & H1 & H2 & H3); [by apply (H1 id)|done|by apply (H3 id)].
      * rewrite timesConsumed_app, Hcta.
        destruct (basic_phase (lex s) (rt_handler rt) req auth st' o Hbn Hnp) as (_ & _ & Honce).
        apply Honce; [done|].
        assert (Hev := runHandler_events (lex s) (rt_handler rt) req auth st').
        destruct Hfar as [[id Hin]|[Hin|[id Hin]]]; apply elem_of_app in Hin as [Hin|Hin].
        -- apply Hta0 in Hin as (_ & H1 & _). by destruct (H1 id).
        -- destruct (Hev _ Hin) as [[? H]|[H|[H|H]]]; try done.
           unfold validationEvents in H.
           repeat (apply elem_of_cons in H as [H|H]; [done|]). by apply elem_of_nil in H.
        -- by apply Hta0 in Hin as (_ & _ & H2 & _).
        -- destruct (Hev _ Hin) as [[? H]|[H|[H|H]]]; try done.
           unfold validationEvents in H.
           repeat (apply elem_of_cons in H as [H|H]; [done|]). by apply elem_of_nil in H.
        -- apply Hta0 in Hin as (_ & _ & _ & H3). by destruct (H3 id).
        -- destruct (Hev _ Hin) as [[? H]|[H|[H|H]]]; try done.
           unfold validationEvents in H.
           apply elem_of_cons in H as [H|H]; [by rewrite <- H|].
           repeat (apply elem_of_cons in H as [H|H]; [done|]). by apply elem_of_nil in H.
    + intros rt' [= <-].
      assert (Hno : forall e, e ∈ traceOf (runRoute s rt req st) ->
                e <> EvCustomCatchall /\ forall id, e <> EvGetDef id /\ e <> EvVerbCheck id).
      { intros e He. apply runRoute_events in He.
        destruct He as [-> | [-> | [[x Hx] | [He | [-> | ->]]]]]; try done.
        - by destruct e.
        - unfold validationEvents in He.
          repeat (apply elem_of_cons in He as [->|He]; [done|]). by apply elem_of_nil in He. }
      split; [intros Hin; by apply Hno in Hin as [? _]|].
      intros id. split; intros Hin; apply Hno in Hin as [_ Hin]; by destruct (Hin id).
    + intros rt' verifier [= <-] Ha Hrej.
      rewrite (auth_rejection_trace s rt req st verifier Ha Hrej). split; [done|].
      by apply timesConsumed_silent; intros e He; apply list_elem_of_singleton in He as ->.
  - destruct (catchall_shape s req st) as (tc & tl & -> & Hc & Htl).
    assert (Htl0 : forall e, e ∈ tl -> eventOrigin e = None /\ forall id, e <> EvDecodeParams id).
    { intros e He.
      destruct Htl as [-> | [-> | [-> | ->]]];
        repeat (apply elem_of_cons in He as [->|He]; [done|]); by apply elem_of_nil in He. }
    assert (Htc : forall e, e ∈ tc -> is_Some (eventOrigin e)).
    { intros e He. destruct (consumesOf_origin _ _ _ _ Hc He) as (fn & _ & ->). eauto. }
    assert (Hcount : timesConsumed o (tc ++ tl) = timesConsumed o tc).
    { rewrite timesConsumed_app, (timesConsumed_silent o tl); [lia|].
      intros e He. by apply Htl0. }
    split; [|split; [|split; [|split]]]; try done.
    + rewrite Hcount. eapply count_at_most_once; [exact Hc|apply globalConsumeFns_nodup].
    + intros pre e post Heq He. exists [], pre. split; [done|]. split; [|done].
      symmetry in Heq. apply split_in_app in Heq as [(l & Hl & _)|(l & _ & Hrest)].
      * eapply (global_debit_prefix s (globalConsumeFns s) []); eauto.
        -- by rewrite app_nil_r.
        -- apply globalConsumeFns_nodup.
      * assert (Hin : e ∈ tl) by (rewrite Hrest; apply elem_of_app; right; by left).
        apply Htl0 in Hin as [Hin _]. congruence.
    + intros Hfar. assert (Hne : tl <> []).
      { intros ->. rewrite app_nil_r in Hfar.
        destruct Hfar as [[id Hin]|[Hin|[id Hin]]]; by apply Htc in Hin as [? ?]. }
      rewrite Hcount. destruct Hc as (n & _ & Hfull).
      apply (count_full (globalConsumeFns s)); [auto|apply globalConsumeFns_nodup|eauto].
Qed.

Lemma global_limiters_once_witness :
  let s := method "io.example.ping" (configOf (answering (json "pong")) None [])
             (createServer lexicons (optionsWith None [limitOf "global" 100] [])) in
  timesConsumed (OfGlobal 0)
    (traceOf (handleRequest s (request "GET" "io.example.unknown") ∅)) = 1.
Proof.
  intros s.
  assert (Hs : Reachable s).
  { apply (reach_method (createServer lexicons (optionsWith None [limitOf "global" 100] []))
             "io.example.ping" (configOf (answering (json "pong")) None []));
      [apply reach_create|reflexivity]. }
  destruct (global_limiters_once s (request "GET" "io.example.unknown") ∅ 0 Hs)
    as (_ & _ & H & _); [vm_compute; lia|].
  apply H. left. exists "io.example.unknown". vm_compute. repeat constructor.
Defined.

(** C4, as stated, fails on a request that a route's authentication
    rejects: the server has one global limiter, and the request is
    answered without that limiter being consumed or the store touched. *)
Lemma rejected_request_consumes_no_global :
  let s := method "io.example.ping"
             (configOf (answering (json "pong")) (Some rejectingAuth) [])
             (createServer lexicons (optionsWith None [limitOf "global" 100] [])) in
  let r := handleRequest s (request "GET" "io.example.ping") ∅ in
  length (globalRateLimiters s) = 1
  /\ traceOf r = [EvAuth "io.example.ping"]
  /\ timesConsumed (OfGlobal 0) (traceOf r) = 0
  /\ storeOf r = ∅
  /\ valueOf r = ErrorResponse AuthRequired
                   {| p_error := Some "AuthenticationRequired";
                      p_message := Some "Bad token" |}.
Proof. intros s r. repeat split; by vm_compute. Qed.

(** ** Verbs *)

(** C8, as amended. On a server built by the constructor and the
    registration methods, without a custom catch-all, take a request
    other than OPTIONS to an id whose definition is [def] and which the
    global limiters let through. If [def] is a procedure and the verb is
    not POST (so for GET), or [def] is a query and the verb is neither
    GET nor HEAD (so for POST), the answer is an InvalidRequest error
    whose message names the verb that was expected, and no handler is
    called. A HEAD request to a query gets that answer only when no route
    is registered for the id; when one is, the request is served by the
    stack of that route, filed under GET, and the verb check of the
    catch-all is never reached. *)
Theorem verb_mismatch s req st def :
  Reachable s ->
  getDef (lex s) (req_methodId req) = Some def ->
  opt_catchall (options s) = None ->
  valueOf (consumeMany (basicCtx req) (globalConsumeFns s) st) = None ->
  req_method req <> "OPTIONS" ->
  let r := handleRequest s req st in
  let invalid expected :=
    ErrorResponse InvalidRequest
      {| p_error := Some "InvalidRequest";
         p_message := Some ("Incorrect HTTP method (" +:+ req_method req +:+ ") expected "
                            +:+ expected) |} in
  (def_type def = query -> req_method req <> "GET" ->
     req_method req <> "HEAD" \/ firstMatch s req = None ->
     valueOf r = invalid "GET" /\ forall nsid, EvHandler nsid ∉ traceOf r)
  /\ (def_type def = procedure -> req_method req <> "POST" ->
        valueOf r = invalid "POST" /\ forall nsid, EvHandler nsid ∉ traceOf r)
  /\ (def_type def = query -> req_method req = "HEAD" ->
        (exists rt0, rt0 ∈ routes s /\ rt_nsid rt0 = req_methodId req) ->
        exists rt,
          firstMatch s req = Some rt
          /\ rt_nsid rt = req_methodId req /\ rt_verb rt = get
          /\ r = (traceOf (runRoute s rt req st), storeOf (runRoute s rt req st),
                  finish (valueOf (runRoute s rt req st)))
          /\ forall id, EvVerbCheck id ∉ traceOf r).
Proof.
  intros Hreach Hdef Hcustom Hpass _ r invalid.
  pose proof (reachable_routesFiled s Hreach) as Hfiled.
  assert (Hcatch : valueOf (catchall s req st)
            = if bool_decide (def_type def = query) && negb (String.eqb (req_method req) "GET")
              then NextErr (ThXrpc (incorrectMethod (req_method req) "GET"))
              else if bool_decide (def_type def = procedure)
                      && negb (String.eqb (req_method req) "POST")
                   then NextErr (ThXrpc (incorrectMethod (req_method req) "POST"))
                   else Next).
  { unfold catchall. rewrite bind_value, Hpass, Hcustom, bind_value, Hdef, bind_value.
    by repeat destruct (_ && _). }
  assert (Hrun : forall expected,
            firstMatch s req = None ->
            valueOf (catchall s req st)
            = NextErr (ThXrpc (incorrectMethod (req_method req) expected)) ->
            valueOf r = invalid expected /\ forall nsid, EvHandler nsid ∉ traceOf r).
  { intros expected Hnone Hc. subst r.
    destruct (handleRequest_unmatched s req st Hnone) as (Hv & Ht & _).
    rewrite Hv, Ht, Hc. split; [done|].
    intros nsid Hin. apply catchall_events in Hin as [[? Hin]|[Hin|[Hin|Hin]]]; done. }
  assert (Hunmatched : match verbOf def with
                       | get => req_method req <> "GET" /\ req_method req <> "HEAD"
                       | post => req_method req <> "POST"
                       end -> firstMatch s req = None).
  { intros Hverb. unfold firstMatch.
    pose proof (unfiled_verb_unmatched s req def Hfiled Hdef Hverb) as HF.
    destruct (List.find _ (routes s)) as [rt|] eqn:Hfind; [|done].
    apply List.find_some in Hfind as [Hin Hm]. apply list_elem_of_In in Hin.
    rewrite Forall_forall in HF. by rewrite (HF rt Hin) in Hm. }
  assert (Hquery : def_type def = query -> verbOf def = get).
  { intros Hq. unfold verbOf. rewrite Hq. by destruct (decide _). }
  split; [|split].
  - intros Hq Hget Hhead. apply Hrun.
    + destruct Hhead as [Hhead|Hnone]; [|done]. apply Hunmatched. by rewrite (Hquery Hq).
    + rewrite Hcatch, Hq. apply String.eqb_neq in Hget. by rewrite Hget.
  - intros Hp Hpost. apply Hrun.
    + apply Hunmatched. unfold verbOf. rewrite Hp. by destruct (decide _).
    + rewrite Hcatch, Hp. apply String.eqb_neq in Hpost. by rewrite Hpost.
  - intros Hq Hhead (rt0 & Hin0 & Hid0).
    unfold routesFiled in Hfiled. rewrite Forall_forall in Hfiled.
    assert (Hget : forall rt, rt ∈ routes s -> rt_nsid rt = req_methodId req ->
                     rt_verb rt = get).
    { intros rt Hin Hid. destruct (Hfiled rt Hin) as (def' & Hdef' & ->).
      rewrite Hid, Hdef in Hdef'. injection Hdef' as <-. by apply Hquery. }
    destruct (firstMatch s req) as [rt|] eqn:Hfirst.
    + pose proof Hfirst as Hfind. unfold firstMatch in Hfind.
      apply List.find_some in Hfind as [Hin Hm]. apply list_elem_of_In in Hin.
      unfold routeMatches in Hm. apply andb_prop in Hm as [Hid _].
      apply String.eqb_eq in Hid.
      exists rt. split; [done|]. split; [done|]. split; [by apply Hget|].
      subst r. rewrite (handleRequest_matched s req st rt Hfirst). split; [done|].
      intros id He. change (EvVerbCheck id ∈ traceOf (runRoute s rt req st)) in He.
      apply runRoute_events in He.
      destruct He as [He|[He|[[x He]|[He|[He|He]]]]]; try done.
      unfold validationEvents in He.
      repeat (apply elem_of_cons in He as [He|He]; [done|]). by apply elem_of_nil in He.
    + exfalso. unfold firstMatch in Hfirst.
      apply list_elem_of_In in Hin0.
      pose proof (List.find_none _ _ Hfirst rt0 Hin0) as Hm. simpl in Hm.
      apply list_elem_of_In in Hin0.
      unfold routeMatches in Hm.
      rewrite Hid0, String.eqb_refl, (Hget rt0 Hin0 Hid0), Hhead in Hm. done.
Qed.

Lemma verb_mismatch_witness :
  let config := configOf (answering (json "pong")) None [] in
  let s := method "io.example.post" config
             (method "io.example.ping" config
                (createServer lexicons (optionsWith None [limitOf "global" 100] []))) in
  valueOf (handleRequest s (request "POST" "io.example.ping") ∅)
  = ErrorResponse InvalidRequest
      {| p_error := Some "InvalidRequest";
         p_message := Some "Incorrect HTTP method (POST) expected GET" |}
  /\ valueOf (handleRequest s (request "GET" "io.example.post") ∅)
     = ErrorResponse InvalidRequest
         {| p_error := Some "InvalidRequest";
            p_message := Some "Incorrect HTTP method (GET) expected POST" |}
  /\ valueOf (handleRequest s (request "HEAD" "io.example.post") ∅)
     = ErrorResponse InvalidRequest
         {| p_error := Some "InvalidRequest";
            p_message := Some "Incorrect HTTP method (HEAD) expected POST" |}
  /\ (exists rt,
        firstMatch s (request "HEAD" "io.example.ping") = Some rt
        /\ rt_verb rt = get
        /\ valueOf (handleRequest s (request "HEAD" "io.example.ping") ∅)
           = Ok200Json "pong" []).
Proof.
  intros config s.
  assert (Hs : Reachable s).
  { apply (reach_method (method "io.example.ping" config
                           (createServer lexicons (optionsWith None [limitOf "global" 100] [])))
             "io.example.post" config); [|reflexivity].
    apply (reach_method (createServer lexicons (optionsWith None [limitOf "global" 100] []))
             "io.example.ping" config); [apply reach_create|reflexivity]. }
  split; [|split; [|split]].
  - destruct (verb_mismatch s (request "POST" "io.example.ping") ∅ (plainDef query) Hs)
      as [H _]; [by vm_compute|by vm_compute|by vm_compute|discriminate|].
    destruct H as [H _]; [reflexivity|discriminate|left; discriminate|]. exact H.
  - destruct (verb_mismatch s (request "GET" "io.example.post") ∅ (plainDef procedure) Hs)
      as (_ & H & _); [by vm_compute|by vm_compute|by vm_compute|discriminate|].
    destruct H as [H _]; [reflexivity|discriminate|]. exact H.
  - destruct (verb_mismatch s (request "HEAD" "io.example.post") ∅ (plainDef procedure) Hs)
      as (_ & H & _); [by vm_compute|by vm_compute|by vm_compute|discriminate|].
    destruct H as [H _]; [reflexivity|discriminate|]. exact H.
  - destruct (verb_mismatch s (request "HEAD" "io.example.ping") ∅ (plainDef query) Hs)
      as (_ & _ & H); [by vm_compute|by vm_compute|by vm_compute|discriminate|].
    destruct H as (rt & Hf & _ & Hv & Hr & _); [reflexivity|reflexivity| |].
    + vm_compute. eexists. split; [left|reflexivity].
    + exists rt. split; [exact Hf|]. split; [exact Hv|].
      rewrite Hr. vm_compute in Hf. injection Hf as <-. by vm_compute.
Defined.

(** C8, as stated, fails on a server with a custom catch-all: a POST to
    a registered query id is handed to the custom catch-all, before any
    definition lookup or verb check, and gets its answer. *)
Lemma custom_catchall_takes_verb_mismatch :
  let s := method "io.example.ping" (configOf (answering (json "pong")) None [])
             (createServer lexicons proxying) in
  let r := handleRequest s (request "POST" "io.example.ping") ∅ in
  traceOf r = [EvCustomCatchall] /\ valueOf r = CustomResponse "proxied".
Proof. intros s r. split; by vm_compute. Qed.

(** ** Per-method limiters *)

(** The limiter of a per-method spec is created under a key prefix that
    depends on the position of the spec in its list only, not on the
    method id. *)
Lemma per_method_prefix s i d p k c rl :
  createLimiter s i d p k c = Some rl ->
  exists rlo, rateLimits (options s) = Some rlo
    /\ rl = creator rlo {| keyPrefix := "nsid-" +:+ pretty i; durationMs := d; points := p;
                           calcKey := k; calcPoints := c |}.
Proof.
  unfold createLimiter. destruct (rateLimits (options s)) as [rlo|]; [|done].
  intros [= <-]. eauto.
Qed.

(** C5 fails on the code: two methods, each with its own per-method
    limit of one point per window, over a store-backed creator. Both
    limiters debit the row [nsid-0:<key>]: one request to the first
    method uses up the budget of the second, whose first request is then
    rejected, while on a fresh store it is served. *)
Lemma per_method_limiters_collide :
  let limit := RouteRateLimitOpts 60000 1 None None in
  let s := method "io.example.pong" (configOf (answering (json "pong")) None [limit])
             (method "io.example.ping" (configOf (answering (json "ping")) None [limit])
                (createServer lexicons (optionsWith None [] []))) in
  let first := handleRequest s (request "GET" "io.example.ping") ∅ in
  let second := handleRequest s (request "GET" "io.example.pong") (storeOf first) in
  valueOf first = Ok200Json "ping" []
  /\ map_to_list (storeOf first) = [("nsid-0:203.0.113.7", 1%Z)]
  /\ traceOf second = [EvConsume (OfSpec "io.example.pong" 0) "nsid-0:203.0.113.7" 1 false]
  /\ valueOf second = ErrorResponse RateLimitExceeded
                        {| p_error := Some "RateLimitExceeded";
                           p_message := Some "Rate Limit Exceeded" |}
  /\ valueOf (handleRequest s (request "GET" "io.example.pong") ∅) = Ok200Json "pong" [].
Proof. intros limit s first second. repeat split; by vm_compute. Qed.

(** ** The stages of the handler, one by one *)

(** The whole run of the route handler, stage by stage. *)
Lemma runHandler_stages lx h req auth st :
  runHandler lx h req auth st
  = let '(tb, stb, vb) := consumeMany (basicCtx req) (h_basicRlFns h) st in
    match vb with
    | Raised t => (tb, stb, catchThrown (inl t))
    | Returned (Some e) => (tb, stb, NextErr (ThXrpc e))
    | Returned None =>
        match lex_params lx (h_nsid h) (def_decode (h_def h) (req_query req)) with
        | inl msg =>
            (tb ++ [EvDecodeParams (h_nsid h)], stb,
             NextErr (ThXrpc (InvalidRequestError msg)))
        | inr params =>
            match lex_input lx (h_nsid h) req (h_blobLimit h) with
            | inl msg =>
                (tb ++ [EvDecodeParams (h_nsid h); EvParamsValid (h_nsid h)], stb,
                 NextErr (ThXrpc (InvalidRequestError msg)))
            | inr input =>
                let reqCtx := {| ctx_req := req; ctx_params := params;
                                 ctx_input := input; ctx_auth := auth |} in
                let '(tp, stp, vp) := consumeMany reqCtx (h_paramRlFns h) stb in
                match vp with
                | Raised t =>
                    (tb ++ validationEvents (h_nsid h) ++ tp, stp, catchThrown (inl t))
                | Returned (Some e) =>
                    (tb ++ validationEvents (h_nsid h) ++ tp, stp, NextErr (ThXrpc e))
                | Returned None =>
                    let '(th, sth, vh) := invoke lx h reqCtx stp in
                    (tb ++ validationEvents (h_nsid h) ++ tp ++ th, sth, catchThrown vh)
                end
            end
        end
    end.
Proof.
  unfold runHandler, handlerTry, beforeHandler, bind. rewrite guarded_consumeMany.
  destruct (consumeMany (basicCtx req) (h_basicRlFns h) st) as [[tb stb] [[e|]|t]];
    [simpl; by rewrite !app_nil_r| |simpl; by rewrite !app_nil_r].
  unfold emit at 1. cbn iota beta.
  destruct (lex_params _ _ _) as [msg|params]; [simpl; by rewrite !app_nil_r|].
  unfold emit at 1. cbn iota beta. unfold validateInput.
  destruct (lex_input _ _ _ _) as [msg|input]; [simpl; by rewrite !app_nil_r|].
  unfold emit at 1. cbn iota beta zeta. rewrite guarded_consumeMany.
  destruct (consumeMany _ (h_paramRlFns h) stb) as [[tp stp] [[e|]|t]];
    [simpl; by rewrite !app_nil_r| |simpl; by rewrite !app_nil_r].
  cbn iota beta. unfold ret at 1. cbn iota beta.
  destruct (invoke lx h _ stp) as [[th sth] vh]. simpl.
  by rewrite !app_nil_r, <- !app_assoc.
Qed.

(** ** Consume functions on a value that is no limiter *)





(** ** What a registration does to the table and to the pools *)


Lemma setupLimit_table_other nsid i l s name :
  name <> nsid ->
  sharedRateLimiters (setupLimit nsid i l s) !! name = sharedRateLimiters s !! name.
Proof.
  intros Hne. unfold setupLimit. destruct l as [n ck cp|d p ck cp].
  - destruct (tableGet (sharedRateLimiters s) n) as [v|]; [|done].
    unfold pushRouteFn. by destruct (isBasicSpec _).
  - destruct (createLimiter s i d p ck cp) as [rl|]; [|done].
    unfold pushRouteFn. destruct (isBasicSpec _); simpl; by apply table_lookup_set_ne.
Qed.

Lemma setupLimitsFrom_table_other nsid name limits : forall i s,
  name <> nsid ->
  sharedRateLimiters (setupLimitsFrom nsid i limits s) !! name = sharedRateLimiters s !! name.
Proof.
  induction limits as [|l limits IH]; intros i s Hne; [done|]. cbn [setupLimitsFrom].
  by rewrite IH, setupLimit_table_other.
Qed.

Lemma pushFn_default nsid fn fn' (m : gmap string (list RateLimiterConsume)) :
  fn ∈ default [] (m !! nsid) -> fn ∈ default [] (pushFn nsid fn' m !! nsid).
Proof.
  unfold pushFn. rewrite lookup_alter_eq. destruct (m !! nsid); simpl; [|done].
  intros H. apply elem_of_app. by left.
Qed.

Lemma setupLimit_pools_grow nsid i l s fn :
  (fn ∈ default [] (basicRouteRateLimiterFns s !! nsid) ->
   fn ∈ default [] (basicRouteRateLimiterFns (setupLimit nsid i l s) !! nsid))
  /\ (fn ∈ default [] (paramRouteRateLimiterFns s !! nsid) ->
      fn ∈ default [] (paramRouteRateLimiterFns (setupLimit nsid i l s) !! nsid)).
Proof.
  unfold setupLimit. destruct l as [n ck cp|d p ck cp].
  - destruct (tableGet (sharedRateLimiters s) n) as [v|]; [|done].
    unfold pushRouteFn. destruct (isBasicSpec _); simpl; split; try done;
      apply pushFn_default.
  - destruct (createLimiter s i d p ck cp) as [rl|]; [|done].
    unfold pushRouteFn. destruct (isBasicSpec _); simpl; split; try done;
      apply pushFn_default.
Qed.

Lemma setupLimitsFrom_pools_grow nsid limits fn : forall i s,
  (fn ∈ default [] (basicRouteRateLimiterFns s !! nsid) ->
   fn ∈ default [] (basicRouteRateLimiterFns (setupLimitsFrom nsid i limits s) !! nsid))
  /\ (fn ∈ default [] (paramRouteRateLimiterFns s !! nsid) ->
      fn ∈ default [] (paramRouteRateLimiterFns (setupLimitsFrom nsid i limits s) !! nsid)).
Proof.
  induction limits as [|l limits IH]; intros i s; [done|]. cbn [setupLimitsFrom].
  destruct (IH (S i) (setupLimit nsid i l s)) as [Hb Hp].
  destruct (setupLimit_pools_grow nsid i l s fn) as [Hb' Hp']. split; auto.
Qed.

Lemma setupLimit_present nsid i l s :
  is_Some (basicRouteRateLimiterFns s !! nsid) ->
  is_Some (paramRouteRateLimiterFns s !! nsid) ->
  is_Some (basicRouteRateLimiterFns (setupLimit nsid i l s) !! nsid)
  /\ is_Some (paramRouteRateLimiterFns (setupLimit nsid i l s) !! nsid).
Proof.
  intros [fb Hb] [fp Hp]. unfold setupLimit. destruct l as [n ck cp|d p ck cp].
  - destruct (tableGet (sharedRateLimiters s) n) as [v|]; [|eauto].
    unfold pushRouteFn, pushFn. destruct (isBasicSpec _); simpl;
      rewrite ?lookup_alter_eq, ?Hb, ?Hp; simpl; eauto.
  - destruct (createLimiter s i d p ck cp) as [rl|]; [|eauto].
    unfold pushRouteFn, pushFn. destruct (isBasicSpec _); simpl;
      rewrite ?lookup_alter_eq, ?Hb, ?Hp; simpl; eauto.
Qed.

Lemma pushRouteFn_installs nsid l fn s :
  is_Some (basicRouteRateLimiterFns s !! nsid) ->
  is_Some (paramRouteRateLimiterFns s !! nsid) ->
  fn ∈ (if isBasicSpec l
        then default [] (basicRouteRateLimiterFns (pushRouteFn nsid l fn s) !! nsid)
        else default [] (paramRouteRateLimiterFns (pushRouteFn nsid l fn s) !! nsid)).
Proof.
  intros [fb Hb] [fp Hp]. unfold pushRouteFn, pushFn.
  destruct (isBasicSpec l); simpl; rewrite lookup_alter_eq, ?Hb, ?Hp; simpl;
    apply elem_of_app; right; by apply list_elem_of_singleton.
Qed.

(** A shared spec whose name the table knows gets a consume function on
    what the table gives under the name, limiter or not, as long as the
    registration does not change what the table gives there. *)
Lemma setupLimitsFrom_shared nsid name ck cp v limits : forall b s j,
  limits !! j = Some (SharedRateLimitOpts name ck cp) ->
  (forall i l s', tableGet (sharedRateLimiters s') name = Some v ->
     tableGet (sharedRateLimiters (setupLimit nsid i l s')) name = Some v) ->
  tableGet (sharedRateLimiters s) name = Some v ->
  is_Some (basicRouteRateLimiterFns s !! nsid) ->
  is_Some (paramRouteRateLimiterFns s !! nsid) ->
  specConsumeFn nsid (b + j) (SharedRateLimitOpts name ck cp) v
  ∈ (if isBasicSpec (SharedRateLimitOpts name ck cp)
     then default [] (basicRouteRateLimiterFns (setupLimitsFrom nsid b limits s) !! nsid)
     else default [] (paramRouteRateLimiterFns (setupLimitsFrom nsid b limits s) !! nsid)).
Proof.
  induction limits as [|l limits IH]; intros b s j Hj Hstable Hv Hb Hp; [done|].
  cbn [setupLimitsFrom]. destruct j as [|j].
  - injection Hj as ->. rewrite Nat.add_0_r.
    assert (Hin : specConsumeFn nsid b (SharedRateLimitOpts name ck cp) v
              ∈ (if isBasicSpec (SharedRateLimitOpts name ck cp)
                 then default [] (basicRouteRateLimiterFns
                        (setupLimit nsid b (SharedRateLimitOpts name ck cp) s) !! nsid)
                 else default [] (paramRouteRateLimiterFns
                        (setupLimit nsid b (SharedRateLimitOpts name ck cp) s) !! nsid))).
    { unfold setupLimit. rewrite Hv. by apply pushRouteFn_installs. }
    destruct (setupLimitsFrom_pools_grow nsid limits
                (specConsumeFn nsid b (SharedRateLimitOpts name ck cp) v) (S b)
                (setupLimit nsid b (SharedRateLimitOpts name ck cp) s)) as [Hgb Hgp].
    destruct (isBasicSpec _); auto.
  - replace (b + S j) with (S b + j) by lia.
    destruct (setupLimit_present nsid b l s Hb Hp) as [Hb' Hp'].
    apply IH; auto.
Qed.

Lemma handler_shared_spec s nsid def config i name ck cp v :
  cfg_rateLimit config !! i = Some (SharedRateLimitOpts name ck cp) ->
  (forall i l s', tableGet (sharedRateLimiters s') name = Some v ->
     tableGet (sharedRateLimiters (setupLimit nsid i l s')) name = Some v) ->
  tableGet (sharedRateLimiters s) name = Some v ->
  let h := createHandler (setupRouteRateLimits nsid config s) nsid def config in
  let fn := {| cf_origin := OfSpec nsid i; cf_limiter := v;
               cf_opts := {| co_calcKey := ck; co_calcPoints := cp |} |} in
  (ck = None -> cp = None -> fn ∈ h_basicRlFns h)
  /\ (is_Some ck \/ is_Some cp -> fn ∈ h_paramRlFns h).
Proof.
  intros Hi Hstable Hv h fn. subst h fn. unfold setupRouteRateLimits. cbn zeta.
  match goal with
  | |- context [setupLimitsFrom nsid 0 _ ?s2] =>
      pose proof (setupLimitsFrom_shared nsid name ck cp v (cfg_rateLimit config) 0 s2 i
                    Hi Hstable Hv) as H
  end.
  simpl in H. rewrite !lookup_insert_eq in H.
  specialize (H ltac:(eauto) ltac:(eauto)).
  unfold createHandler. simpl. split.
  - intros -> ->. exact H.
  - intros Hsome. assert (Hb : isBasicSpec (SharedRateLimitOpts name ck cp) = false)
      by (by apply isBasicSpec_false).
    rewrite Hb in H. exact H.
Qed.

(** ** Shared specs without a limiter *)





(** * Further properties of [server.ts] *)

(** ** [setHeaders] *)

(** X1. [setHeaders] sets exactly the headers whose value is not null,
    in the order of the result's [headers], each once per entry. *)
Theorem setHeaders_non_null (headers : list (string * option string)) :
  map (fun h => (fst h, Some (snd h))) (setHeaders headers)
  = filter (fun h => is_Some (snd h)) headers
  /\ (forall n v, (n, v) ∈ setHeaders headers <-> (n, Some v) ∈ headers).
Proof.
  split.
  - induction headers as [|[n [v|]] hs IH]; [done| |].
    + rewrite filter_cons_True by (simpl; eauto). simpl. by rewrite <- IH.
    + rewrite filter_cons_False by (simpl; by intros [? ?]). exact IH.
  - intros n v. unfold setHeaders. rewrite list_elem_of_omap. split.
    + intros ([n' [v'|]] & Hin & Heq); simpl in Heq; [|done].
      by injection Heq as -> ->.
    + intros Hin. by exists (n, Some v).
Qed.

(** ** Registration by kind *)

(** X2. [addMethod] accepts an id exactly when its definition is a query
    or a procedure, [addStreamMethod] exactly when it is a subscription;
    an id without definition is refused by both, with the error that
    names the id, and no id is accepted by both. *)
Theorem registration_by_kind s nsid config sconfig :
  ((exists s', addMethod nsid config s = inr s')
   <-> exists def, getDef (lex s) nsid = Some def
                   /\ (def_type def = query \/ def_type def = procedure))
  /\ ((exists s', addStreamMethod nsid sconfig s = inr s')
      <-> exists def, getDef (lex s) nsid = Some def /\ def_type def = subscription)
  /\ (getDef (lex s) nsid = None ->
      addMethod nsid config s
      = inl ("Lex def for " +:+ nsid +:+ " is not a query or a procedure")
      /\ addStreamMethod nsid sconfig s
         = inl ("Lex def for " +:+ nsid +:+ " is not a subscription"))
  /\ ~ ((exists s', addMethod nsid config s = inr s')
        /\ (exists s', addStreamMethod nsid sconfig s = inr s')).
Proof.
  split; [|split; [|split]].
  - split.
    + intros [s' H]. apply addMethod_inv in H as (def & ? & ? & _). eauto.
    + intros (def & Hd & Ht). unfold addMethod. rewrite Hd. destruct Ht as [-> | ->]; eauto.
  - split.
    + intros [s' H]. apply addStreamMethod_inv in H as (def & ? & ? & _). eauto.
    + intros (def & Hd & Ht). unfold addStreamMethod. rewrite Hd, Ht. eauto.
  - intros Hn. unfold addMethod, addStreamMethod. by rewrite Hn.
  - intros [[s1 H1] [s2 H2]].
    apply addMethod_inv in H1 as (def & Hd & Ht & _).
    apply addStreamMethod_inv in H2 as (def' & Hd' & Ht' & _).
    rewrite Hd in Hd'. injection Hd' as <-. rewrite Ht' in Ht. by destruct Ht.
Qed.

Lemma registration_by_kind_witness :
  addMethod "io.example.unknown" (configOf (answering (json "pong")) None [])
    (createServer lexicons (optionsWith None [] []))
  = inl "Lex def for io.example.unknown is not a query or a procedure".
Proof.
  destruct (registration_by_kind (createServer lexicons (optionsWith None [] []))
              "io.example.unknown" (configOf (answering (json "pong")) None [])
              {| scfg_handler := fun _ => ([], None); scfg_auth := None |})
    as (_ & _ & H & _).
  destruct H as [H _]; [by vm_compute|]. exact H.
Defined.

(** ** Registrations that do not concern a request *)

Lemma addSubscription_frame nsid def config s :
  lex (addSubscription nsid def config s) = lex s
  /\ options (addSubscription nsid def config s) = options s
  /\ routes (addSubscription nsid def config s) = routes s
  /\ globalRateLimiters (addSubscription nsid def config s) = globalRateLimiters s.
Proof. done. Qed.

Lemma handleRequest_same s s' req st :
  lex s = lex s' -> options s = options s' -> globalRateLimiters s = globalRateLimiters s' ->
  runRoutes s' (routes s') req st = runRoutes s' (routes s) req st ->
  handleRequest s' req st = handleRequest s req st.
Proof.
  intros Hl Ho Hg Hr. unfold handleRequest, bind.
  by rewrite Hr, (runRoutes_lex s' s _ _ (eq_sym Hl)), (catchall_same s' s req (eq_sym Hl)
               (eq_sym Ho) (eq_sym Hg)).
Qed.

(** X3. The two registries are separate: registering a subscription
    changes the answer to no request, and registering a query or a
    procedure changes what happens to no connection upgrade. *)
Theorem kinds_do_not_interfere s nsid :
  (forall sconfig s', addStreamMethod nsid sconfig s = inr s' ->
     forall req st, handleRequest s' req st = handleRequest s req st)
  /\ (forall config s', addMethod nsid config s = inr s' ->
        forall req, upgrade s' req = upgrade s req).
Proof.
  split.
  - intros sconfig s' H req st. apply addStreamMethod_inv in H as (def & _ & _ & ->).
    by apply handleRequest_same.
  - intros config s' H req. apply addMethod_inv in H as (def & _ & _ & ->).
    destruct (addRoute_frame nsid def config s) as (Hl & _ & Hs & _).
    unfold upgrade. by rewrite Hl, Hs.
Qed.

Lemma kinds_do_not_interfere_witness :
  let s := method "io.example.ping" (configOf (answering (json "pong")) None [])
             (createServer lexicons (optionsWith None [] [])) in
  let sconfig := {| scfg_handler := fun _ => ([ItemValue (VNum 1)], None);
                    scfg_auth := None |} in
  handleRequest (streamMethod "io.example.stream" sconfig s)
    (request "GET" "io.example.ping") ∅
  = handleRequest s (request "GET" "io.example.ping") ∅.
Proof.
  intros s sconfig.
  exact (proj1 (kinds_do_not_interfere s "io.example.stream") sconfig _ eq_refl
           (request "GET" "io.example.ping") ∅).
Defined.

(** X4. Registering a method or a subscription under [nsid] changes
    nothing for the other ids: a request, or a connection upgrade, to an
    id other than [nsid] is handled after the registration as it was
    before. *)
Theorem other_ids_unaffected s nsid :
  (forall config s', addMethod nsid config s = inr s' ->
     forall req st, req_methodId req <> nsid ->
       handleRequest s' req st = handleRequest s req st)
  /\ (forall sconfig s', addStreamMethod nsid sconfig s = inr s' ->
        forall req, req_methodId req <> nsid -> upgrade s' req = upgrade s req).
Proof.
  split.
  - intros config s' H req st Hne. apply addMethod_inv in H as (def & _ & _ & ->).
    destruct (addRoute_frame nsid def config s) as (Hl & Ho & _ & Hg & Hr).
    apply handleRequest_same; try done. rewrite Hr. apply runRoutes_shadowed. left.
    unfold routeMatches. simpl. apply String.eqb_neq in Hne.
    by rewrite String.eqb_sym, Hne.
  - intros sconfig s' H req Hne. apply addStreamMethod_inv in H as (def & _ & _ & ->).
    unfold upgrade. simpl. by rewrite lookup_insert_ne.
Qed.

Lemma other_ids_unaffected_witness :
  let s := method "io.example.ping" (configOf (answering (json "ping")) None [])
             (createServer lexicons (optionsWith None [] [])) in
  handleRequest (method "io.example.pong" (configOf (answering (json "pong")) None []) s)
    (request "GET" "io.example.ping") ∅
  = handleRequest s (request "GET" "io.example.ping") ∅.
Proof.
  intros s.
  refine (proj1 (other_ids_unaffected s "io.example.pong")
            (configOf (answering (json "pong")) None []) _ eq_refl
            (request "GET" "io.example.ping") ∅ _).
  discriminate.
Defined.

(** ** The catch-all *)

Lemma undefined_id_unmatched s req :
  Reachable s -> getDef (lex s) (req_methodId req) = None -> firstMatch s req = None.
Proof.
  intros Hreach Hnone. unfold firstMatch.
  destruct (List.find _ (routes s)) as [rt|] eqn:Hfind; [|done].
  apply List.find_some in Hfind as [Hin Hm]. apply list_elem_of_In in Hin.
  pose proof (reachable_routesFiled s Hreach) as HF. unfold routesFiled in HF.
  rewrite Forall_forall in HF.
  destruct (HF rt Hin) as (def & Hdef & _).
  unfold routeMatches in Hm. apply andb_prop in Hm as [Hid _].
  apply String.eqb_eq in Hid. congruence.
Qed.

Lemma consumeMany_rejection ctx fns st e :
  valueOf (consumeMany ctx fns st) = Some e -> e = RateLimitExceededError.
Proof.
  revert st. induction fns as [|fn fns IH]; intros st; [done|]. cbn [consumeMany].
  rewrite bind_value. destruct (valueOf (runConsume fn ctx st)) as [t|[rem|]].
  - done.
  - apply IH.
  - by intros [= <-].
Qed.

(** X5. A request to an id that has no definition is answered
    MethodNotImplemented, whatever its verb: on a server without a custom
    catch-all, once the global limiters let it through, the lookup fails
    before any verb check and no handler is called. *)
Theorem unknown_method s req st :
  Reachable s ->
  getDef (lex s) (req_methodId req) = None ->
  opt_catchall (options s) = None ->
  valueOf (consumeMany (basicCtx req) (globalConsumeFns s) st) = None ->
  let r := handleRequest s req st in
  valueOf r = ErrorResponse MethodNotImplemented
                {| p_error := Some "MethodNotImplemented";
                   p_message := Some "Method Not Implemented" |}
  /\ (forall nsid, EvHandler nsid ∉ traceOf r)
  /\ (forall id, EvVerbCheck id ∉ traceOf r).
Proof.
  intros Hreach Hnone Hcustom Hpass r. subst r.
  destruct (handleRequest_unmatched s req st (undefined_id_unmatched s req Hreach Hnone))
    as (-> & -> & _).
  unfold catchall. rewrite bind_value, bind_trace, Hpass, Hcustom, bind_value, bind_trace.
  rewrite Hnone, emit_trace, ret_trace, app_nil_r.
  split; [done|]. split.
  - intros nsid Hin. apply elem_of_app in Hin as [Hin|Hin].
    + apply consumeMany_events in Hin as (fn & _ & Hfn). done.
    + by apply list_elem_of_singleton in Hin.
  - intros id Hin. apply elem_of_app in Hin as [Hin|Hin].
    + apply consumeMany_events in Hin as (fn & _ & Hfn). done.
    + by apply list_elem_of_singleton in Hin.
Qed.

Lemma unknown_method_witness :
  let s := method "io.example.ping" (configOf (answering (json "pong")) None [])
             (createServer lexicons (optionsWith None [limitOf "global" 100] [])) in
  valueOf (handleRequest s (request "DELETE" "io.example.unknown") ∅)
  = ErrorResponse MethodNotImplemented
      {| p_error := Some "MethodNotImplemented"; p_message := Some "Method Not Implemented" |}.
Proof.
  intros s.
  assert (Hs : Reachable s).
  { apply (reach_method (createServer lexicons (optionsWith None [limitOf "global" 100] []))
             "io.example.ping" (configOf (answering (json "pong")) None []));
      [apply reach_create|reflexivity]. }
  destruct (unknown_method s (request "DELETE" "io.example.unknown") ∅ Hs) as [H _];
    [by vm_compute|by vm_compute|by vm_compute|]. exact H.
Defined.

(** X6. When no route matches a request whose id has a definition and
    whose verb suits it - GET for a query, POST for a procedure, anything
    for a definition of another kind, a subscription for one - the
    catch-all calls [next()]: the router answers nothing, and neither an
    error nor a handler call is made. This is what happens to a method
    that is defined in the lexicon but has no handler registered. *)
Theorem defined_without_route s req st def :
  firstMatch s req = None ->
  getDef (lex s) (req_methodId req) = Some def ->
  opt_catchall (options s) = None ->
  valueOf (consumeMany (basicCtx req) (globalConsumeFns s) st) = None ->
  (def_type def = query -> req_method req = "GET") ->
  (def_type def = procedure -> req_method req = "POST") ->
  let r := handleRequest s req st in
  valueOf r = Unhandled /\ forall nsid, EvHandler nsid ∉ traceOf r.
Proof.
  intros Hf Hdef Hcustom Hpass Hq Hp r. subst r.
  destruct (handleRequest_unmatched s req st Hf) as (-> & -> & _).
  unfold catchall.
  rewrite bind_value, bind_trace, Hpass, Hcustom, bind_value, bind_trace, Hdef.
  rewrite bind_value, bind_trace, !emit_trace.
  assert (Hbranch : forall st',
    (if bool_decide (def_type def = query) && negb (String.eqb (req_method req) "GET")
     then ret (NextErr (ThXrpc (incorrectMethod (req_method req) "GET")))
     else if bool_decide (def_type def = procedure)
             && negb (String.eqb (req_method req) "POST")
          then ret (NextErr (ThXrpc (incorrectMethod (req_method req) "POST")))
          else ret Next) st' = ([], st', Next)).
  { intros st'. destruct (bool_decide (def_type def = query)) eqn:H1.
    - apply bool_decide_eq_true in H1. rewrite (Hq H1). simpl.
      destruct (bool_decide (def_type def = procedure)) eqn:H2; [|done].
      apply bool_decide_eq_true in H2. congruence.
    - simpl. destruct (bool_decide (def_type def = procedure)) eqn:H2; [|done].
      apply bool_decide_eq_true in H2. by rewrite (Hp H2). }
  rewrite !Hbranch. split; [done|].
  intros nsid Hin. change (traceOf ([], _, Next)) with (@nil Event) in Hin.
  rewrite !elem_of_app in Hin. destruct Hin as [Hin|[Hin|[Hin|Hin]]].
  - apply consumeMany_events in Hin as (fn & _ & Hfn). done.
  - by apply list_elem_of_singleton in Hin.
  - by apply list_elem_of_singleton in Hin.
  - by apply elem_of_nil in Hin.
Qed.

Lemma defined_without_route_witness :
  valueOf (handleRequest (createServer lexicons (optionsWith None [] []))
             (request "GET" "io.example.ping") ∅)
  = Unhandled.
Proof.
  destruct (defined_without_route (createServer lexicons (optionsWith None [] []))
              (request "GET" "io.example.ping") ∅ (plainDef query)) as [H _];
    [by vm_compute|by vm_compute|by vm_compute|by vm_compute|done|discriminate|].
  exact H.
Defined.

(** X7. The global limiters guard everything the catch-all does: when
    one of them rejects a request that no route matches, the answer is
    RateLimitExceeded, and neither the custom catch-all nor the
    definition lookup is reached. *)
Theorem global_limit_guards_catchall s req st e :
  firstMatch s req = None ->
  valueOf (consumeMany (basicCtx req) (globalConsumeFns s) st) = Some e ->
  let r := handleRequest s req st in
  valueOf r = ErrorResponse RateLimitExceeded
                {| p_error := Some "RateLimitExceeded";
                   p_message := Some "Rate Limit Exceeded" |}
  /\ (EvCustomCatchall ∉ traceOf r)
  /\ (forall id, EvGetDef id ∉ traceOf r).
Proof.
  intros Hf Hrej r. subst r.
  destruct (handleRequest_unmatched s req st Hf) as (-> & -> & _).
  unfold catchall. rewrite bind_value, bind_trace, Hrej, ret_trace, app_nil_r.
  rewrite (consumeMany_rejection _ _ _ _ Hrej). split; [done|].
  split; [|intros id]; intros Hin; by apply consumeMany_events in Hin as (fn & _ & Hfn).
Qed.

Lemma global_limit_guards_catchall_witness :
  valueOf (handleRequest (createServer lexicons (optionsWith None [limitOf "global" 0] []))
             (request "GET" "io.example.ping") ∅)
  = ErrorResponse RateLimitExceeded
      {| p_error := Some "RateLimitExceeded"; p_message := Some "Rate Limit Exceeded" |}.
Proof.
  destruct (global_limit_guards_catchall
              (createServer lexicons (optionsWith None [limitOf "global" 0] []))
              (request "GET" "io.example.ping") ∅ RateLimitExceededError) as [H _];
    [by vm_compute|by vm_compute|].
  exact H.
Defined.

(** ** The stages of the handler, one by one *)


Lemma ret_store {A} (a : A) st : storeOf (ret a st) = st.
Proof. reflexivity. Qed.





(** X9. A request whose parameters or input do not validate is answered
    InvalidRequest with the validator's message, and it stops there: the
    basic limiters have been debited, the parametric limiters are not,
    and the handler is not called. *)
Theorem invalid_request_rejected lx h req auth st msg :
  valueOf (consumeMany (basicCtx req) (h_basicRlFns h) st) = None ->
  let r := runHandler lx h req auth st in
  let basic := consumeMany (basicCtx req) (h_basicRlFns h) st in
  let invalid := ErrorResponse InvalidRequest
                   {| p_error := Some "InvalidRequest"; p_message := Some msg |} in
  (lex_params lx (h_nsid h) (def_decode (h_def h) (req_query req)) = inl msg ->
     finish (valueOf r) = invalid
     /\ traceOf r = traceOf basic ++ [EvDecodeParams (h_nsid h)]
     /\ storeOf r = storeOf basic)
  /\ (forall params,
        lex_params lx (h_nsid h) (def_decode (h_def h) (req_query req)) = inr params ->
        lex_input lx (h_nsid h) req (h_blobLimit h) = inl msg ->
        finish (valueOf r) = invalid
        /\ traceOf r = traceOf basic ++ [EvDecodeParams (h_nsid h); EvParamsValid (h_nsid h)]
        /\ storeOf r = storeOf basic).
Proof.
  intros Hpass r basic invalid. subst r basic invalid.
  rewrite runHandler_stages. unfold valueOf, traceOf, storeOf in *.
  destruct (consumeMany (basicCtx req) (h_basicRlFns h) st) as [[tb stb] vb].
  simpl in Hpass. subst vb. split.
  - by intros ->.
  - by intros params -> ->.
Qed.

Lemma invalid_request_rejected_witness :
  let h := createHandler (createServer Scenarios.strict (optionsWith None [] []))
             "io.example.ping" (plainDef query) (configOf (answering (json "pong")) None []) in
  finish (valueOf (runHandler Scenarios.strict h (request "GET" "io.example.ping") None ∅))
  = ErrorResponse InvalidRequest
      {| p_error := Some "InvalidRequest";
         p_message := Some "Error: Params must have the property message" |}.
Proof.
  intros h.
  destruct (invalid_request_rejected Scenarios.strict h (request "GET" "io.example.ping")
              None ∅ "Error: Params must have the property message" eq_refl) as [H _].
  destruct H as [H _]; [reflexivity|exact H].
Defined.

(** X10. A limiter that rejects the request ends it with
    RateLimitExceeded. When it is one of the basic pool, nothing is
    decoded or validated; when it is one of the parametric pool,
    validation has passed but the handler is not called. *)
Theorem rate_limit_rejections lx h req auth st e :
  let r := runHandler lx h req auth st in
  let basic := consumeMany (basicCtx req) (h_basicRlFns h) st in
  let exceeded := ErrorResponse RateLimitExceeded
                    {| p_error := Some "RateLimitExceeded";
                       p_message := Some "Rate Limit Exceeded" |} in
  (valueOf basic = Some e ->
     finish (valueOf r) = exceeded /\ traceOf r = traceOf basic /\ storeOf r = storeOf basic)
  /\ (forall params input,
        valueOf basic = None ->
        lex_params lx (h_nsid h) (def_decode (h_def h) (req_query req)) = inr params ->
        lex_input lx (h_nsid h) req (h_blobLimit h) = inr input ->
        let reqCtx := {| ctx_req := req; ctx_params := params; ctx_input := input;
                         ctx_auth := auth |} in
        let param := consumeMany reqCtx (h_paramRlFns h) (storeOf basic) in
        valueOf param = Some e ->
        finish (valueOf r) = exceeded
        /\ traceOf r = traceOf basic ++ validationEvents (h_nsid h) ++ traceOf param
        /\ storeOf r = storeOf param).
Proof.
  intros r basic exceeded. subst r basic exceeded. rewrite runHandler_stages. split.
  - intros Hrej. rewrite (consumeMany_rejection _ _ _ _ Hrej) in Hrej.
    unfold valueOf, traceOf, storeOf in *.
    destruct (consumeMany (basicCtx req) (h_basicRlFns h) st) as [[tb stb] vb].
    simpl in Hrej. by subst vb.
  - intros params input Hpass Hp Hi reqCtx param Hrej. subst param.
    rewrite (consumeMany_rejection _ _ _ _ Hrej) in Hrej.
    unfold valueOf, traceOf, storeOf in *.
    destruct (consumeMany (basicCtx req) (h_basicRlFns h) st) as [[tb stb] vb].
    simpl in Hpass. subst vb. rewrite Hp, Hi. simpl in *. fold reqCtx.
    destruct (consumeMany reqCtx (h_paramRlFns h) stb) as [[tp stp] vp].
    simpl in Hrej. by subst vp.
Qed.

Lemma rate_limit_rejections_witness :
  let s := createServer lexicons (optionsWith None [] []) in
  let config := configOf (answering (json "pong")) None
                  [RouteRateLimitOpts 60000 0 None None] in
  let h := createHandler (setupRouteRateLimits "io.example.ping" config s)
             "io.example.ping" (plainDef query) config in
  let r := runHandler lexicons h (request "GET" "io.example.ping") None ∅ in
  finish (valueOf r)
  = ErrorResponse RateLimitExceeded
      {| p_error := Some "RateLimitExceeded"; p_message := Some "Rate Limit Exceeded" |}
  /\ traceOf r = traceOf (consumeMany (basicCtx (request "GET" "io.example.ping"))
                            (h_basicRlFns h) ∅).
Proof.
  intros s config h r.
  destruct (rate_limit_rejections lexicons h (request "GET" "io.example.ping") None ∅
              RateLimitExceededError) as [H _].
  destruct H as (Hv & Ht & _); [by vm_compute|]. split; [exact Hv|exact Ht].
Defined.

(** ** The stack of a route *)

Lemma prefixed_nil {A} (r : list Event * Store * A) : prefixed [] r = r.
Proof. by destruct r as [[t st] v]. Qed.

Lemma afterAuth_stages s rt req auth st :
  afterAuth s rt req auth st
  = if decide (rt_verb rt = post)
    then match req_bodyError req with
         | Some err => ([EvBodyIntake (rt_nsid rt)], st, NextErr (ThXrpc err))
         | None => prefixed [EvBodyIntake (rt_nsid rt)]
                     (runHandler (lex s) (rt_handler rt) req auth st)
         end
    else runHandler (lex s) (rt_handler rt) req auth st.
Proof.
  unfold afterAuth, bodyMiddleware, bind, emit, ret, prefixed, traceOf, storeOf, valueOf.
  destruct (decide (rt_verb rt = post)); simpl.
  - destruct (req_bodyError req); [done|]. simpl.
    by destruct (runHandler _ _ _ _ _) as [[t st'] o].
  - by destruct (runHandler _ _ _ _ _) as [[t st'] o].
Qed.

Lemma runRoute_afterAuth s rt req :
  runRoute s rt req
  = (a <- match rt_auth rt with
          | Some verifier => authMiddleware (rt_nsid rt) verifier req
          | None => ret (inr None)
          end ;;
     match a with
     | inl err => ret (NextErr err)
     | inr localsAuth => afterAuth s rt req localsAuth
     end)%pipe.
Proof. reflexivity. Qed.

Lemma runRoute_stages s rt req st :
  runRoute s rt req st
  = match rt_auth rt with
    | None => afterAuth s rt req None st
    | Some verifier =>
        match verifier req with
        | inr (AuthCredentials a) =>
            prefixed [EvAuth (rt_nsid rt)] (afterAuth s rt req (Some a) st)
        | inr (AuthError he) =>
            ([EvAuth (rt_nsid rt)], st, NextErr (ThXrpc (fromHandlerError he)))
        | inl ThFalsy => prefixed [EvAuth (rt_nsid rt)] (afterAuth s rt req None st)
        | inl err => ([EvAuth (rt_nsid rt)], st, NextErr err)
        end
    end.
Proof.
  rewrite runRoute_afterAuth.
  unfold authMiddleware, bind, emit, ret, prefixed, traceOf, storeOf, valueOf.
  destruct (rt_auth rt) as [verifier|]; simpl.
  - destruct (verifier req) as [[]|[]]; simpl; try done;
      by destruct (afterAuth _ _ _ _ _) as [[t st'] o].
  - by destruct (afterAuth _ _ _ _ _) as [[t st'] o].
Qed.

Lemma respond_answered lx h out st r :
  valueOf (respond lx h out st) = inr (Sent r) -> answeredByRoute r.
Proof.
  destruct out as [|o| | |he]; simpl; try (by intros [= <-]); try done.
  - rewrite bind_value. destruct (valueOf (validateResOutput _ _ _ _)); [done|].
    by intros [= <-].
  - rewrite bind_value. destruct (valueOf (validateResOutput _ _ _ _)); [done|].
    intros [= <-]. unfold encodeSuccess. by destruct (_ || _).
Qed.

Lemma runHandler_answered lx h req auth st r :
  valueOf (runHandler lx h req auth st) = Sent r -> answeredByRoute r.
Proof.
  rewrite runHandler_stages.
  destruct (consumeMany (basicCtx req) (h_basicRlFns h) st) as [[tb stb] [[e|]|t]];
    [done| |by destruct t].
  destruct (lex_params _ _ _) as [msg|params]; [done|].
  destruct (lex_input _ _ _ _) as [msg|input]; [done|]. cbn zeta.
  destruct (consumeMany _ (h_paramRlFns h) stb) as [[tp stp] [[e|]|t]];
    [done| |by destruct t].
  pose proof (invoke_value lx h {| ctx_req := req; ctx_params := params; ctx_input := input;
                                   ctx_auth := auth |} stp) as Hv.
  destruct (invoke lx h _ stp) as [[th sth] vh]. unfold valueOf in *. simpl in *. subst vh.
  destruct (cfg_handler (h_cfg h) _) as [t|out]; [by destruct t|].
  pose proof (respond_answered lx h out stp r) as Hr. unfold valueOf in Hr.
  destruct (respond lx h out stp).2 as [t|o]; [by destruct t|].
  simpl. intros ->. by apply Hr.
Qed.

Lemma runRoute_answered s rt req st : answeredByRoute (finish (valueOf (runRoute s rt req st))).
Proof.
  assert (Hh : forall auth, answeredByRoute
                 (finish (valueOf (runHandler (lex s) (rt_handler rt) req auth st)))).
  { intros auth. pose proof (runHandler_not_passed (lex s) (rt_handler rt) req auth st) as Hn.
    pose proof (runHandler_answered (lex s) (rt_handler rt) req auth st) as Ha.
    destruct (valueOf (runHandler _ _ _ _ _)) as [|[]|r]; try done. by apply Ha. }
  assert (Ha : forall auth, answeredByRoute (finish (valueOf (afterAuth s rt req auth st)))).
  { intros auth. rewrite afterAuth_stages. destruct (decide _); [|apply Hh].
    destruct (req_bodyError req); [done|apply Hh]. }
  rewrite runRoute_stages. destruct (rt_auth rt) as [verifier|]; [|apply Ha].
  destruct (verifier req) as [[]|[]]; try done; apply Ha.
Qed.

(** ** Requests that a route serves *)

(** X11. A request that a route matches is answered by that route and
    nothing else: the answer is what the stack of the first matching
    route gives, always a status 200 or an error response, and the
    catch-all - its custom handler, its definition lookup, its verb
    check - is not run, whether the route's handler succeeds or fails. *)
Theorem matched_request_answered_by_route s req st rt :
  firstMatch s req = Some rt ->
  let r := handleRequest s req st in
  let served := runRoute s rt req st in
  valueOf r = finish (valueOf served)
  /\ traceOf r = traceOf served
  /\ storeOf r = storeOf served
  /\ answeredByRoute (valueOf r)
  /\ (EvCustomCatchall ∉ traceOf r)
  /\ (forall id, (EvGetDef id ∉ traceOf r) /\ (EvVerbCheck id ∉ traceOf r)).
Proof.
  intros Hf r served. subst r served. rewrite (handleRequest_matched s req st rt Hf).
  unfold valueOf at 1, traceOf at 1, storeOf at 1. simpl.
  split; [done|]. split; [done|]. split; [done|]. split; [apply runRoute_answered|].
  assert (Hev : forall e, e ∈ traceOf (runRoute s rt req st) ->
                  e <> EvCustomCatchall /\ (forall id, e <> EvGetDef id /\ e <> EvVerbCheck id)).
  { intros e He. apply runRoute_events in He.
    destruct He as [-> | [-> | [[o Ho] | [Hv | [-> | ->]]]]]; try done.
    - destruct e; try done.
    - unfold validationEvents in Hv.
      repeat (apply elem_of_cons in Hv as [-> | Hv]; [done|]). by apply elem_of_nil in Hv. }
  unfold traceOf at 1 3 5. simpl. split.
  - intros Hin. by destruct (Hev _ Hin) as [H _].
  - intros id. split; intros Hin; destruct (Hev _ Hin) as [_ H]; by destruct (H id).
Qed.

Lemma matched_request_answered_by_route_witness :
  let s := method "io.example.ping" (configOf (answering (json "pong")) None [])
             (createServer lexicons proxying) in
  valueOf (handleRequest s (request "GET" "io.example.ping") ∅) = Ok200Json "pong" [].
Proof.
  intros s.
  destruct (matched_request_answered_by_route s (request "GET" "io.example.ping") ∅
              {| rt_verb := get; rt_nsid := "io.example.ping"; rt_auth := None;
                 rt_handler := createHandler
                                 (setupRouteRateLimits "io.example.ping"
                                    (configOf (answering (json "pong")) None [])
                                    (createServer lexicons proxying))
                                 "io.example.ping" (plainDef query)
                                 (configOf (answering (json "pong")) None []) |})
    as (Hv & _); [by vm_compute|].
  rewrite Hv. by vm_compute.
Defined.

(** ** Authentication *)

Lemma afterAuth_events s rt req auth st e :
  e ∈ traceOf (afterAuth s rt req auth st) ->
  (e = EvBodyIntake (rt_nsid rt) /\ rt_verb rt = post)
  \/ e ∈ traceOf (runHandler (lex s) (rt_handler rt) req auth st).
Proof.
  rewrite afterAuth_stages. destruct (decide (rt_verb rt = post)) as [Hp|Hp]; [|by right].
  destruct (req_bodyError req).
  - intros He. apply list_elem_of_singleton in He. by left.
  - unfold prefixed, traceOf at 1. simpl. intros He.
    apply elem_of_cons in He as [-> | He]; [by left|by right].
Qed.

(** X12. What the authentication middleware of a route hands on. The
    credentials that the verifier returns are the [auth] of the context
    that the rest of the stack runs with. A declared error that the
    verifier returns, and a value that it raises, end the request with
    that error, before the body parsers and the handler. A falsy value
    that it raises ends nothing: the rest of the stack runs as on a route
    without verifier, without credentials. *)
Theorem auth_result_reaches_handler s rt req st :
  let r := runRoute s rt req st in
  (rt_auth rt = None -> r = afterAuth s rt req None st)
  /\ (forall verifier, rt_auth rt = Some verifier ->
        (forall a, verifier req = inr (AuthCredentials a) ->
           r = prefixed [EvAuth (rt_nsid rt)] (afterAuth s rt req (Some a) st))
        /\ (verifier req = inl ThFalsy ->
            r = prefixed [EvAuth (rt_nsid rt)] (afterAuth s rt req None st))
        /\ (forall he, verifier req = inr (AuthError he) ->
              r = ([EvAuth (rt_nsid rt)], st, NextErr (ThXrpc (fromHandlerError he)))
              /\ finish (valueOf r)
                 = ErrorResponse (he_status he) (payload (fromHandlerError he)))
        /\ (forall t, verifier req = inl t -> t <> ThFalsy ->
              r = ([EvAuth (rt_nsid rt)], st, NextErr t)
              /\ finish (valueOf r) = errorMiddleware t)
        /\ (authRejects verifier req ->
            forall e, e ∈ traceOf r -> e = EvAuth (rt_nsid rt))).
Proof.
  intros r. subst r. rewrite runRoute_stages. split.
  - by intros ->.
  - intros verifier ->. split; [|split; [|split; [|split]]].
    + by intros a ->.
    + by intros ->.
    + by intros he ->.
    + intros t -> Hne. by destruct t.
    + unfold authRejects. destruct (verifier req) as [[]|[]]; try done;
        intros _ ev Hev; by apply list_elem_of_singleton in Hev.
Qed.

Lemma auth_result_reaches_handler_witness :
  let s := method "io.example.ping"
             (configOf (fun ctx => inr (json (default "nobody" (ctx_auth ctx))))
                (Some (Scenarios.credentials "did:example:alice")) [])
             (createServer lexicons (optionsWith None [] [])) in
  valueOf (handleRequest s (request "GET" "io.example.ping") ∅)
  = Ok200Json "did:example:alice" [].
Proof.
  intros s.
  pose (rt := {| rt_verb := get; rt_nsid := "io.example.ping";
                 rt_auth := Some (Scenarios.credentials "did:example:alice");
                 rt_handler :=
                   createHandler
                     (setupRouteRateLimits "io.example.ping"
                        (configOf (fun ctx => inr (json (default "nobody" (ctx_auth ctx))))
                           (Some (Scenarios.credentials "did:example:alice")) [])
                        (createServer lexicons (optionsWith None [] [])))
                     "io.example.ping" (plainDef query)
                     (configOf (fun ctx => inr (json (default "nobody" (ctx_auth ctx))))
                        (Some (Scenarios.credentials "did:example:alice")) []) |}).
  destruct (auth_result_reaches_handler s rt (request "GET" "io.example.ping") ∅)
    as [_ H].
  destruct (H (Scenarios.credentials "did:example:alice") eq_refl) as [Hc _].
  specialize (Hc "did:example:alice" eq_refl).
  rewrite (handleRequest_matched s (request "GET" "io.example.ping") ∅ rt) by (by vm_compute).
  unfold valueOf at 1. simpl. rewrite Hc. by vm_compute.
Defined.

(** ** Body intake *)

Lemma runHandler_no_intake lx h req auth st e :
  e ∈ traceOf (runHandler lx h req auth st) ->
  (forall id, e <> EvBodyIntake id) /\ (forall id, e <> EvAuth id).
Proof.
  intros He. apply runHandler_events in He as [[o Ho] | [Hv | [-> | ->]]]; try done.
  - by destruct e.
  - unfold validationEvents in Hv.
    repeat (apply elem_of_cons in Hv as [-> | Hv]; [done|]). by apply elem_of_nil in Hv.
Qed.

Lemma intake_in_route s rt req st id :
  EvBodyIntake id ∈ traceOf (runRoute s rt req st) -> rt_verb rt = post /\ id = rt_nsid rt.
Proof.
  assert (Ha : forall auth, EvBodyIntake id ∈ traceOf (afterAuth s rt req auth st) ->
                 rt_verb rt = post /\ id = rt_nsid rt).
  { intros auth He. apply afterAuth_events in He as [[[= ->] Hp] | He]; [done|].
    apply runHandler_no_intake in He as [He _]. by destruct (He id). }
  assert (Hp : forall auth,
            EvBodyIntake id ∈ traceOf (prefixed [EvAuth (rt_nsid rt)]
                                         (afterAuth s rt req auth st)) ->
            rt_verb rt = post /\ id = rt_nsid rt).
  { intros auth. unfold prefixed, traceOf at 1. simpl. intros He.
    apply elem_of_cons in He as [He|He]; [done|]. by apply (Ha auth). }
  rewrite runRoute_stages. destruct (rt_auth rt) as [verifier|]; [|apply Ha].
  destruct (verifier req) as [[]|[]]; try apply Hp;
    intros He; by apply list_elem_of_singleton in He.
Qed.

(** X13. The body of a request is taken in for procedures only: on a
    server built by the constructor and the registration methods, the
    body parsers run only on a POST request to an id whose definition is
    a procedure. And they run before every limiter: when the body of such
    a request does not parse, no limiter has been consulted, the store is
    as it was, and no handler is called. *)
Theorem body_intake_only_for_procedures s req st :
  Reachable s ->
  let r := handleRequest s req st in
  (forall id, EvBodyIntake id ∈ traceOf r ->
     id = req_methodId req /\ req_method req = "POST"
     /\ exists def, getDef (lex s) id = Some def /\ def_type def = procedure)
  /\ (forall rt err,
        firstMatch s req = Some rt -> rt_verb rt = post -> req_bodyError req = Some err ->
        noDebit (traceOf r) /\ storeOf r = st /\ forall id, EvHandler id ∉ traceOf r).
Proof.
  intros Hreach r. subst r. split.
  - intros id Hin. rewrite handleRequest_trace in Hin.
    destruct (firstMatch s req) as [rt|] eqn:Hf.
    + apply intake_in_route in Hin as [Hp ->].
      unfold firstMatch in Hf. apply List.find_some in Hf as [Hrt Hm].
      apply list_elem_of_In in Hrt.
      pose proof (reachable_routesFiled s Hreach) as HF. unfold routesFiled in HF.
      rewrite Forall_forall in HF. destruct (HF rt Hrt) as (def & Hdef & Hverb).
      unfold routeMatches in Hm. rewrite Hp in Hm. apply andb_prop in Hm as [Hid Hpost].
      apply String.eqb_eq in Hid. apply String.eqb_eq in Hpost.
      split; [done|]. split; [done|]. exists def. split; [done|].
      rewrite Hp in Hverb. unfold verbOf in Hverb. by destruct (decide _).
    + apply catchall_events in Hin as [[o Ho] | [H | [H | H]]]; done.
  - intros rt err Hf Hp Herr. rewrite (handleRequest_matched s req st rt Hf).
    unfold traceOf at 1 3, storeOf at 1. simpl.
    rewrite runRoute_stages.
    assert (Ha : forall auth, afterAuth s rt req auth st
                              = ([EvBodyIntake (rt_nsid rt)], st, NextErr (ThXrpc err))).
    { intros auth. rewrite afterAuth_stages, Hp, Herr. by destruct (decide (post = post)). }
    assert (Hev : forall tr, (forall e, e ∈ tr -> e = EvAuth (rt_nsid rt)
                                                  \/ e = EvBodyIntake (rt_nsid rt)) ->
                    noDebit tr /\ forall id, EvHandler id ∉ tr).
    { intros tr Htr. split.
      - intros e He. by destruct (Htr e He) as [-> | ->].
      - intros id He. by destruct (Htr _ He). }
    destruct (rt_auth rt) as [verifier|]; [destruct (verifier req) as [[]|[]]|];
      rewrite ?Ha; unfold prefixed, traceOf, storeOf; simpl;
      ((split; [|split; [done|]]); [eapply proj1|eapply proj2]); apply Hev; intros ev Hin;
      repeat (apply elem_of_cons in Hin as [-> | Hin]; [auto|]); by apply elem_of_nil in Hin.
Qed.

Lemma body_intake_only_for_procedures_witness :
  let s := method "io.example.post" (configOf (answering (json "done")) None [])
             (createServer lexicons (optionsWith None [limitOf "global" 10] [])) in
  let req := Scenarios.withBody "{" (Some (InvalidRequestError "Unexpected end of JSON input"))
               (request "POST" "io.example.post") in
  storeOf (handleRequest s req ∅) = ∅.
Proof.
  intros s req.
  assert (Hreach : Reachable s).
  { apply (reach_method (createServer lexicons (optionsWith None [limitOf "global" 10] []))
             "io.example.post" (configOf (answering (json "done")) None []));
      [constructor|reflexivity]. }
  destruct (body_intake_only_for_procedures s req ∅ Hreach) as [_ H].
  pose (rt := {| rt_verb := post; rt_nsid := "io.example.post"; rt_auth := None;
                 rt_handler :=
                   createHandler
                     (setupRouteRateLimits "io.example.post"
                        (configOf (answering (json "done")) None [])
                        (createServer lexicons (optionsWith None [limitOf "global" 10] [])))
                     "io.example.post" (plainDef procedure)
                     (configOf (answering (json "done")) None []) |}).
  destruct (H rt (InvalidRequestError "Unexpected end of JSON input")) as (_ & Hst & _);
    [by vm_compute|reflexivity|reflexivity|exact Hst].
Defined.

(** ** The store *)

Lemma framed_ret {A} (a : A) : Framed (ret a).
Proof. by intros st row. Qed.

Lemma framed_emit e : Framed (emit e).
Proof. by intros st row. Qed.

Lemma framed_bind {A B} (m : Pipe A) (k : A -> Pipe B) :
  Framed m -> (forall a, Framed (k a)) -> Framed (bind m k).
Proof.
  intros Hm Hk st row. specialize (Hm st row). unfold bind, storeOf, traceOf in *.
  destruct (m st) as [[t1 st1] a]. specialize (Hk a st1 row). unfold storeOf, traceOf in Hk.
  destruct (k a st1) as [[t2 st2] b]. simpl in *. intros Hne.
  destruct (decide (st1 !! row = st !! row)) as [Heq|Hne1].
  - rewrite <- Heq in Hne. destruct (Hk Hne) as (o & c & Hin).
    exists o, c. apply elem_of_app. by right.
  - destruct (Hm Hne1) as (o & c & Hin). exists o, c. apply elem_of_app. by left.
Qed.

Lemma framed_runConsume fn ctx : Framed (runConsume fn ctx).
Proof.
  intros st row. unfold runConsume, consume, storeOf, traceOf.
  destruct (cf_limiter fn) as [rl|]; [|done].
  destruct (_ <=? _)%Z; simpl; [|done]. intros Hne.
  destruct (decide (rowOf rl (keyFor rl (cf_opts fn) ctx) = row)) as [<-|Hrow].
  - eexists _, _. apply list_elem_of_singleton. reflexivity.
  - by rewrite lookup_insert_ne in Hne.
Qed.

Lemma framed_consumeMany ctx fns : Framed (consumeMany ctx fns).
Proof.
  induction fns as [|fn fns IH]; [apply framed_ret|]. cbn [consumeMany].
  apply framed_bind; [apply framed_runConsume|].
  intros [t|[rem|]]; [apply framed_ret|exact IH|apply framed_ret].
Qed.

Lemma respond_store lx h out st : storeOf (respond lx h out st) = st.
Proof.
  assert (Hv : forall o, storeOf (validateResOutput lx h o st) = st).
  { intros o. unfold validateResOutput. by destruct (h_validateResOutput h). }
  destruct out as [|o| | |he]; try done; unfold respond, bind, storeOf in *.
  - specialize (Hv None). destruct (validateResOutput lx h None st) as [[t st'] [v|]];
      simpl in *; by subst.
  - specialize (Hv (Some o)). destruct (validateResOutput lx h (Some o) st) as [[t st'] [v|]];
      simpl in *; by subst.
Qed.

Lemma invoke_store lx h reqCtx st : storeOf (invoke lx h reqCtx st) = st.
Proof.
  unfold invoke, bind, emit. pose proof (respond_store lx h) as Hr. unfold storeOf in *. simpl.
  destruct (cfg_handler (h_cfg h) reqCtx) as [t|out]; [done|].
  specialize (Hr out st). by destruct (respond lx h out st) as [[t st'] v].
Qed.

Lemma framed_runHandler lx h req auth : Framed (runHandler lx h req auth).
Proof.
  intros st row. rewrite runHandler_stages.
  pose proof (framed_consumeMany (basicCtx req) (h_basicRlFns h) st row) as Hb.
  destruct (consumeMany (basicCtx req) (h_basicRlFns h) st) as [[tb stb] vb].
  unfold storeOf, traceOf in *. simpl in Hb.
  assert (Hpre : forall (t : list Event) (v : Outcome),
            (tb ++ t, stb, v).1.2 !! row <> st !! row ->
            exists o cost, EvConsume o row cost true ∈ (tb ++ t, stb, v).1.1).
  { simpl. intros t v Hne. destruct (Hb Hne) as (o & c & Hin).
    exists o, c. apply elem_of_app. by left. }
  destruct vb as [[e|]|t]; [exact Hb| |exact Hb].
  destruct (lex_params _ _ _) as [msg|params]; [apply Hpre|].
  destruct (lex_input _ _ _ _) as [msg|input]; [apply Hpre|]. cbn zeta.
  set (reqCtx := {| ctx_req := req; ctx_params := params; ctx_input := input;
                    ctx_auth := auth |}).
  pose proof (framed_consumeMany reqCtx (h_paramRlFns h) stb row) as Hp.
  destruct (consumeMany reqCtx (h_paramRlFns h) stb) as [[tp stp] vp].
  unfold storeOf, traceOf in Hp. simpl in Hp.
  pose proof (invoke_store lx h reqCtx stp) as Hst.
  assert (Hboth : forall (t : list Event) (v : Outcome),
            (tb ++ validationEvents (h_nsid h) ++ tp ++ t, stp, v).1.2 !! row <> st !! row ->
            exists o cost,
              EvConsume o row cost true
              ∈ (tb ++ validationEvents (h_nsid h) ++ tp ++ t, stp, v).1.1).
  { simpl. intros t v Hne. destruct (decide (stb !! row = st !! row)) as [Heq|Hne1].
    - rewrite <- Heq in Hne. destruct (Hp Hne) as (o & c & Hin). exists o, c.
      rewrite elem_of_app, !elem_of_cons, elem_of_app. tauto.
    - destruct (Hb Hne1) as (o & c & Hin). exists o, c. apply elem_of_app. by left. }
  destruct vp as [[e|]|t].
  - specialize (Hboth [] (NextErr (ThXrpc e))). by rewrite app_nil_r in Hboth.
  - unfold storeOf in Hst. destruct (invoke lx h reqCtx stp) as [[th sth] vh].
    simpl in Hst. subst sth. apply Hboth.
  - specialize (Hboth [] (catchThrown (inl t))). by rewrite app_nil_r in Hboth.
Qed.

Lemma framed_afterAuth s rt req auth : Framed (afterAuth s rt req auth).
Proof.
  unfold afterAuth. apply framed_bind.
  - destruct (decide _); [|apply framed_ret]. unfold bodyMiddleware.
    apply framed_bind; [apply framed_emit|]. intros _. apply framed_ret.
  - intros [err|]; [apply framed_ret|apply framed_runHandler].
Qed.

Lemma framed_runRoute s rt req : Framed (runRoute s rt req).
Proof.
  rewrite runRoute_afterAuth. apply framed_bind.
  - destruct (rt_auth rt); [|apply framed_ret]. unfold authMiddleware.
    apply framed_bind; [apply framed_emit|]. intros _. apply framed_ret.
  - intros [err|auth]; [apply framed_ret|apply framed_afterAuth].
Qed.

Lemma framed_catchall s req : Framed (catchall s req).
Proof.
  unfold catchall. apply framed_bind; [apply framed_consumeMany|].
  intros [[e|]|t]; [apply framed_ret| |apply framed_ret].
  destruct (opt_catchall (options s)).
  - apply framed_bind; [apply framed_emit|]. intros _. apply framed_ret.
  - apply framed_bind; [apply framed_emit|]. intros _.
    destruct (getDef _ _); [|apply framed_ret].
    apply framed_bind; [apply framed_emit|]. intros _.
    destruct (_ && _); [apply framed_ret|]. destruct (_ && _); apply framed_ret.
Qed.

Lemma framed_handleRequest s req : Framed (handleRequest s req).
Proof.
  intros st row. rewrite handleRequest_trace.
  destruct (firstMatch s req) as [rt|] eqn:Hf.
  - rewrite (handleRequest_matched s req st rt Hf). unfold storeOf at 1. simpl.
    apply framed_runRoute.
  - destruct (handleRequest_unmatched s req st Hf) as (_ & _ & ->). apply framed_catchall.
Qed.

Lemma consumeMany_debit_limiter ctx fns st e :
  e ∈ traceOf (consumeMany ctx fns st) ->
  exists fn rl, fn ∈ fns /\ cf_limiter fn = ALimiter rl
                /\ eventOrigin e = Some (cf_origin fn).
Proof.
  revert st. induction fns as [|f fns IH]; intros st He; [by apply elem_of_nil in He|].
  cbn [consumeMany] in He. rewrite bind_trace in He. apply elem_of_app in He as [He|He].
  - unfold runConsume in He. destruct (cf_limiter f) as [rl|] eqn:Hf;
      [|by apply elem_of_nil in He].
    destruct (consume rl _ _ _) as [r st']. unfold traceOf in He. simpl in He.
    apply list_elem_of_singleton in He as ->. exists f, rl. split; [by left|]. done.
  - destruct (valueOf (runConsume f ctx st)) as [t|[rem|]];
      try (by apply elem_of_nil in He).
    apply IH in He as (fn & rl & Hfn & Hrl & Ho). exists fn, rl. split; [by right|]. done.
Qed.

Lemma runHandler_debits lx h req auth st e :
  e ∈ traceOf (runHandler lx h req auth st) -> is_Some (eventOrigin e) ->
  exists fn rl, (fn ∈ h_basicRlFns h \/ fn ∈ h_paramRlFns h)
                /\ cf_limiter fn = ALimiter rl
                /\ eventOrigin e = Some (cf_origin fn).
Proof.
  rewrite runHandler_stages.
  pose proof (consumeMany_debit_limiter (basicCtx req) (h_basicRlFns h) st e) as Hb.
  destruct (consumeMany (basicCtx req) (h_basicRlFns h) st) as [[tb stb] vb].
  unfold traceOf in *. simpl in Hb.
  assert (Hb' : e ∈ tb -> exists fn rl, (fn ∈ h_basicRlFns h \/ fn ∈ h_paramRlFns h)
                            /\ cf_limiter fn = ALimiter rl
                            /\ eventOrigin e = Some (cf_origin fn)).
  { intros He. destruct (Hb He) as (fn & rl & ? & ? & ?). exists fn, rl. auto. }
  assert (Hval : forall l : list Event,
            e ∈ l -> (forall e', e' ∈ l -> e' ∈ validationEvents (h_nsid h)) ->
                   ~ is_Some (eventOrigin e)).
  { intros l He Hl [o Ho]. apply Hl in He. unfold validationEvents in He.
    repeat (apply elem_of_cons in He as [-> | He]; [done|]). by apply elem_of_nil in He. }
  destruct vb as [[err|]|t]; [exact (fun He _ => Hb' He)| |exact (fun He _ => Hb' He)].
  destruct (lex_params _ _ _) as [msg|params].
  { cbn [fst]. intros He Ho. apply elem_of_app in He as [He|He]; [auto|].
    destruct (Hval _ He); [|done]. intros e' He'.
    apply list_elem_of_singleton in He' as ->. by left. }
  destruct (lex_input _ _ _ _) as [msg|input].
  { cbn [fst]. intros He Ho. apply elem_of_app in He as [He|He]; [auto|].
    destruct (Hval _ He); [|done]. intros e' He'. unfold validationEvents.
    rewrite !elem_of_cons in *. tauto. }
  cbn zeta.
  match goal with
  | |- context [consumeMany ?c (h_paramRlFns h) stb] =>
      pose proof (consumeMany_debit_limiter c (h_paramRlFns h) stb e) as Hp;
      pose proof (invoke_trace lx h c) as Hinv;
      destruct (consumeMany c (h_paramRlFns h) stb) as [[tp stp] vp]
  end.
  unfold traceOf in Hp. simpl in Hp.
  assert (Hp' : e ∈ tb ++ validationEvents (h_nsid h) ++ tp -> is_Some (eventOrigin e) ->
                exists fn rl, (fn ∈ h_basicRlFns h \/ fn ∈ h_paramRlFns h)
                              /\ cf_limiter fn = ALimiter rl
                              /\ eventOrigin e = Some (cf_origin fn)).
  { intros He Ho. rewrite !elem_of_app in He. destruct He as [He|[He|He]]; [auto| |].
    - by destruct (Hval _ He).
    - destruct (Hp He) as (fn & rl & ? & ? & ?). exists fn, rl. auto. }
  destruct vp as [[err|]|t]; [exact Hp'| |exact Hp'].
  destruct (Hinv stp) as (th & Hth & HF).
  destruct (invoke lx h _ stp) as [[ti sti] vi]. unfold traceOf in Hth.
  cbn [fst] in *. subst ti.
  intros He Ho. rewrite !app_assoc in He. apply elem_of_app in He as [He|He].
  - rewrite <- !app_assoc in He. auto.
  - exfalso. apply elem_of_cons in He as [-> | He]; [by destruct Ho|].
    rewrite Forall_forall in HF. rewrite (HF e He) in Ho. by destruct Ho.
Qed.

Lemma globalConsumeFns_limiter s fn :
  fn ∈ globalConsumeFns s -> exists rl, cf_limiter fn = ALimiter rl.
Proof.
  unfold globalConsumeFns. intros Hfn. apply list_elem_of_lookup_1 in Hfn as [k Hk].
  rewrite list_lookup_imap in Hk. destruct (globalRateLimiters s !! k) as [rl|]; [|done].
  injection Hk as <-. eauto.
Qed.

(** Every debit of a request is made by a consume function of the
    server, built on a limiter: a global one, or one of the pools of a
    route. *)
Lemma handleRequest_debits s req st e :
  e ∈ traceOf (handleRequest s req st) -> is_Some (eventOrigin e) ->
  exists fn rl, eventOrigin e = Some (cf_origin fn)
                /\ cf_limiter fn = ALimiter rl
                /\ (fn ∈ globalConsumeFns s
                    \/ exists rt, rt ∈ routes s
                         /\ (fn ∈ h_basicRlFns (rt_handler rt)
                             \/ fn ∈ h_paramRlFns (rt_handler rt))).
Proof.
  intros He Ho. rewrite handleRequest_trace in He.
  destruct (firstMatch s req) as [rt|] eqn:Hf.
  - unfold firstMatch in Hf. apply List.find_some in Hf as [Hrt _].
    apply list_elem_of_In in Hrt.
    destruct (runRoute_shape s rt req st) as (ta & Hta & [Ht | (auth & st' & Ht)]);
      rewrite Ht in He; rewrite Forall_forall in Hta.
    + destruct (Hta e He) as [-> | ->]; by destruct Ho.
    + apply elem_of_app in He as [He|He].
      * destruct (Hta e He) as [-> | ->]; by destruct Ho.
      * destruct (runHandler_debits _ _ _ _ _ _ He Ho) as (fn & rl & Hfn & Hrl & Hfo).
        exists fn, rl. split; [done|]. split; [done|]. right. by exists rt.
  - destruct (catchall_shape s req st) as (tc & tl & Ht & Hc & Hl). rewrite Ht in He.
    apply elem_of_app in He as [He|He].
    + apply (consumesOf_origin _ _ _ _ Hc) in He as (fn & Hfn & Hfo).
      destruct (globalConsumeFns_limiter s fn Hfn) as [rl Hrl]. exists fn, rl. auto.
    + destruct Hl as [-> | [-> | [-> | ->]]];
        repeat (apply elem_of_cons in He as [-> | He]; [by destruct Ho|]);
        by apply elem_of_nil in He.
Qed.

(** ** A server without rate limits *)

(** Without the [rateLimits] option the table stays empty, and a shared
    spec can only find in it what every object inherits: the consume
    functions of the pools are built on no limiter. *)
Lemma tableGet_empty name v : tableGet emptyTable name = Some v -> v = Inherited.
Proof.
  unfold tableGet, emptyTable. simpl. destruct (String.eqb name "__proto__"); [congruence|].
  rewrite lookup_empty. destruct (_ || _); congruence.
Qed.

Lemma pushFn_Forall (P : RateLimiterConsume -> Prop) nsid fn
    (m : gmap string (list RateLimiterConsume)) :
  P fn -> Forall P (default [] (m !! nsid)) -> Forall P (default [] (pushFn nsid fn m !! nsid)).
Proof.
  intros Hfn Hm. unfold pushFn. rewrite lookup_alter_eq. destruct (m !! nsid); simpl in *; [|done].
  apply Forall_app. split; [done|]. by constructor.
Qed.

Lemma setupLimitsFrom_unlimited nsid limits : forall i s,
  rateLimits (options s) = None -> sharedRateLimiters s = emptyTable ->
  Forall (fun fn => cf_limiter fn = Inherited) (default [] (basicRouteRateLimiterFns s !! nsid)) ->
  Forall (fun fn => cf_limiter fn = Inherited) (default [] (paramRouteRateLimiterFns s !! nsid)) ->
  let s' := setupLimitsFrom nsid i limits s in
  sharedRateLimiters s' = emptyTable
  /\ Forall (fun fn => cf_limiter fn = Inherited)
       (default [] (basicRouteRateLimiterFns s' !! nsid))
  /\ Forall (fun fn => cf_limiter fn = Inherited)
       (default [] (paramRouteRateLimiterFns s' !! nsid)).
Proof.
  induction limits as [|l limits IH]; intros i s Ho Hs Hb Hp; [done|]. cbn [setupLimitsFrom].
  cbn zeta. apply IH; unfold setupLimit; destruct l as [name ck cp|d p ck cp];
    unfold createLimiter; rewrite ?Ho; try done;
    (destruct (tableGet (sharedRateLimiters s) name) as [v|] eqn:Hv; [|done]);
    rewrite Hs in Hv; apply tableGet_empty in Hv as ->;
    unfold pushRouteFn; destruct (isBasicSpec _); simpl; try done;
    by apply pushFn_Forall.
Qed.

Lemma reachable_unlimited s :
  Reachable s -> rateLimits (options s) = None ->
  globalRateLimiters s = [] /\ sharedRateLimiters s = emptyTable
  /\ Forall (fun rt => Forall (fun fn => cf_limiter fn = Inherited)
                         (h_basicRlFns (rt_handler rt))
                       /\ Forall (fun fn => cf_limiter fn = Inherited)
                            (h_paramRlFns (rt_handler rt))) (routes s).
Proof.
  induction 1 as [lexicons opts|s nsid config s' Hreach IH Hadd|s nsid config s' Hreach IH Hadd].
  - simpl. by intros ->.
  - apply addMethod_inv in Hadd as (def & _ & _ & ->).
    destruct (addRoute_frame nsid def config s) as (_ & Ho & _ & Hg & Hr).
    rewrite Ho, Hg, Hr. intros Hnone. destruct (IH Hnone) as (Hgl & Hsh & Hpools).
    assert (Hsetup : sharedRateLimiters (setupRouteRateLimits nsid config s) = emptyTable
              /\ Forall (fun fn => cf_limiter fn = Inherited)
                   (default [] (basicRouteRateLimiterFns (setupRouteRateLimits nsid config s)
                                  !! nsid))
              /\ Forall (fun fn => cf_limiter fn = Inherited)
                   (default [] (paramRouteRateLimiterFns (setupRouteRateLimits nsid config s)
                                  !! nsid))).
    { unfold setupRouteRateLimits. cbn zeta. apply setupLimitsFrom_unlimited; try done.
      - simpl. rewrite lookup_insert_eq. unfold globalConsumeFns. rewrite Hgl. constructor.
      - simpl. rewrite lookup_insert_eq. constructor. }
    destruct Hsetup as (Hs' & Hb' & Hp').
    split; [done|]. split; [done|].
    apply Forall_app. split; [done|]. constructor; [|done]. done.
  - apply addStreamMethod_inv in Hadd as (def & _ & _ & ->). exact IH.
Qed.

(** X14. A server made without the [rateLimits] option never consults a
    limiter, whatever rate limits the registered methods ask for: no
    request debits anything, and the store is left as it was. *)
Theorem no_rate_limits_no_debit s req st :
  Reachable s -> rateLimits (options s) = None ->
  noDebit (traceOf (handleRequest s req st)) /\ storeOf (handleRequest s req st) = st.
Proof.
  intros Hreach Hnone. destruct (reachable_unlimited s Hreach Hnone) as (Hgl & _ & Hpools).
  assert (Hno : noDebit (traceOf (handleRequest s req st))).
  { intros e He. destruct (eventOrigin e) as [o|] eqn:Ho; [exfalso|done].
    destruct (handleRequest_debits s req st e He)
      as (fn & rl & _ & Hrl & [Hfn | (rt & Hrt & Hfn)]); [by rewrite Ho| |].
    - unfold globalConsumeFns in Hfn. rewrite Hgl in Hfn. by apply elem_of_nil in Hfn.
    - rewrite Forall_forall in Hpools. destruct (Hpools rt Hrt) as [Hb Hp].
      rewrite Forall_forall in Hb, Hp.
      destruct Hfn as [Hfn|Hfn]; [apply Hb in Hfn|apply Hp in Hfn]; congruence. }
  split; [exact Hno|]. apply map_eq. intros row.
  destruct (decide (storeOf (handleRequest s req st) !! row = st !! row)) as [Heq|Hne];
    [done|].
  destruct (framed_handleRequest s req st row Hne) as (o & c & Hin).
  by specialize (Hno _ Hin).
Qed.

Lemma no_rate_limits_no_debit_witness :
  let s := method "io.example.ping"
             (configOf (answering (json "pong")) None
                [RouteRateLimitOpts 60000 0 None None; SharedRateLimitOpts "account" None None])
             (createServer lexicons proxying) in
  storeOf (handleRequest s (request "GET" "io.example.ping") ∅) = ∅.
Proof.
  intros s.
  refine (proj2 (no_rate_limits_no_debit s (request "GET" "io.example.ping") ∅ _ _)).
  - apply (reach_method (createServer lexicons proxying) "io.example.ping"
             (configOf (answering (json "pong")) None
                [RouteRateLimitOpts 60000 0 None None;
                 SharedRateLimitOpts "account" None None]));
      [constructor|reflexivity].
  - reflexivity.
Defined.

(** ** Shared limits *)

(** X15. A spec that names a limit of the shared table (under a name
    other than the method's own id) is served by that very limiter. The
    handler holds a consume function on the limiter that the table had
    under the name, with the spec's overrides: in its basic pool and not
    in its parametric pool when the spec has neither [calcKey] nor
    [calcPoints], in its parametric pool and not in its basic pool when
    the spec has one of them. Registering the method leaves the table as
    it was under every name but the method's own id. *)
Theorem shared_limit_is_shared s nsid def config i name ck cp rl :
  cfg_rateLimit config !! i = Some (SharedRateLimitOpts name ck cp) ->
  name <> nsid ->
  sharedRateLimiters s !! name = Some rl ->
  let s' := setupRouteRateLimits nsid config s in
  let h := createHandler s' nsid def config in
  let fn := {| cf_origin := OfSpec nsid i; cf_limiter := ALimiter rl;
               cf_opts := {| co_calcKey := ck; co_calcPoints := cp |} |} in
  (ck = None -> cp = None -> fn ∈ h_basicRlFns h /\ fn ∉ h_paramRlFns h)
  /\ (is_Some ck \/ is_Some cp -> fn ∈ h_paramRlFns h /\ fn ∉ h_basicRlFns h)
  /\ (forall other, other <> nsid ->
        sharedRateLimiters s' !! other = sharedRateLimiters s !! other).
Proof.
  intros Hi Hne Hrl s' h fn.
  destruct (handler_shared_spec s nsid def config i name ck cp (ALimiter rl) Hi) as [Hb Hp].
  { intros j l s0 Hs0. apply table_lookup_get. rewrite setupLimit_table_other by done.
    by apply table_lookup_get. }
  { by apply table_lookup_get. }
  fold s' h fn in Hb, Hp.
  destruct (handler_pools nsid def config s) as (Hob & Hop & _). fold s' h in Hob, Hop.
  split; [|split].
  - intros Hck Hcp. split; [by apply Hb|]. intros Hin.
    destruct (pool_of_spec _ _ _ _ _ _ _ _ _ Hop Hi Hin eq_refl) as [Hbasic _].
    apply isBasicSpec_false in Hbasic. simpl in Hbasic. rewrite Hck, Hcp in Hbasic.
    by destruct Hbasic as [[? ?]|[? ?]].
  - intros Hsome. split; [by apply Hp|]. intros Hin.
    destruct (pool_of_spec _ _ _ _ _ _ _ _ _ Hob Hi Hin eq_refl) as [Hbasic _].
    apply isBasicSpec_true in Hbasic as [Hck Hcp]. simpl in Hck, Hcp. rewrite Hck, Hcp in Hsome.
    by destruct Hsome as [[? ?]|[? ?]].
  - intros other Ho. subst s'. unfold setupRouteRateLimits. cbn zeta.
    by rewrite setupLimitsFrom_table_other.
Qed.

Lemma shared_limit_is_shared_witness :
  let s := createServer lexicons (optionsWith None [] [limitOf "account" 100]) in
  let config := configOf (answering (json "pong")) None
                  [SharedRateLimitOpts "account" None None;
                   SharedRateLimitOpts "account" (Some byDid) None] in
  let h := createHandler (setupRouteRateLimits "io.example.ping" config s)
             "io.example.ping" (plainDef query) config in
  {| cf_origin := OfSpec "io.example.ping" 0;
     cf_limiter := ALimiter (declaredLimiter storeBacked (limitOf "account" 100));
     cf_opts := noOverride |} ∈ h_basicRlFns h
  /\ {| cf_origin := OfSpec "io.example.ping" 1;
        cf_limiter := ALimiter (declaredLimiter storeBacked (limitOf "account" 100));
        cf_opts := {| co_calcKey := Some byDid; co_calcPoints := None |} |} ∈ h_paramRlFns h.
Proof.
  intros s config h. split.
  - destruct (shared_limit_is_shared s "io.example.ping" (plainDef query) config 0 "account"
                None None (declaredLimiter storeBacked (limitOf "account" 100)))
      as [H _]; [reflexivity|discriminate|by vm_compute|].
    by destruct (H eq_refl eq_refl).
  - destruct (shared_limit_is_shared s "io.example.ping" (plainDef query) config 1 "account"
                (Some byDid) None (declaredLimiter storeBacked (limitOf "account" 100)))
      as (_ & H & _); [reflexivity|discriminate|by vm_compute|].
    destruct H as [H _]; [left; eauto|exact H].
Defined.

(** ** The constructor's table of shared limits *)

(** The table after the constructor's loop over the declarations: a
    declaration is an own entry, but for one of [__proto__], which is
    the prototype. *)
Lemma declared_table (c : RateLimiterOpts -> RateLimiterI)
    (limits : list ServerRateLimitDescription) :
  let t := foldl (fun t limit => tableSet (srl_name limit) (declaredLimiter c limit) t)
             emptyTable limits in
  let declared name := declaredLimiter c
                         <$> last (filter (fun limit => srl_name limit = name) limits) in
  (forall name, name <> "__proto__" -> tbl_own t !! name = declared name)
  /\ tbl_own t !! "__proto__" = None
  /\ tbl_proto t = declared "__proto__".
Proof.
  induction limits as [|limit limits IH] using rev_ind; [done|].
  cbn zeta in *. destruct IH as (Hown & Hnone & Hproto).
  rewrite foldl_app. simpl. unfold tableSet.
  destruct (String.eqb (srl_name limit) "__proto__") eqn:Hp; simpl.
  - apply String.eqb_eq in Hp. split; [|split].
    + intros name Hne. rewrite filter_app, filter_cons_False by congruence.
      rewrite filter_nil, app_nil_r. by apply Hown.
    + exact Hnone.
    + rewrite filter_app, filter_cons_True by done. rewrite filter_nil. by rewrite last_snoc.
  - apply String.eqb_neq in Hp. split; [|split].
    + intros name Hne. rewrite filter_app.
      destruct (decide (srl_name limit = name)) as [Heq|Hne'].
      * rewrite Heq, lookup_insert_eq, filter_cons_True by done.
        rewrite filter_nil. by rewrite last_snoc.
      * rewrite lookup_insert_ne, filter_cons_False by done.
        rewrite filter_nil, app_nil_r. by apply Hown.
    + by rewrite lookup_insert_ne.
    + rewrite filter_app, filter_cons_False by done. by rewrite filter_nil, app_nil_r.
Qed.

Lemma last_filter_name (limits : list ServerRateLimitDescription) name :
  is_Some (last (filter (fun limit => srl_name limit = name) limits))
  <-> name ∈ map srl_name limits.
Proof.
  rewrite list_elem_of_fmap. split.
  - intros [limit Hlast]. apply last_Some_elem_of in Hlast.
    apply list_elem_of_filter in Hlast as [Hn Hin]. by exists limit.
  - intros (limit & -> & Hin).
    assert (Hf : limit ∈ filter (fun l => srl_name l = srl_name limit) limits)
      by (by apply list_elem_of_filter).
    destruct (filter _ limits) as [|x l] using rev_ind; [by apply elem_of_nil in Hf|].
    rewrite last_snoc. eauto.
Qed.

(** X16. The table of shared limits of a new server, read as the code
    reads it ([table[name]]). Under a declared name it gives the limiter
    made from the last declaration of that name in [rateLimits.shared],
    with the key prefix [rl-] and the name, and it gives a limiter under
    declared names only. Under a name that is not declared - any name,
    without the [rateLimits] option - it gives nothing, unless the name
    is one that the table inherits ([__proto__], the members of
    [Object.prototype], and [consume] once [__proto__] is declared):
    there it gives a value that is no limiter. *)
Theorem shared_table_of_new_server lexicons opts name :
  let table := sharedRateLimiters (createServer lexicons opts) in
  let inherits (declared : list string) :=
    String.eqb name "__proto__" || bool_decide (name ∈ objectPrototypeMembers)
    || (bool_decide ("__proto__" ∈ declared) && String.eqb name "consume") in
  (rateLimits opts = None ->
     table !! name = None
     /\ tableGet table name = if inherits [] then Some Inherited else None)
  /\ (forall rlo, rateLimits opts = Some rlo ->
        table !! name
        = declaredLimiter (creator rlo)
            <$> last (filter (fun limit => srl_name limit = name) (rlo_shared rlo))
        /\ (is_Some (table !! name) <-> name ∈ map srl_name (rlo_shared rlo))
        /\ (forall rl, creator rlo = storeBacked -> table !! name = Some rl ->
              keyPrefix (rl_opts rl) = "rl-" +:+ name)
        /\ (name ∉ map srl_name (rlo_shared rlo) ->
              tableGet table name
              = if inherits (map srl_name (rlo_shared rlo)) then Some Inherited else None)).
Proof.
  intros table inherits. subst table inherits. unfold createServer. simpl. split.
  - intros ->. split; [apply table_lookup_empty|].
    unfold tableGet, emptyTable. simpl. destruct (String.eqb name "__proto__"); [done|].
    rewrite lookup_empty. by destruct (bool_decide (name ∈ objectPrototypeMembers)).
  - intros rlo ->.
    destruct (declared_table (creator rlo) (rlo_shared rlo)) as (Hown & Hnone & Hproto).
    cbn zeta in *.
    set (t := foldl _ emptyTable (rlo_shared rlo)) in *.
    assert (Hlook : t !! name
              = declaredLimiter (creator rlo)
                  <$> last (filter (fun limit => srl_name limit = name) (rlo_shared rlo))).
    { unfold lookup, table_lookup, tableGet.
      destruct (String.eqb name "__proto__") eqn:Hp.
      - apply String.eqb_eq in Hp. subst name. rewrite Hproto. by destruct (last _).
      - apply String.eqb_neq in Hp. rewrite (Hown name Hp).
        destruct (last (filter (fun limit => srl_name limit = name) _)); simpl; [done|].
        by destruct (_ || _). }
    split; [exact Hlook|]. split; [|split].
    + rewrite Hlook, <- last_filter_name. by rewrite fmap_is_Some.
    + intros rl Hc Hrl. rewrite Hlook in Hrl.
      destruct (last (filter (fun limit => srl_name limit = name) _)) as [limit|] eqn:Hlast;
        [|done].
      apply last_Some_elem_of in Hlast. apply list_elem_of_filter in Hlast as [Hn _].
      simpl in Hrl. injection Hrl as <-. rewrite Hc. simpl. by rewrite Hn.
    + intros Hundeclared.
      assert (Hlast : last (filter (fun limit => srl_name limit = name) (rlo_shared rlo)) = None).
      { destruct (last (filter (fun limit => srl_name limit = name) _)) eqn:Hl; [|done].
        destruct Hundeclared.
        apply last_filter_name. rewrite Hl. eauto. }
      unfold tableGet. destruct (String.eqb name "__proto__") eqn:Hp.
      * apply String.eqb_eq in Hp. subst name. by rewrite Hproto, Hlast.
      * apply String.eqb_neq in Hp. rewrite (Hown name Hp), Hlast. simpl.
        rewrite Hproto.
        destruct (bool_decide (name ∈ objectPrototypeMembers)); [done|]. simpl.
        destruct (decide ("__proto__" ∈ map srl_name (rlo_shared rlo))) as [Hin|Hnin].
        -- rewrite bool_decide_eq_true_2 by done. apply last_filter_name in Hin as [x Hx].
           rewrite Hx. simpl. by destruct (String.eqb name "consume").
        -- rewrite bool_decide_eq_false_2 by done.
           destruct (last (filter _ (rlo_shared rlo))) as [x|] eqn:Hx; [|done].
           destruct Hnin. apply last_filter_name. rewrite Hx. eauto.
Qed.

Lemma shared_table_of_new_server_witness :
  let table := sharedRateLimiters
                 (createServer lexicons
                    (optionsWith None [] [limitOf "account" 1; limitOf "account" 2])) in
  table !! "account" = Some (declaredLimiter storeBacked (limitOf "account" 2))
  /\ tableGet table "constructor" = Some Inherited
  /\ tableGet table "session" = None.
Proof.
  intros table.
  destruct (shared_table_of_new_server lexicons
              (optionsWith None [] [limitOf "account" 1; limitOf "account" 2]) "account")
    as [_ Ha].
  destruct (shared_table_of_new_server lexicons
              (optionsWith None [] [limitOf "account" 1; limitOf "account" 2]) "constructor")
    as [_ Hc].
  destruct (shared_table_of_new_server lexicons
              (optionsWith None [] [limitOf "account" 1; limitOf "account" 2]) "session")
    as [_ Hs].
  destruct (Ha _ eq_refl) as [Hl _].
  destruct (Hc _ eq_refl) as (_ & _ & _ & Hci).
  destruct (Hs _ eq_refl) as (_ & _ & _ & Hsi).
  split; [|split].
  - fold table in Hl. rewrite Hl. reflexivity.
  - fold table in Hci. rewrite Hci; [reflexivity|].
    vm_compute. intros H. repeat (apply elem_of_cons in H as [H|H]; [discriminate|]).
    by apply elem_of_nil in H.
  - fold table in Hsi. rewrite Hsi; [reflexivity|].
    vm_compute. intros H. repeat (apply elem_of_cons in H as [H|H]; [discriminate|]).
    by apply elem_of_nil in H.
Defined.

(** ** Type tags, again *)

Lemma localType_cases nsid type :
  localType nsid type = type
  \/ exists name, noHash name = true /\ localType nsid type = "#" +:+ name.
Proof.
  unfold localType. destruct (split hash type) as [|ns [|name [|? ?]]] eqn:Hs; auto.
  destruct (_ || _); auto. apply split_two in Hs as (_ & _ & Hn). right. by exists name.
Qed.

(** X17. Shortening a type tag is idempotent: the tag that a frame gets
    for a type is a tag that the same subscription leaves as it is. *)
Theorem localType_idempotent nsid type :
  localType nsid (localType nsid type) = localType nsid type.
Proof.
  destruct (localType_cases nsid type) as [H | (name & Hn & ->)]; [by rewrite !H|].
  by apply localType_bare.
Qed.

(** ** The registries of a server *)

Lemma reachable_lex_routes s :
  Reachable s ->
  Forall (fun rt => exists def,
            getDef (lex s) (rt_nsid rt) = Some def
            /\ (def_type def = query \/ def_type def = procedure)
            /\ rt_verb rt = verbOf def
            /\ h_nsid (rt_handler rt) = rt_nsid rt
            /\ h_def (rt_handler rt) = def
            /\ rt_auth rt = cfg_auth (h_cfg (rt_handler rt))) (routes s).
Proof.
  induction 1 as [lexicons opts|s nsid config s' Hreach IH Hadd|s nsid config s' Hreach IH Hadd].
  - constructor.
  - apply addMethod_inv in Hadd as (def & Hdef & Hty & ->).
    destruct (addRoute_frame nsid def config s) as (Hl & _ & _ & _ & Hr).
    rewrite Hl, Hr. apply Forall_app. split; [exact IH|].
    constructor; [|done]. exists def. by simpl.
  - apply addStreamMethod_inv in Hadd as (def & _ & _ & ->). exact IH.
Qed.

Lemma reachable_subscriptions s id ss :
  Reachable s -> subscriptions s !! id = Some ss ->
  exists def, getDef (lex s) id = Some def /\ def_type def = subscription
              /\ ss_nsid ss = id /\ ss_def ss = def.
Proof.
  induction 1 as [lexicons opts|s nsid config s' Hreach IH Hadd|s nsid config s' Hreach IH Hadd].
  - simpl. by rewrite lookup_empty.
  - apply addMethod_inv in Hadd as (def & _ & _ & ->).
    destruct (addRoute_frame nsid def config s) as (Hl & _ & Hs & _).
    rewrite Hl, Hs. exact IH.
  - apply addStreamMethod_inv in Hadd as (def & Hdef & Hty & ->). simpl.
    destruct (decide (nsid = id)) as [->|Hne].
    + rewrite lookup_insert_eq. intros [= <-]. by exists def.
    + rewrite lookup_insert_ne by done. exact IH.
Qed.

(** X18. The registries of a server built by the constructor and the
    registration methods keep to their kinds. Every layer of the router
    stands under a query or a procedure, carries the verb of its
    definition, and its handler was made for that id and that
    definition; every subscription stands under a subscription
    definition of its own id. So no id is served both ways: a request
    whose id can be upgraded to a stream matches no route. *)
Theorem registries_by_kind s :
  Reachable s ->
  (forall rt, rt ∈ routes s ->
     exists def, getDef (lex s) (rt_nsid rt) = Some def
                 /\ (def_type def = query \/ def_type def = procedure)
                 /\ rt_verb rt = verbOf def
                 /\ h_nsid (rt_handler rt) = rt_nsid rt
                 /\ h_def (rt_handler rt) = def)
  /\ (forall id ss, subscriptions s !! id = Some ss ->
        exists def, getDef (lex s) id = Some def /\ def_type def = subscription
                    /\ ss_nsid ss = id /\ ss_def ss = def)
  /\ (forall req, is_Some (upgrade s req) -> firstMatch s req = None).
Proof.
  intros Hreach. pose proof (reachable_lex_routes s Hreach) as Hroutes.
  rewrite Forall_forall in Hroutes. split; [|split].
  - intros rt Hrt. destruct (Hroutes rt Hrt) as (def & ? & ? & ? & ? & ? & _). by exists def.
  - intros id ss. by apply reachable_subscriptions.
  - intros req [frames Hup]. unfold upgrade in Hup.
    destruct (subscriptions s !! req_methodId req) as [ss|] eqn:Hss; [|done].
    destruct (reachable_subscriptions s _ ss Hreach Hss) as (def & Hdef & Hty & _).
    unfold firstMatch. destruct (List.find _ (routes s)) as [rt|] eqn:Hfind; [|done].
    apply List.find_some in Hfind as [Hrt Hm]. apply list_elem_of_In in Hrt.
    destruct (Hroutes rt Hrt) as (def' & Hdef' & Hty' & _).
    unfold routeMatches in Hm. apply andb_prop in Hm as [Hid _].
    apply String.eqb_eq in Hid. rewrite Hid, Hdef in Hdef'. injection Hdef' as <-.
    rewrite Hty in Hty'. by destruct Hty'.
Qed.

Lemma registries_by_kind_witness :
  let s := streamMethod "io.example.stream"
             {| scfg_handler := fun _ => ([ItemValue (VNum 1)], None); scfg_auth := None |}
             (method "io.example.ping" (configOf (answering (json "pong")) None [])
                (createServer lexicons (optionsWith None [] []))) in
  firstMatch s (request "GET" "io.example.stream") = None.
Proof.
  intros s.
  assert (Hreach : Reachable s).
  { apply (reach_stream
             (method "io.example.ping" (configOf (answering (json "pong")) None [])
                (createServer lexicons (optionsWith None [] [])))
             "io.example.stream"
             {| scfg_handler := fun _ => ([ItemValue (VNum 1)], None); scfg_auth := None |});
      [|reflexivity].
    apply (reach_method (createServer lexicons (optionsWith None [] [])) "io.example.ping"
             (configOf (answering (json "pong")) None []));
      [constructor|reflexivity]. }
  destruct (registries_by_kind s Hreach) as (_ & _ & H).
  apply H. vm_compute. eauto.
Defined.

(** ** A handler that fails *)

(** X19. Whatever a handler raises, the request is answered with an
    error response made from it, right after the call: no output is
    validated, and nothing falsy is handed to [next] - a falsy value is
    replaced by an InternalServerError. What is raised without being a
    typed error or a declared one - an unknown error, or a falsy value -
    is answered with status InternalServerError and the generic message
    only. *)
Theorem handler_failure_is_answered lx h req auth st reqCtx t :
  valueOf (beforeHandler lx h req auth st) = inr (inr reqCtx) ->
  cfg_handler (h_cfg h) reqCtx = inl t ->
  let r := runHandler lx h req auth st in
  let before := beforeHandler lx h req auth st in
  finish (valueOf r) = errorMiddleware t
  /\ (exists err, valueOf r = NextErr err /\ err <> ThFalsy)
  /\ traceOf r = traceOf before ++ [EvHandler (h_nsid h)]
  /\ storeOf r = storeOf before
  /\ ((forall e, t <> ThXrpc e) -> (forall he, t <> ThHandlerError he) ->
      finish (valueOf r)
      = ErrorResponse InternalServerError
          {| p_error := Some "InternalServerError";
             p_message := Some "Internal Server Error" |}).
Proof.
  intros Hb Ht r before. subst r before.
  unfold runHandler, handlerTry, bind, valueOf, traceOf, storeOf in *.
  destruct (beforeHandler lx h req auth st) as [[tb stb] vb]. simpl in Hb. subst vb.
  unfold invoke, bind, emit. rewrite Ht. simpl. rewrite !app_nil_r.
  split; [by destruct t|]. split; [destruct t; eexists; split; done|].
  split; [done|]. split; [done|].
  intros Hx Hh. destruct t as [e|he|msg|]; [by destruct (Hx e)|by destruct (Hh he)|done|done].
Qed.

Lemma handler_failure_is_answered_witness :
  let h := createHandler (createServer lexicons (optionsWith None [] []))
             "io.example.ping" (plainDef query)
             (configOf (fun _ => inl (ThError "connection refused: db-07.internal")) None []) in
  finish (valueOf (runHandler lexicons h (request "GET" "io.example.ping") None ∅))
  = ErrorResponse InternalServerError
      {| p_error := Some "InternalServerError"; p_message := Some "Internal Server Error" |}.
Proof.
  intros h.
  destruct (handler_failure_is_answered lexicons h (request "GET" "io.example.ping") None ∅
              {| ctx_req := request "GET" "io.example.ping"; ctx_params := [];
                 ctx_input := None; ctx_auth := None |}
              (ThError "connection refused: db-07.internal") eq_refl eq_refl)
    as (_ & _ & _ & _ & H).
  apply H; discriminate.
Defined.

(** ** Further registrations *)

Lemma find_app_some {A} (f : A -> bool) (l l' : list A) (x : A) :
  List.find f l = Some x -> List.find f (l ++ l') = Some x.
Proof.
  induction l as [|y l IH]; [done|]. simpl. destruct (f y); [done|exact IH].
Qed.

Lemma extends_frame s s' :
  Extends s s' ->
  lex s' = lex s /\ options s' = options s /\ globalRateLimiters s' = globalRateLimiters s
  /\ exists added, routes s' = routes s ++ added.
Proof.
  induction 1 as [|s1 nsid config s2 Hext IH Hadd|s1 nsid config s2 Hext IH Hadd].
  - repeat split; try done. exists []. by rewrite app_nil_r.
  - destruct IH as (Hl & Ho & Hg & added & Hr).
    apply addMethod_inv in Hadd as (def & _ & _ & ->).
    destruct (addRoute_frame nsid def config s1) as (Hl' & Ho' & _ & Hg' & Hr').
    rewrite Hl', Ho', Hg', Hr', Hr. repeat split; try done.
    eexists. by rewrite <- app_assoc.
  - destruct IH as (Hl & Ho & Hg & added & Hr).
    apply addStreamMethod_inv in Hadd as (def & _ & _ & ->). simpl.
    repeat split; try done. by exists added.
Qed.

(** X20. The first registration of a route stands: once a route serves
    a request, no later registration - of the same id or of another, of
    a method or of a subscription - changes how the request is handled.
    The route that serves it, the answer, the trace and the store are
    the same on every server obtained by further registrations. *)
Theorem served_requests_are_stable s s' req rt :
  Extends s s' ->
  firstMatch s req = Some rt ->
  firstMatch s' req = Some rt
  /\ forall st, handleRequest s' req st = handleRequest s req st.
Proof.
  intros Hext Hf. destruct (extends_frame s s' Hext) as (Hl & _ & _ & added & Hr).
  assert (Hf' : firstMatch s' req = Some rt).
  { unfold firstMatch in *. rewrite Hr. by apply find_app_some. }
  split; [exact Hf'|]. intros st.
  rewrite (handleRequest_matched s' req st rt Hf'), (handleRequest_matched s req st rt Hf).
  by rewrite (runRoute_lex s' s rt Hl).
Qed.

Lemma served_requests_are_stable_witness :
  let s := method "io.example.ping" (configOf (answering (json "first")) None [])
             (createServer lexicons (optionsWith None [] [])) in
  let s' := method "io.example.ping" (configOf (answering (json "second")) None []) s in
  valueOf (handleRequest s' (request "GET" "io.example.ping") ∅) = Ok200Json "first" [].
Proof.
  intros s s'.
  pose (rt := {| rt_verb := get; rt_nsid := "io.example.ping"; rt_auth := None;
                 rt_handler :=
                   createHandler
                     (setupRouteRateLimits "io.example.ping"
                        (configOf (answering (json "first")) None [])
                        (createServer lexicons (optionsWith None [] [])))
                     "io.example.ping" (plainDef query)
                     (configOf (answering (json "first")) None []) |}).
  assert (Hext : Extends s s').
  { apply (ext_method s s "io.example.ping" (configOf (answering (json "second")) None []));
      [constructor|reflexivity]. }
  destruct (served_requests_are_stable s s' (request "GET" "io.example.ping") rt Hext)
    as [_ H]; [by vm_compute|].
  rewrite H. by vm_compute.
Defined.

(** ** Authentication of a connection *)

(** X21. The verifier of a subscription guards the stream. Whatever it
    raises - a falsy value too, which on a route would let the request
    through - and whatever declared error it returns, the connection
    gets one error frame made from it and the handler is not started.
    With credentials, the handler runs on a context that holds them and
    the validated parameters. *)
Theorem stream_verifier_guards lx ss req verifier :
  scfg_auth (ss_cfg ss) = Some verifier ->
  let out := streamFrames lx ss req in
  (forall t, verifier req = inl t -> out = [errorFrameOf t])
  /\ (verifier req = inl ThFalsy ->
      out = [ErrorFrame "InternalServerError" (Some "Internal Server Error")])
  /\ (forall he, verifier req = inr (AuthError he) ->
        out = [errorFrameOf (ThXrpc (fromHandlerError he))])
  /\ (forall a params,
        verifier req = inr (AuthCredentials a) ->
        lex_params lx (ss_nsid ss) (def_decode (ss_def ss) (req_query req)) = inr params ->
        let run := scfg_handler (ss_cfg ss)
                     {| sctx_req := req; sctx_params := params; sctx_auth := Some a |} in
        out = map (frameOfItem (ss_nsid ss)) (fst run)
              ++ match snd run with Some err => [errorFrameOf err] | None => [] end).
Proof.
  intros Hv out. subst out. unfold streamFrames, streamTry, streamAuth. rewrite Hv.
  split; [|split; [|split]].
  - by intros t ->.
  - by intros ->.
  - by intros he ->.
  - by intros a params -> ->.
Qed.

Lemma stream_verifier_guards_witness :
  let ss := {| ss_nsid := "io.example.stream"; ss_def := plainDef subscription;
               ss_cfg := {| scfg_handler := fun _ => ([ItemValue (VNum 1)], None);
                            scfg_auth := Some (fun _ => inl ThFalsy) |} |} in
  streamFrames lexicons ss (request "GET" "io.example.stream")
  = [ErrorFrame "InternalServerError" (Some "Internal Server Error")].
Proof.
  intros ss.
  destruct (stream_verifier_guards lexicons ss (request "GET" "io.example.stream")
              (fun _ => inl ThFalsy) eq_refl) as (_ & H & _).
  exact (H eq_refl).
Defined.

(** ** Output validation switched off *)

Lemma reachable_validators s :
  Reachable s ->
  Forall (fun rt => h_validateResOutput (rt_handler rt)
                    = match validateResponse (options s) with
                      | Some false => false
                      | _ => true
                      end) (routes s).
Proof.
  induction 1 as [lexicons opts|s nsid config s' Hreach IH Hadd|s nsid config s' Hreach IH Hadd].
  - constructor.
  - apply addMethod_inv in Hadd as (def & _ & _ & ->).
    destruct (addRoute_frame nsid def config s) as (_ & Ho & _ & _ & Hr).
    rewrite Ho, Hr. apply Forall_app. split; [exact IH|].
    constructor; [|done]. simpl. by rewrite (inv_options _ _ _ _ _ (setup_inv nsid config s)).
  - apply addStreamMethod_inv in Hadd as (def & _ & _ & ->). exact IH.
Qed.

Lemma runHandler_unvalidated lx h req auth st id :
  h_validateResOutput h = false ->
  EvValidateOutput id ∉ traceOf (runHandler lx h req auth st).
Proof.
  intros Hoff He. rewrite runHandler_trace in He. unfold handlerTry in He.
  rewrite bind_trace in He. apply elem_of_app in He as [He|He].
  - destruct (beforeHandler_shape lx h req auth st) as (tb & tv & tp & Ht & Hb & [k Hv] & Hp & _).
    rewrite Ht, !elem_of_app in He. destruct He as [He|[He|He]].
    + by apply (consumesOf_origin _ _ _ _ Hb) in He as (fn & _ & Hfo).
    + rewrite Hv in He. apply elem_of_take in He as (j & Hj & _).
      apply list_elem_of_lookup_2 in Hj. unfold validationEvents in Hj.
      repeat (apply elem_of_cons in Hj as [Hj|Hj]; [done|]). by apply elem_of_nil in Hj.
    + by apply (consumesOf_origin _ _ _ _ Hp) in He as (fn & _ & Hfo).
  - destruct (valueOf (beforeHandler lx h req auth st)) as [t|[o|reqCtx]].
    + by apply elem_of_nil in He.
    + by apply elem_of_nil in He.
    + revert He. unfold invoke, respond, validateResOutput. rewrite Hoff.
      unfold bind, emit, ret, traceOf. simpl.
      destruct (cfg_handler (h_cfg h) reqCtx) as [t|[]]; simpl; intros He;
        by apply list_elem_of_singleton in He.
Qed.

(** X22. With [validateResponse: false], no output is ever validated:
    on a server built by the constructor and the registration methods
    with that option, no request reaches the output validator. *)
Theorem validation_switched_off s req st :
  Reachable s ->
  validateResponse (options s) = Some false ->
  forall id, EvValidateOutput id ∉ traceOf (handleRequest s req st).
Proof.
  intros Hreach Hoff id He. rewrite handleRequest_trace in He.
  destruct (firstMatch s req) as [rt|] eqn:Hf.
  - unfold firstMatch in Hf. apply List.find_some in Hf as [Hrt _].
    apply list_elem_of_In in Hrt.
    pose proof (reachable_validators s Hreach) as Hv. rewrite Forall_forall in Hv.
    specialize (Hv rt Hrt). rewrite Hoff in Hv.
    destruct (runRoute_shape s rt req st) as (ta & Hta & [Ht | (auth & st' & Ht)]);
      rewrite Ht in He; rewrite Forall_forall in Hta.
    + by destruct (Hta _ He).
    + apply elem_of_app in He as [He|He]; [by destruct (Hta _ He)|].
      by apply runHandler_unvalidated in He.
  - by apply catchall_events in He as [[o Ho] | [H | [H | H]]].
Qed.

Lemma validation_switched_off_witness :
  let s := method "io.example.ping" (configOf (answering (json "{}")) None [])
             (createServer lexicons (optionsWith (Some false) [] [])) in
  Forall (fun e => e <> EvValidateOutput "io.example.ping")
    (traceOf (handleRequest s (request "GET" "io.example.ping") ∅)).
Proof.
  intros s. apply Forall_forall. intros e He ->. revert He.
  refine (validation_switched_off s (request "GET" "io.example.ping") ∅ _ eq_refl
            "io.example.ping").
  apply (reach_method (createServer lexicons (optionsWith (Some false) [] []))
           "io.example.ping" (configOf (answering (json "{}")) None []));
    [constructor|reflexivity].
Defined.

(** ** A custom catch-all *)

(** X23. A custom catch-all takes every request, OPTIONS apart, that no
    route matches and that the global limiters let through, whatever its
    id and its verb: the request ends the way the custom handler ends it
    - with its response, with the error it hands on, or unanswered by
    this router when it hands on nothing or a falsy value - and the
    lexicon is not consulted, so neither MethodNotImplemented nor the
    verb check can come from the server. *)
Theorem custom_catchall_takes_unmatched s req st custom :
  firstMatch s req = None ->
  opt_catchall (options s) = Some custom ->
  valueOf (consumeMany (basicCtx req) (globalConsumeFns s) st) = None ->
  req_method req <> "OPTIONS" ->
  let r := handleRequest s req st in
  let globals := consumeMany (basicCtx req) (globalConsumeFns s) st in
  valueOf r = finish (custom req)
  /\ traceOf r = traceOf globals ++ [EvCustomCatchall]
  /\ storeOf r = storeOf globals
  /\ (forall id, (EvGetDef id ∉ traceOf r) /\ (EvVerbCheck id ∉ traceOf r)).
Proof.
  intros Hf Hc Hpass _ r globals. subst r globals.
  destruct (handleRequest_unmatched s req st Hf) as (-> & -> & ->).
  pose proof (consumeMany_events (basicCtx req) (globalConsumeFns s) st) as Hev.
  unfold catchall, bind, emit, ret, valueOf, traceOf, storeOf in *. rewrite Hc.
  destruct (consumeMany (basicCtx req) (globalConsumeFns s) st) as [[tg stg] vg].
  simpl in Hpass. subst vg. simpl in *. split; [done|]. split; [done|]. split; [done|].
  intros id. split; intros Hin; rewrite elem_of_app in Hin; destruct Hin as [Hin|Hin];
    try (by apply Hev in Hin as (fn & _ & Hfn)); by apply list_elem_of_singleton in Hin.
Qed.

Lemma custom_catchall_takes_unmatched_witness :
  valueOf (handleRequest (createServer lexicons proxying)
             (request "DELETE" "io.example.unknown") ∅)
  = CustomResponse "proxied".
Proof.
  destruct (custom_catchall_takes_unmatched (createServer lexicons proxying)
              (request "DELETE" "io.example.unknown") ∅
              (fun _ => Sent (CustomResponse "proxied"))) as [H _];
    [by vm_compute|reflexivity|by vm_compute|discriminate|exact H].
Defined.

(** ** The limiter of a method in the shared table *)

Lemma setupLimit_shared_spec nsid i name ck cp s :
  sharedRateLimiters (setupLimit nsid i (SharedRateLimitOpts name ck cp) s)
  = sharedRateLimiters s.
Proof.
  unfold setupLimit. destruct (tableGet _ _); [|done].
  unfold pushRouteFn. by destruct (isBasicSpec _).
Qed.

Lemma setupLimitsFrom_shared_specs nsid limits : forall i s,
  Forall (fun l => exists name ck cp, l = SharedRateLimitOpts name ck cp) limits ->
  sharedRateLimiters (setupLimitsFrom nsid i limits s) = sharedRateLimiters s.
Proof.
  induction limits as [|l limits IH]; intros i s Hall; [done|].
  apply Forall_cons in Hall as [(name & ck & cp & ->) Hall]. cbn [setupLimitsFrom].
  by rewrite IH, setupLimit_shared_spec.
Qed.

Lemma setupLimitsFrom_tabled nsid rlo d p k c limits : forall b s j,
  rateLimits (options s) = Some rlo ->
  limits !! j = Some (RouteRateLimitOpts d p k c) ->
  Forall (fun l => exists name ck cp, l = SharedRateLimitOpts name ck cp) (drop (S j) limits) ->
  sharedRateLimiters (setupLimitsFrom nsid b limits s) !! nsid
  = Some (creator rlo {| keyPrefix := "nsid-" +:+ pretty (b + j); durationMs := d;
                         points := p; calcKey := k; calcPoints := c |}).
Proof.
  induction limits as [|l limits IH]; intros b s j Ho Hj Hrest; [done|].
  cbn [setupLimitsFrom]. destruct j as [|j].
  - injection Hj as ->. simpl in Hrest. rewrite drop_0 in Hrest.
    rewrite setupLimitsFrom_shared_specs by done.
    unfold setupLimit, createLimiter. rewrite Ho, Nat.add_0_r.
    unfold pushRouteFn. destruct (isBasicSpec _); simpl; by rewrite table_lookup_set_eq.
  - replace (b + S j) with (S b + j) by lia. apply IH; try done.
    by rewrite (proj1 (proj2 (setupLimit_frame nsid b l s))).
Qed.

(** X24. The limiter of a method enters the shared table under the
    method's id: after a method is registered on a server with a creator,
    the table holds under its id the limiter made for the last of its
    specs that has a duration and points of its own - the one created
    with the key prefix [nsid-] and the index of that spec. A later
    method that names this id as a shared limit gets that limiter. *)
Theorem method_limiter_is_tabled s nsid config rlo i d p k c :
  rateLimits (options s) = Some rlo ->
  cfg_rateLimit config !! i = Some (RouteRateLimitOpts d p k c) ->
  (forall j l, i < j -> cfg_rateLimit config !! j = Some l ->
     exists name ck cp, l = SharedRateLimitOpts name ck cp) ->
  sharedRateLimiters (setupRouteRateLimits nsid config s) !! nsid
  = Some (creator rlo {| keyPrefix := "nsid-" +:+ pretty i; durationMs := d; points := p;
                         calcKey := k; calcPoints := c |}).
Proof.
  intros Ho Hi Hlast. unfold setupRouteRateLimits. cbn zeta.
  match goal with
  | |- context [setupLimitsFrom nsid 0 _ ?s2] =>
      refine (setupLimitsFrom_tabled nsid rlo d p k c (cfg_rateLimit config) 0 s2 i Ho Hi _)
  end.
  apply Forall_forall. intros l Hl. apply list_elem_of_lookup in Hl as [j Hj].
  rewrite lookup_drop in Hj. apply (Hlast (S i + j) l); [lia|done].
Qed.

Lemma method_limiter_is_tabled_witness :
  let s := createServer lexicons (optionsWith None [] [limitOf "account" 100]) in
  let config := configOf (answering (json "pong")) None
                  [RouteRateLimitOpts 60000 10 None None;
                   RouteRateLimitOpts 1000 2 None None;
                   SharedRateLimitOpts "account" None None] in
  sharedRateLimiters (setupRouteRateLimits "io.example.ping" config s) !! "io.example.ping"
  = Some (storeBacked {| keyPrefix := "nsid-1"; durationMs := 1000; points := 2;
                         calcKey := None; calcPoints := None |}).
Proof.
  intros s config.
  rewrite (method_limiter_is_tabled s "io.example.ping" config
             {| creator := storeBacked; rlo_global := [];
                rlo_shared := [limitOf "account" 100] |} 1 1000 2 None None eq_refl eq_refl).
  - reflexivity.
  - intros j l Hj Hl. destruct j as [|[|[|j]]]; [lia|lia| |done].
    injection Hl as <-. eauto.
Defined.
